(** * GF(2^8) arithmetic of galois-js: a shallow embedding and its properties

    The embedding follows [src/gf256.ts].  JavaScript numbers that the
    program manipulates are integers, modelled as [Z]; the bit operators
    [&], [^], [<<] and [>>] act on 32-bit integers, and every value they see
    here stays below 2^16 (lemma [mulByte_loop_small]), so no wrap-around
    occurs and they are [Z.land], [Z.lxor], [Z.shiftl] and [Z.shiftr].
    A [Uint8Array] is a list of integers of fixed length; a thrown [Error]
    is an explicit [Throw]. *)

From Stdlib Require Import ZArith List Lia Bool Arith.
From Stdlib Require Import Permutation Sorted Ring Field.
Import ListNotations.
Open Scope Z_scope.

(** ** Outcomes of a call *)

(** The messages of the [Error]s the source throws. *)
Inductive error : Type :=
| NotAByte            (* "... must be a byte (0-255), got ..." *)
| NotAUInt16          (* "... must be a uint16 (0-65535), got ..." *)
| InvalidGenerator    (* "Invalid generator ... for polynomial ..." *)
| DivisionByZero      (* "division by zero" *)
| NoInverseForZero    (* "no inverse for 0" *)
| EmptyPolynomial     (* "cannot evaluate an empty polynomial" *)
| EvaluateAtZero      (* "cannot evaluate at x = 0" *)
| NoSamplePoint.      (* "at least one sample point is required" *)

(** A call returns a value, throws, or hands back JavaScript's [undefined]
    (what reading a typed array outside its bounds gives). *)
Inductive outcome (A : Type) : Type :=
| Ret (a : A)
| Throw (e : error)
| Undefined.
Arguments Ret {A} a.
Arguments Throw {A} e.
Arguments Undefined {A}.

Definition bind {A B : Type} (m : outcome A) (k : A -> outcome B) : outcome B :=
  match m with
  | Ret a => k a
  | Throw e => Throw e
  | Undefined => Undefined
  end.

Declare Scope outcome_scope.
Delimit Scope outcome_scope with outcome.
Notation "x <- m ;; k" := (bind m (fun x => k))
  (at level 61, m at next level, right associativity) : outcome_scope.
Notation "m ;;; k" := (bind m (fun _ => k))
  (at level 61, right associativity) : outcome_scope.
Open Scope outcome_scope.

(** ** Typed arrays *)

(** [new Uint8Array(n)]: [n] zero bytes. *)
Definition u8_new (n : nat) : list Z := repeat 0 n.

Fixpoint list_set (l : list Z) (i : nat) (v : Z) : list Z :=
  match l, i with
  | [], _ => []
  | _ :: t, O => v :: t
  | h :: t, S i' => h :: list_set t i' v
  end.

(** [arr[i] = v]: the stored value is reduced modulo 256; a store outside
    the array is ignored. *)
Definition u8_set (arr : list Z) (i v : Z) : list Z :=
  if i <? 0 then arr else list_set arr (Z.to_nat i) (v mod 256).

(** [arr[i]]: [None] is JavaScript's [undefined]. *)
Definition u8_get (arr : list Z) (i : Z) : option Z :=
  if i <? 0 then None else nth_error arr (Z.to_nat i).

(** A read whose result the source uses as a number ([arr[i]!]). *)
Definition u8_read (arr : list Z) (i : Z) : outcome Z :=
  match u8_get arr i with
  | Some v => Ret v
  | None => Undefined
  end.

(** ** [Set<number>] *)

Definition set_has (s : list Z) (x : Z) : bool := existsb (Z.eqb x) s.
Definition set_add (s : list Z) (x : Z) : list Z :=
  if set_has s x then s else x :: s.
Definition set_size (s : list Z) : Z := Z.of_nat (length s).

(** ** Sample points ([shared.ts]) *)

Record Point : Type := mkPoint { px : Z; py : Z }.

Module GF256.

(** ** Validation *)

(** [validateByte]: the argument is an integer in the model, so only the
    range test remains. *)
Definition validateByte (n : Z) : outcome unit :=
  if (n <? 0) || (n >? 255) then Throw NotAByte else Ret tt.

Definition validateUInt16 (n : Z) : outcome unit :=
  if (n <? 0) || (n >? 65535) then Throw NotAUInt16 else Ret tt.

(** ** [mulByte] *)

(** One turn of the loop of [mulByte] on the variables [(a, b, res)]. *)
Definition mulByte_step (poly : Z) (st : Z * Z * Z) : Z * Z * Z :=
  let '(a, b, res) := st in
  let res := if negb (Z.land b 1 =? 0) then Z.lxor res a else res in
  let hi := Z.land a 128 in
  let a := Z.shiftl a 1 in
  let a := if negb (hi =? 0) then Z.lxor a (Z.land poly 255) else a in
  let b := Z.shiftr b 1 in
  (a, b, res).

Fixpoint mulByte_loop (n : nat) (poly : Z) (st : Z * Z * Z) : Z * Z * Z :=
  match n with
  | O => st
  | S n' => mulByte_loop n' poly (mulByte_step poly st)
  end.

(** The value [mulByte] returns once its arguments are validated. *)
Definition mulByte_val (a b poly : Z) : Z :=
  Z.land (snd (mulByte_loop 8 poly (a, b, 0))) 255.

Definition mulByte (a b poly : Z) : outcome Z :=
  validateByte a ;;;
  validateByte b ;;;
  validateUInt16 poly ;;;
  Ret (mulByte_val a b poly).

(** ** [isGenerator] *)

Definition fieldSize : Z := 255.

(** [n] is the number of turns of the loop still to run. *)
Fixpoint isGenerator_loop (n : nat) (seen : list Z) (x poly gen : Z)
  : outcome bool :=
  match n with
  | O => Ret (set_size seen =? fieldSize)
  | S n' =>
      if set_has seen x then Ret false
      else
        let seen := set_add seen x in
        x' <- mulByte x gen poly ;;
        isGenerator_loop n' seen x' poly gen
  end.

Definition isGenerator (poly gen : Z) : outcome bool :=
  validateUInt16 poly ;;;
  validateByte gen ;;;
  isGenerator_loop (Z.to_nat fieldSize) [] 1 poly gen.

(** ** The field and its constructor *)

Record t : Type := mk {
  exp : list Z;
  log : list Z;
  poly : Z;
  gen : Z
}.

(** First loop of the constructor; [i] is the loop counter and [k] the
    number of turns still to run. *)
Fixpoint fill_loop (k : nat) (i x : Z) (e l : list Z) (poly gen : Z)
  : outcome (list Z * list Z) :=
  match k with
  | O => Ret (e, l)
  | S k' =>
      let e := u8_set e i x in
      let l := u8_set l x i in
      x' <- mulByte x gen poly ;;
      fill_loop k' (i + 1) x' e l poly gen
  end.

(** Second loop: [exp[i + 255] = exp[i]]; a missing source entry would be
    stored as 0. *)
Fixpoint dup_loop (k : nat) (i : Z) (e : list Z) : list Z :=
  match k with
  | O => e
  | S k' =>
      let v := match u8_get e i with Some v => v | None => 0 end in
      dup_loop k' (i + 1) (u8_set e (i + 255) v)
  end.

Definition new (poly gen : Z) : outcome t :=
  validateUInt16 poly ;;;
  validateByte gen ;;;
  ok <- isGenerator poly gen ;;
  if negb ok then Throw InvalidGenerator
  else
    tabs <- fill_loop 255 0 1 (u8_new 512) (u8_new 256) poly gen ;;
    Ret {| exp := dup_loop 256 0 (fst tabs);
           log := snd tabs;
           poly := poly;
           gen := gen |}.

(** ** Field operations *)

Definition mul (F : t) (a b : Z) : outcome Z :=
  validateByte a ;;;
  validateByte b ;;;
  if (a =? 0) || (b =? 0) then Ret 0
  else
    la <- u8_read (log F) a ;;
    lb <- u8_read (log F) b ;;
    let logSum := la + lb in
    u8_read (exp F) logSum.

Definition div (F : t) (a b : Z) : outcome Z :=
  validateByte a ;;;
  validateByte b ;;;
  if b =? 0 then Throw DivisionByZero
  else if a =? 0 then Ret 0
  else
    la <- u8_read (log F) a ;;
    lb <- u8_read (log F) b ;;
    let logDiff := la - lb in
    let logDiff := if logDiff <? 0 then logDiff + 255 else logDiff in
    u8_read (exp F) logDiff.

Definition inv (F : t) (a : Z) : outcome Z :=
  validateByte a ;;;
  if a =? 0 then Throw NoInverseForZero
  else
    la <- u8_read (log F) a ;;
    u8_read (exp F) (255 - la).

Definition add (F : t) (a b : Z) : outcome Z :=
  validateByte a ;;;
  validateByte b ;;;
  Ret (Z.lxor a b).

Definition sub (F : t) (a b : Z) : outcome Z :=
  validateByte a ;;;
  validateByte b ;;;
  Ret (Z.lxor a b).

(** ** [evaluate] *)

(** The loop [for (i = degree - 1; i >= 0; i--)]: with [n] turns left the
    counter [i] is [n - 1]. *)
Fixpoint evaluate_loop (F : t) (coefficients : list Z) (x : Z) (n : nat)
  (result : Z) : outcome Z :=
  match n with
  | O => Ret result
  | S i =>
      r <- mul F result x ;;
      c <- u8_read coefficients (Z.of_nat i) ;;
      r <- add F r c ;;
      evaluate_loop F coefficients x i r
  end.

Definition evaluate (F : t) (coefficients : list Z) (x : Z) : outcome Z :=
  validateByte x ;;;
  if Z.of_nat (length coefficients) =? 0 then Throw EmptyPolynomial
  else if x =? 0 then Throw EvaluateAtZero
  else
    let degree := Z.of_nat (length coefficients) - 1 in
    result <- u8_read coefficients degree ;;
    evaluate_loop F coefficients x (Z.to_nat degree) result.

(** ** [interpolate] *)

(** Inner loop over [j]; [rest] holds [samples[j..]]. *)
Fixpoint interpolate_inner (F : t) (x : Z) (i : nat) (si : Point)
  (rest : list Point) (j : nat) (basis : Z) : outcome Z :=
  match rest with
  | [] => Ret basis
  | sj :: rest' =>
      if Nat.eqb i j then interpolate_inner F x i si rest' (S j) basis
      else
        num <- add F x (px sj) ;;
        den <- add F (px si) (px sj) ;;
        term <- div F num den ;;
        basis <- mul F basis term ;;
        interpolate_inner F x i si rest' (S j) basis
  end.

(** Outer loop over [i]; [rest] holds [samples[i..]]. *)
Fixpoint interpolate_outer (F : t) (samples : list Point) (x : Z)
  (rest : list Point) (i : nat) (result : Z) : outcome Z :=
  match rest with
  | [] => Ret result
  | si :: rest' =>
      basis <- interpolate_inner F x i si samples 0 1 ;;
      term <- mul F (py si) basis ;;
      result <- add F result term ;;
      interpolate_outer F samples x rest' (S i) result
  end.

Definition interpolate (F : t) (samples : list Point) (x : Z) : outcome Z :=
  validateByte x ;;;
  if Z.of_nat (length samples) =? 0 then Throw NoSamplePoint
  else interpolate_outer F samples x samples 0 0.

(** ** [addPolynomials] and [mulPolynomials] *)

(** An array element handed straight to a validated operation
    ([a[i]!] as an argument of [add] or [mul]): [undefined] is not an
    integer, so [validateByte] rejects it. *)
Definition u8_arg (arr : list Z) (i : Z) : outcome Z :=
  match u8_get arr i with
  | Some v => Ret v
  | None => Throw NotAByte
  end.

(** [result[i] = a[i]], for [k] turns from counter [i]; storing [undefined]
    would store 0. *)
Fixpoint copy_loop (k : nat) (i : Z) (a result : list Z) : list Z :=
  match k with
  | O => result
  | S k' =>
      let v := match u8_get a i with Some v => v | None => 0 end in
      copy_loop k' (i + 1) a (u8_set result i v)
  end.

(** [result[i] = this.add(result[i] || 0, b[i])]. *)
Fixpoint addPolynomials_loop (F : t) (k : nat) (i : Z) (b result : list Z)
  : outcome (list Z) :=
  match k with
  | O => Ret result
  | S k' =>
      let r := match u8_get result i with Some v => v | None => 0 end in
      bi <- u8_arg b i ;;
      s <- add F r bi ;;
      addPolynomials_loop F k' (i + 1) b (u8_set result i s)
  end.

Definition addPolynomials (F : t) (a b : list Z) : outcome (list Z) :=
  let result := u8_new (Nat.max (length a) (length b)) in
  let result := copy_loop (length a) 0 a result in
  addPolynomials_loop F (length b) 0 b result.




(** ** [findAllGenerators] *)

(** The loop over the candidates; [generators.push(i)] appends. *)
Fixpoint findAllGenerators_loop (k : nat) (i : Z) (poly : Z)
  (generators : list Z) : outcome (list Z) :=
  match k with
  | O => Ret generators
  | S k' =>
      ok <- isGenerator poly i ;;
      let generators := if ok then generators ++ [i] else generators in
      findAllGenerators_loop k' (i + 1) poly generators
  end.

(** The loop runs for [i = 2, ..., 254]: 253 turns. *)
Definition findAllGenerators (poly : Z) : outcome (list Z) :=
  validateUInt16 poly ;;;
  findAllGenerators_loop 253 2 poly [].

(** ** [makePolynomial] *)

(** [makePolynomial] has an error of its own, "degree must be
    non-negative". *)
Inductive made : Type :=
| Made (coefficients : list Z)
| MadeThrow (e : error)
| MadeThrowNegativeDegree.

(** [coefficients[i + 1] = randomCoefficients[i]]. *)
Fixpoint makePolynomial_loop (k : nat) (i : Z)
  (randomCoefficients coefficients : list Z) : list Z :=
  match k with
  | O => coefficients
  | S k' =>
      let v := match u8_get randomCoefficients i with
               | Some v => v
               | None => 0
               end in
      makePolynomial_loop k' (i + 1) randomCoefficients
        (u8_set coefficients (i + 1) v)
  end.

(** [randomBytes] is the external source of random bytes: the bytes it
    hands back for a request of the given size. *)
Definition makePolynomial (randomBytes : Z -> list Z) (intercept degree : Z)
  : made :=
  match validateByte intercept with
  | Throw e => MadeThrow e
  | _ =>
      if degree <? 0 then MadeThrowNegativeDegree
      else
        let coefficients := u8_new (Z.to_nat (degree + 1)) in
        let coefficients := u8_set coefficients 0 intercept in
        let randomCoefficients := randomBytes degree in
        Made (makePolynomial_loop (Z.to_nat degree) 0
                randomCoefficients coefficients)
  end.

End GF256.

(** The field of the AES constants, [new GF256(0x11b, 0x03)]. *)
Definition aes_field : GF256.t :=
  Eval vm_compute in
    match GF256.new 283 3 with
    | Ret F => F
    | _ => GF256.mk [] [] 0 0
    end.

(** * Bytes and bitwise facts *)

Definition byte (z : Z) : Prop := 0 <= z <= 255.

Lemma byte_dec (z : Z) : {byte z} + {~ byte z}.
Proof.
  unfold byte.
  destruct (Z_le_dec 0 z); destruct (Z_le_dec z 255);
    (left; lia) || (right; lia).
Defined.

Lemma validateByte_ok (n : Z) : byte n -> GF256.validateByte n = Ret tt.
Proof.
  unfold byte, GF256.validateByte. intros H.
  destruct (n <? 0) eqn:E1; [apply Z.ltb_lt in E1; lia|].
  destruct (n >? 255) eqn:E2; [|reflexivity].
  apply Z.gtb_lt in E2. lia.
Qed.

Lemma validateByte_bad (n : Z) :
  ~ byte n -> GF256.validateByte n = Throw NotAByte.
Proof.
  unfold byte, GF256.validateByte. intros H.
  destruct (n <? 0) eqn:E1; [reflexivity|].
  destruct (n >? 255) eqn:E2; [reflexivity|].
  apply Z.ltb_ge in E1. rewrite Z.gtb_ltb in E2. apply Z.ltb_ge in E2. lia.
Qed.

Lemma validateUInt16_ok (n : Z) :
  0 <= n <= 65535 -> GF256.validateUInt16 n = Ret tt.
Proof.
  unfold GF256.validateUInt16. intros H.
  destruct (n <? 0) eqn:E1; [apply Z.ltb_lt in E1; lia|].
  destruct (n >? 65535) eqn:E2; [|reflexivity].
  apply Z.gtb_lt in E2. lia.
Qed.

Lemma lxor_bound (n a b : Z) :
  0 <= n -> 0 <= a < 2 ^ n -> 0 <= b < 2 ^ n -> 0 <= Z.lxor a b < 2 ^ n.
Proof.
  intros Hn Ha Hb.
  assert (H0 : 0 <= Z.lxor a b) by (apply Z.lxor_nonneg; lia).
  split; [exact H0|].
  destruct (Z.eq_dec (Z.lxor a b) 0) as [E|E]; [rewrite E; lia|].
  apply Z.log2_lt_pow2; [lia|].
  pose proof (Z.log2_lxor a b (proj1 Ha) (proj1 Hb)) as Hl.
  assert (Z.log2 a < n).
  { destruct (Z.eq_dec a 0) as [->|Na].
    - destruct (Z.eq_dec n 0) as [->|]; [|simpl; lia].
      assert (b = 0) by (simpl in Hb; lia). subst b. simpl in E. lia.
    - apply Z.log2_lt_pow2; lia. }
  assert (Z.log2 b < n).
  { destruct (Z.eq_dec b 0) as [->|Nb].
    - destruct (Z.eq_dec n 0) as [->|]; [|simpl; lia].
      assert (a = 0) by (simpl in Ha; lia). subst a. simpl in E. lia.
    - apply Z.log2_lt_pow2; lia. }
  lia.
Qed.

Lemma byte_lxor (a b : Z) : byte a -> byte b -> byte (Z.lxor a b).
Proof.
  unfold byte. intros Ha Hb.
  pose proof (lxor_bound 8 a b) as H. change (2 ^ 8) with 256 in H. lia.
Qed.

Lemma land_255_mod (a : Z) : Z.land a 255 = a mod 256.
Proof. change 255 with (Z.ones 8). rewrite Z.land_ones by lia. reflexivity. Qed.

Lemma byte_land_255 (a : Z) : byte (Z.land a 255).
Proof.
  unfold byte. rewrite land_255_mod.
  pose proof (Z.mod_pos_bound a 256). lia.
Qed.

Lemma land_255_byte (a : Z) : byte a -> Z.land a 255 = a.
Proof.
  unfold byte. intros H. rewrite land_255_mod. apply Z.mod_small. lia.
Qed.

Lemma lxor_cancel_l (a b c : Z) : Z.lxor a b = Z.lxor a c -> b = c.
Proof.
  intros H.
  assert (E : Z.lxor a (Z.lxor a b) = Z.lxor a (Z.lxor a c)) by (f_equal; exact H).
  rewrite <- !Z.lxor_assoc, !Z.lxor_nilpotent, !Z.lxor_0_l in E. exact E.
Qed.

Lemma lxor_eq_0 (a b : Z) : Z.lxor a b = 0 -> a = b.
Proof. apply Z.lxor_eq. Qed.

Lemma land_lxor_distr (a b c : Z) :
  Z.land (Z.lxor a b) c = Z.lxor (Z.land a c) (Z.land b c).
Proof.
  apply Z.bits_inj'. intros n Hn.
  rewrite ?Z.land_spec, ?Z.lxor_spec, ?Z.land_spec.
  destruct (Z.testbit a n), (Z.testbit b n), (Z.testbit c n); reflexivity.
Qed.

Lemma land_bit (a k : Z) :
  0 <= k -> Z.land a (2 ^ k) = if Z.testbit a k then 2 ^ k else 0.
Proof.
  intros Hk. apply Z.bits_inj'. intros n Hn.
  rewrite Z.land_spec, Z.pow2_bits_eqb by lia.
  destruct (Z.eqb_spec k n) as [->|Ne].
  - destruct (Z.testbit a n); rewrite ?Z.pow2_bits_true, ?Z.bits_0 by lia;
      reflexivity.
  - rewrite andb_false_r.
    destruct (Z.testbit a k); rewrite ?Z.pow2_bits_false, ?Z.bits_0 by lia;
      reflexivity.
Qed.

(** * The carry-less product computed by [mulByte] *)

Section MulByte.

Variable poly : Z.

(** What one turn of the loop does to [a]. *)
Definition xtime (a : Z) : Z :=
  Z.lxor (Z.shiftl a 1) (if Z.testbit a 7 then Z.land poly 255 else 0).

(** What [n] turns of the loop add to [res]. *)
Fixpoint partial (n : nat) (a b : Z) : Z :=
  match n with
  | O => 0
  | S n' =>
      Z.lxor (if Z.testbit b 0 then a else 0)
             (partial n' (xtime a) (Z.shiftr b 1))
  end.

Lemma land_1_testbit (b : Z) :
  negb (Z.land b 1 =? 0) = Z.testbit b 0.
Proof.
  change 1 with (2 ^ 0) at 1. rewrite land_bit by lia.
  destruct (Z.testbit b 0); reflexivity.
Qed.

Lemma land_128_testbit (a : Z) :
  negb (Z.land a 128 =? 0) = Z.testbit a 7.
Proof.
  change 128 with (2 ^ 7). rewrite land_bit by lia.
  destruct (Z.testbit a 7); reflexivity.
Qed.

Lemma mulByte_step_eq (a b res : Z) :
  GF256.mulByte_step poly (a, b, res) =
  (xtime a, Z.shiftr b 1, Z.lxor res (if Z.testbit b 0 then a else 0)).
Proof.
  unfold GF256.mulByte_step, xtime.
  rewrite land_1_testbit, land_128_testbit.
  destruct (Z.testbit b 0), (Z.testbit a 7);
    rewrite ?Z.lxor_0_r; reflexivity.
Qed.

Lemma mulByte_loop_res (n : nat) (a b res : Z) :
  snd (GF256.mulByte_loop n poly (a, b, res)) = Z.lxor res (partial n a b).
Proof.
  revert a b res. induction n as [|n IH]; intros a b res.
  - simpl. rewrite Z.lxor_0_r. reflexivity.
  - cbn [GF256.mulByte_loop partial]. rewrite mulByte_step_eq, IH.
    rewrite Z.lxor_assoc. reflexivity.
Qed.

Lemma mulByte_val_eq (a b : Z) :
  GF256.mulByte_val a b poly = Z.land (partial 8 a b) 255.
Proof.
  unfold GF256.mulByte_val. rewrite mulByte_loop_res, Z.lxor_0_l. reflexivity.
Qed.

Lemma byte_mulByte_val (a b : Z) : byte (GF256.mulByte_val a b poly).
Proof. rewrite mulByte_val_eq. apply byte_land_255. Qed.

Lemma mulByte_ok (a b : Z) :
  byte a -> byte b -> 0 <= poly <= 65535 ->
  GF256.mulByte a b poly = Ret (GF256.mulByte_val a b poly).
Proof.
  intros Ha Hb Hp. unfold GF256.mulByte.
  rewrite (validateByte_ok a Ha), (validateByte_ok b Hb),
    (validateUInt16_ok poly Hp).
  reflexivity.
Qed.

(** ** Additivity in each argument *)

Lemma if_xorb (c d : bool) (v : Z) :
  (if xorb c d then v else 0) =
  Z.lxor (if c then v else 0) (if d then v else 0).
Proof.
  destruct c, d; simpl;
    rewrite ?Z.lxor_0_r, ?Z.lxor_0_l, ?Z.lxor_nilpotent; reflexivity.
Qed.

Lemma lxor_swap4 (a b c d : Z) :
  Z.lxor (Z.lxor a b) (Z.lxor c d) = Z.lxor (Z.lxor a c) (Z.lxor b d).
Proof.
  rewrite !Z.lxor_assoc. f_equal.
  rewrite <- !Z.lxor_assoc. f_equal. apply Z.lxor_comm.
Qed.

Lemma xtime_lxor (a a' : Z) :
  xtime (Z.lxor a a') = Z.lxor (xtime a) (xtime a').
Proof.
  unfold xtime. rewrite Z.shiftl_lxor, Z.lxor_spec, if_xorb.
  apply lxor_swap4.
Qed.

Lemma xtime_0 : xtime 0 = 0.
Proof. reflexivity. Qed.

Lemma partial_0_l (n : nat) (b : Z) : partial n 0 b = 0.
Proof.
  revert b. induction n as [|n IH]; intros b; [reflexivity|].
  cbn [partial]. rewrite xtime_0, IH. destruct (Z.testbit b 0); reflexivity.
Qed.

Lemma partial_0_r (n : nat) (a : Z) : partial n a 0 = 0.
Proof.
  revert a. induction n as [|n IH]; intros a; [reflexivity|].
  cbn [partial]. rewrite Z.shiftr_0_l, IH. reflexivity.
Qed.

Lemma partial_lxor_l (n : nat) (a a' b : Z) :
  partial n (Z.lxor a a') b = Z.lxor (partial n a b) (partial n a' b).
Proof.
  revert a a' b. induction n as [|n IH]; intros a a' b; [reflexivity|].
  cbn [partial]. rewrite xtime_lxor, IH.
  destruct (Z.testbit b 0); rewrite ?Z.lxor_0_l; [apply lxor_swap4|reflexivity].
Qed.

Lemma partial_lxor_r (n : nat) (a b b' : Z) :
  partial n a (Z.lxor b b') = Z.lxor (partial n a b) (partial n a b').
Proof.
  revert a b b'. induction n as [|n IH]; intros a b b'; [reflexivity|].
  cbn [partial]. rewrite Z.shiftr_lxor, IH, Z.lxor_spec, if_xorb.
  apply lxor_swap4.
Qed.

Lemma mulByte_val_lxor_l (a a' b : Z) :
  GF256.mulByte_val (Z.lxor a a') b poly =
  Z.lxor (GF256.mulByte_val a b poly) (GF256.mulByte_val a' b poly).
Proof.
  rewrite !mulByte_val_eq, partial_lxor_l. apply land_lxor_distr.
Qed.

Lemma mulByte_val_lxor_r (a b b' : Z) :
  GF256.mulByte_val a (Z.lxor b b') poly =
  Z.lxor (GF256.mulByte_val a b poly) (GF256.mulByte_val a b' poly).
Proof.
  rewrite !mulByte_val_eq, partial_lxor_r. apply land_lxor_distr.
Qed.

Lemma mulByte_val_0_l (b : Z) : GF256.mulByte_val 0 b poly = 0.
Proof. rewrite mulByte_val_eq, partial_0_l. reflexivity. Qed.

Lemma mulByte_val_0_r (a : Z) : GF256.mulByte_val a 0 poly = 0.
Proof. rewrite mulByte_val_eq, partial_0_r. reflexivity. Qed.

Lemma partial_S (n : nat) (a b : Z) :
  partial (S n) a b =
  Z.lxor (if Z.testbit b 0 then a else 0)
         (partial n (xtime a) (Z.shiftr b 1)).
Proof. reflexivity. Qed.

Lemma partial_1_r (n : nat) (a : Z) : partial (S n) a 1 = a.
Proof.
  cbn [partial]. change (Z.testbit 1 0) with true.
  change (Z.shiftr 1 1) with 0.
  rewrite partial_0_r, Z.lxor_0_r. reflexivity.
Qed.

Lemma mulByte_val_1_r (a : Z) : byte a -> GF256.mulByte_val a 1 poly = a.
Proof.
  intros Ha. rewrite mulByte_val_eq, partial_1_r. apply land_255_byte, Ha.
Qed.

(** ** No 32-bit wrap-around *)

Lemma xtime_bound (m a : Z) :
  8 <= m -> 0 <= a < 2 ^ m -> 0 <= xtime a < 2 ^ (m + 1).
Proof.
  intros Hm Ha. unfold xtime. apply lxor_bound; [lia| |].
  - rewrite Z.shiftl_mul_pow2 by lia. change (2 ^ 1) with 2.
    rewrite Z.pow_add_r by lia. change (2 ^ 1) with 2. lia.
  - assert (H256 : 2 ^ 8 <= 2 ^ (m + 1)) by (apply Z.pow_le_mono_r; lia).
    change (2 ^ 8) with 256 in H256.
    destruct (Z.testbit a 7); [|lia].
    pose proof (byte_land_255 poly) as Hb. unfold byte in Hb. lia.
Qed.

Lemma mulByte_loop_bound (n : nat) :
  forall m a b res,
    8 <= m -> 0 <= a < 2 ^ m -> 0 <= b -> 0 <= res < 2 ^ m ->
    let '(a', b', res') := GF256.mulByte_loop n poly (a, b, res) in
    0 <= a' < 2 ^ (m + Z.of_nat n) /\ 0 <= b' <= b /\
    0 <= res' < 2 ^ (m + Z.of_nat n).
Proof.
  induction n as [|n IH]; intros m a b res Hm Ha Hb Hr.
  - cbn [GF256.mulByte_loop]. rewrite Z.add_0_r. lia.
  - cbn [GF256.mulByte_loop]. rewrite mulByte_step_eq.
    assert (Hpow : 2 ^ m < 2 ^ (m + 1)) by (apply Z.pow_lt_mono_r; lia).
    assert (Hb' : 0 <= Z.shiftr b 1 <= b).
    { rewrite Z.shiftr_div_pow2 by lia. change (2 ^ 1) with 2.
      split; [apply Z.div_pos; lia|].
      apply Z.div_le_upper_bound; lia. }
    assert (Hr' : 0 <= Z.lxor res (if Z.testbit b 0 then a else 0)
                  < 2 ^ (m + 1)).
    { apply lxor_bound; [lia|lia|]. destruct (Z.testbit b 0); lia. }
    pose proof (IH (m + 1) (xtime a) (Z.shiftr b 1)
                  (Z.lxor res (if Z.testbit b 0 then a else 0))
                  ltac:(lia) (xtime_bound m a Hm Ha) (proj1 Hb') Hr') as G.
    destruct (GF256.mulByte_loop n poly
                (xtime a, Z.shiftr b 1,
                 Z.lxor res (if Z.testbit b 0 then a else 0)))
      as [[a' b'] r'].
    replace (m + Z.of_nat (S n)) with (m + 1 + Z.of_nat n) by lia. lia.
Qed.

(** On bytes every intermediate value of [mulByte] stays below 2^16, far
    from the 32-bit range of the bit operators. *)
Lemma mulByte_loop_small (n : nat) (a b : Z) :
  (n <= 8)%nat -> byte a -> byte b ->
  let '(a', b', res') := GF256.mulByte_loop n poly (a, b, 0) in
  0 <= a' < 65536 /\ 0 <= b' < 256 /\ 0 <= res' < 65536.
Proof.
  intros Hn Ha Hb. unfold byte in *.
  pose proof (mulByte_loop_bound n 8 a b 0 ltac:(lia)) as G.
  change (2 ^ 8) with 256 in G.
  specialize (G ltac:(lia) ltac:(lia) ltac:(lia)).
  destruct (GF256.mulByte_loop n poly (a, b, 0)) as [[a' b'] r'].
  assert (H16 : 2 ^ (8 + Z.of_nat n) <= 2 ^ 16)
    by (apply Z.pow_le_mono_r; lia).
  change (2 ^ 16) with 65536 in H16. lia.
Qed.

End MulByte.

(** ** [mulByte] is a commutative, associative product on bytes *)

Section MulByteRing.

Variable poly : Z.

Local Notation "a ** b" := (GF256.mulByte_val a b poly)
  (at level 40, left associativity).

(** Multiplication by the byte 2 (the polynomial X). *)
Definition xt (a : Z) : Z := a ** 2.

Lemma partial_double (n : nat) (a b : Z) :
  partial poly (S n) a (2 * b) = partial poly n (xtime poly a) b.
Proof.
  cbn [partial]. rewrite Z.testbit_even_0, Z.lxor_0_l.
  rewrite Z.shiftr_div_pow2 by lia. change (2 ^ 1) with 2.
  rewrite Z.mul_comm, Z.div_mul by lia. reflexivity.
Qed.

Lemma partial_small (n : nat) (a b : Z) :
  0 <= b < 2 ^ Z.of_nat n ->
  partial poly (S n) a b = partial poly n a b.
Proof.
  revert a b. induction n as [|n IH]; intros a b Hb.
  - assert (b = 0) by (simpl in Hb; lia). subst b. apply partial_0_r.
  - rewrite (partial_S poly (S n) a b), (partial_S poly n a b). f_equal.
    apply IH.
    + rewrite Z.shiftr_div_pow2 by lia. change (2 ^ 1) with 2.
      rewrite Nat2Z.inj_succ, Z.pow_succ_r in Hb by lia.
      split; [apply Z.div_pos; lia|].
      apply Z.div_lt_upper_bound; lia.
Qed.

Lemma testbit_land_255 (a n : Z) :
  Z.testbit (Z.land a 255) n = Z.testbit a n && (n <? 8).
Proof.
  destruct (Z_lt_dec n 0) as [Hneg|Hpos].
  - rewrite !Z.testbit_neg_r by lia. reflexivity.
  - rewrite Z.land_spec. change 255 with (Z.ones 8).
    rewrite Z.testbit_ones_nonneg by lia. reflexivity.
Qed.

Lemma xtime_low (a : Z) :
  Z.land (xtime poly a) 255 = Z.land (xtime poly (Z.land a 255)) 255.
Proof.
  apply Z.bits_inj'. intros n Hn.
  rewrite !testbit_land_255.
  destruct (Z.ltb_spec n 8) as [Hlt|Hge]; [|rewrite !andb_false_r; reflexivity].
  rewrite !andb_true_r. unfold xtime.
  rewrite !Z.lxor_spec, !Z.shiftl_spec by lia.
  rewrite !testbit_land_255.
  change (7 <? 8) with true. rewrite andb_true_r. f_equal.
  replace (n - 1 <? 8) with true by (symmetry; apply Z.ltb_lt; lia).
  rewrite andb_true_r. reflexivity.
Qed.

Lemma partial_low (n : nat) (a b : Z) :
  Z.land (partial poly n a b) 255 =
  Z.land (partial poly n (Z.land a 255) b) 255.
Proof.
  revert a b. induction n as [|n IH]; intros a b; [reflexivity|].
  cbn [partial]. rewrite !land_lxor_distr. f_equal.
  - destruct (Z.testbit b 0); [|reflexivity].
    rewrite <- Z.land_assoc, Z.land_diag. reflexivity.
  - rewrite (IH (xtime poly a)), (IH (xtime poly (Z.land a 255))).
    rewrite xtime_low. reflexivity.
Qed.

Lemma mulByte_val_2 (a : Z) : xt a = Z.land (xtime poly a) 255.
Proof.
  unfold xt. rewrite mulByte_val_eq.
  change 2 with (2 * 1) at 1. rewrite partial_double, partial_1_r.
  reflexivity.
Qed.

Lemma mulByte_val_double (a b : Z) :
  0 <= b < 128 -> a ** (2 * b) = xt a ** b.
Proof.
  intros Hb. rewrite mulByte_val_2, !mulByte_val_eq, partial_double.
  rewrite <- (partial_small 7) by (change (2 ^ Z.of_nat 7) with 128; lia).
  rewrite <- partial_low. reflexivity.
Qed.

Lemma iter_succ_in {A : Type} (f : A -> A) (n : nat) (x : A) :
  Nat.iter n f (f x) = Nat.iter (S n) f x.
Proof. symmetry. apply Nat.iter_succ_r. Qed.

Lemma byte_iter_xt (n : nat) (a : Z) : byte a -> byte (Nat.iter n xt a).
Proof.
  intros Ha. destruct n as [|n]; [exact Ha|].
  simpl. unfold xt at 1. apply byte_mulByte_val.
Qed.

Lemma mulByte_val_pow2 (k : nat) (a : Z) :
  (k < 8)%nat -> byte a -> a ** (2 ^ Z.of_nat k) = Nat.iter k xt a.
Proof.
  revert a. induction k as [|k IH]; intros a Hk Ha.
  - simpl. apply mulByte_val_1_r, Ha.
  - rewrite Nat2Z.inj_succ, Z.pow_succ_r by lia.
    rewrite mulByte_val_double.
    + rewrite IH by (try lia; unfold xt; apply byte_mulByte_val).
      apply (iter_succ_in xt).
    + split; [apply Z.pow_nonneg; lia|].
      change 128 with (2 ^ 7). apply Z.pow_lt_mono_r; lia.
Qed.

Lemma xt_pow2 (i : nat) :
  (i < 7)%nat -> xt (2 ^ Z.of_nat i) = 2 ^ Z.of_nat (S i).
Proof.
  intros Hi. rewrite mulByte_val_2. unfold xtime.
  rewrite Z.pow2_bits_false by lia.
  rewrite Z.lxor_0_r, Z.shiftl_mul_pow2 by lia.
  rewrite Nat2Z.inj_succ, Z.pow_succ_r, (Z.mul_comm 2) by lia.
  change (2 ^ 1) with 2. apply land_255_byte. unfold byte.
  assert (0 < 2 ^ Z.of_nat i) by (apply Z.pow_pos_nonneg; lia).
  assert (2 ^ Z.of_nat i <= 2 ^ 6) by (apply Z.pow_le_mono_r; lia).
  change (2 ^ 6) with 64 in *. lia.
Qed.

Lemma pow2_iter_xt (i : nat) :
  (i < 8)%nat -> 2 ^ Z.of_nat i = Nat.iter i xt 1.
Proof.
  induction i as [|i IH]; intros Hi; [reflexivity|].
  rewrite <- xt_pow2 by lia. rewrite IH by lia. reflexivity.
Qed.

Lemma byte_pow2 (i : nat) : (i < 8)%nat -> byte (2 ^ Z.of_nat i).
Proof.
  intros Hi. unfold byte.
  assert (0 < 2 ^ Z.of_nat i) by (apply Z.pow_pos_nonneg; lia).
  assert (2 ^ Z.of_nat i <= 2 ^ 7) by (apply Z.pow_le_mono_r; lia).
  change (2 ^ 7) with 128 in *. lia.
Qed.

(** On powers of two the product is a power of [xt]. *)
Lemma mulByte_val_basis (i j : nat) :
  (i < 8)%nat -> (j < 8)%nat ->
  2 ^ Z.of_nat i ** 2 ^ Z.of_nat j = Nat.iter (j + i) xt 1.
Proof.
  intros Hi Hj. rewrite mulByte_val_pow2 by (try lia; apply byte_pow2; lia).
  rewrite (pow2_iter_xt i Hi), Nat.iter_add. reflexivity.
Qed.

(** Every byte is an exclusive or of powers of two. *)
Lemma byte_ind_pow2 (P : Z -> Prop) :
  P 0 ->
  (forall i : nat, (i < 8)%nat -> P (2 ^ Z.of_nat i)) ->
  (forall a b, byte a -> byte b -> P a -> P b -> P (Z.lxor a b)) ->
  forall a, byte a -> P a.
Proof.
  intros P0 Pp Px.
  assert (H : forall n : nat, (n <= 8)%nat ->
            forall a, 0 <= a < 2 ^ Z.of_nat n -> P a).
  { induction n as [|n IH]; intros Hn a Ha.
    - assert (a = 0) by (simpl in Ha; lia). subst a. exact P0.
    - rewrite Nat2Z.inj_succ, Z.pow_succ_r in Ha by lia.
      destruct (Z_lt_dec a (2 ^ Z.of_nat n)) as [Hlt|Hge];
        [apply IH; lia|].
      set (r := a - 2 ^ Z.of_nat n).
      assert (Hr : 0 <= r < 2 ^ Z.of_nat n) by (unfold r; lia).
      assert (Hle : 2 ^ Z.of_nat n <= 2 ^ 7) by (apply Z.pow_le_mono_r; lia).
      change (2 ^ 7) with 128 in Hle.
      assert (E : a = Z.lxor (2 ^ Z.of_nat n) r).
      { rewrite <- Z.add_nocarry_lxor; [unfold r; lia|].
        rewrite Z.land_comm, land_bit by lia.
        replace (Z.testbit r (Z.of_nat n)) with false; [reflexivity|].
        symmetry. apply Z.testbit_false; [lia|].
        rewrite Z.div_small by lia. reflexivity. }
      rewrite E. apply Px.
      + apply byte_pow2. lia.
      + unfold byte. lia.
      + apply Pp. lia.
      + apply IH; lia. }
  intros a Ha. apply (H 8%nat); [lia|]. unfold byte in Ha.
  change (2 ^ Z.of_nat 8) with 256. lia.
Qed.

Lemma mulByte_val_comm (a b : Z) : byte a -> byte b -> a ** b = b ** a.
Proof.
  intros Ha Hb. revert a Ha b Hb.
  apply (byte_ind_pow2 (fun a => forall b, byte b ->
    GF256.mulByte_val a b poly = GF256.mulByte_val b a poly)).
  - intros b _. rewrite mulByte_val_0_l, mulByte_val_0_r. reflexivity.
  - intros i Hi.
    apply (byte_ind_pow2 (fun b =>
      GF256.mulByte_val (2 ^ Z.of_nat i) b poly =
      GF256.mulByte_val b (2 ^ Z.of_nat i) poly)).
    + rewrite mulByte_val_0_l, mulByte_val_0_r. reflexivity.
    + intros j Hj.
      pose proof (mulByte_val_basis i j Hi Hj) as E1.
      pose proof (mulByte_val_basis j i Hj Hi) as E2.
      rewrite E1, E2, Nat.add_comm. reflexivity.
    + intros b b' _ _ E E'.
      rewrite mulByte_val_lxor_l, mulByte_val_lxor_r, E, E'. reflexivity.
  - intros a a' _ _ E E' b Hb.
    rewrite mulByte_val_lxor_l, mulByte_val_lxor_r, E, E' by exact Hb.
    reflexivity.
Qed.

Lemma mulByte_val_iter_pow2 (n k : nat) :
  (k < 8)%nat -> Nat.iter n xt 1 ** 2 ^ Z.of_nat k = Nat.iter (k + n) xt 1.
Proof.
  intros Hk.
  rewrite mulByte_val_pow2 by (try lia; apply byte_iter_xt; unfold byte; lia).
  rewrite Nat.iter_add. reflexivity.
Qed.

Lemma mulByte_val_assoc (a b c : Z) :
  byte a -> byte b -> byte c -> (a ** b) ** c = a ** (b ** c).
Proof.
  intros Ha Hb Hc. revert a Ha b Hb c Hc.
  apply (byte_ind_pow2 (fun a => forall b, byte b -> forall c, byte c ->
    GF256.mulByte_val (GF256.mulByte_val a b poly) c poly =
    GF256.mulByte_val a (GF256.mulByte_val b c poly) poly)).
  - intros b _ c _. rewrite !mulByte_val_0_l. reflexivity.
  - intros i Hi.
    apply (byte_ind_pow2 (fun b => forall c, byte c ->
      GF256.mulByte_val (GF256.mulByte_val (2 ^ Z.of_nat i) b poly) c poly =
      GF256.mulByte_val (2 ^ Z.of_nat i) (GF256.mulByte_val b c poly) poly)).
    + intros c _.
      repeat (rewrite mulByte_val_0_l || rewrite mulByte_val_0_r).
      reflexivity.
    + intros j Hj.
      apply (byte_ind_pow2 (fun c =>
        GF256.mulByte_val
          (GF256.mulByte_val (2 ^ Z.of_nat i) (2 ^ Z.of_nat j) poly) c poly =
        GF256.mulByte_val (2 ^ Z.of_nat i)
          (GF256.mulByte_val (2 ^ Z.of_nat j) c poly) poly)).
      * rewrite !mulByte_val_0_r. reflexivity.
      * intros k Hk.
        pose proof (mulByte_val_basis i j Hi Hj) as E1.
        pose proof (mulByte_val_basis j k Hj Hk) as E2.
        rewrite E1, E2.
        pose proof (mulByte_val_iter_pow2 (j + i) k Hk) as E3.
        pose proof (mulByte_val_iter_pow2 (k + j) i Hi) as E4.
        rewrite E3.
        rewrite (mulByte_val_comm (2 ^ Z.of_nat i))
          by (apply byte_pow2 || (apply byte_iter_xt; unfold byte); lia).
        rewrite E4. f_equal. lia.
      * intros c c' _ _ E E'.
        rewrite !mulByte_val_lxor_r, E, E'. reflexivity.
    + intros b b' _ _ E E' c Hc.
      repeat (rewrite mulByte_val_lxor_l || rewrite mulByte_val_lxor_r).
      rewrite E, E' by exact Hc. reflexivity.
  - intros a a' _ _ E E' b Hb c Hc.
    rewrite !mulByte_val_lxor_l, E, E' by assumption. reflexivity.
Qed.

End MulByteRing.

(** * Powers of a candidate generator *)

(** [x = mulByte(x, gen, poly)], as a value. *)
Definition next (poly gen x : Z) : Z := GF256.mulByte_val x gen poly.

(** [gen] to the power [n], by repeated [mulByte] starting from 1. *)
Definition power (poly gen : Z) (n : nat) : Z := Nat.iter n (next poly gen) 1.

(** The list [1, gen, gen^2, ..., gen^(n-1)]. *)
Definition powers (poly gen : Z) (n : nat) : list Z :=
  map (power poly gen) (seq 0 n).

(** The values [x] takes in [n] turns of a loop that starts at [x]. *)
Fixpoint iterates (poly gen : Z) (n : nat) (x : Z) : list Z :=
  match n with
  | O => []
  | S n' => x :: iterates poly gen n' (next poly gen x)
  end.

Lemma set_has_In (s : list Z) (x : Z) : set_has s x = true <-> In x s.
Proof.
  unfold set_has. rewrite existsb_exists. split.
  - intros [y [Hy E]]. apply Z.eqb_eq in E. subst y. exact Hy.
  - intros H. exists x. split; [exact H|apply Z.eqb_refl].
Qed.

Lemma set_has_false (s : list Z) (x : Z) : set_has s x = false <-> ~ In x s.
Proof.
  rewrite <- set_has_In. destruct (set_has s x); split; intros H;
    congruence || (exfalso; apply H; reflexivity) || (intros C; discriminate).
Qed.

Lemma NoDup_map_seq {A : Type} (f : nat -> A) (n : nat) :
  NoDup (map f (seq 0 n)) <->
  (forall i j : nat, (i < n)%nat -> (j < n)%nat -> f i = f j -> i = j).
Proof.
  split.
  - intros ND i j Hi Hj E.
    apply (proj1 (NoDup_nth (map f (seq 0 n)) (f 0%nat)) ND);
      rewrite ?length_map, ?length_seq; try assumption.
    rewrite !(map_nth f), !seq_nth by assumption. exact E.
  - intros Inj. apply (NoDup_nth _ (f 0%nat)). intros i j Hi Hj E.
    rewrite length_map, length_seq in Hi, Hj.
    rewrite !(map_nth f), !seq_nth in E by assumption.
    apply Inj; assumption.
Qed.

Section Orbit.

Variables poly gen : Z.
Hypothesis poly_range : 0 <= poly <= 65535.
Hypothesis gen_range : byte gen.

Local Abbreviation nx := (next poly gen).
Local Abbreviation pw := (power poly gen).

Lemma byte_next (x : Z) : byte (nx x).
Proof. apply byte_mulByte_val. Qed.

Lemma byte_power (n : nat) : byte (pw n).
Proof.
  destruct n as [|n]; [unfold byte; simpl; lia|].
  unfold power. simpl. apply byte_next.
Qed.

Lemma power_S (n : nat) : pw (S n) = nx (pw n).
Proof. reflexivity. Qed.

Lemma iterates_power (n k : nat) :
  iterates poly gen n (pw k) = map pw (seq k n).
Proof.
  revert k. induction n as [|n IH]; intros k; [reflexivity|].
  simpl. f_equal. rewrite <- power_S. apply IH.
Qed.

Lemma iterates_powers (n : nat) : iterates poly gen n 1 = powers poly gen n.
Proof. apply (iterates_power n 0). Qed.

Lemma Forall_byte_powers (n : nat) : Forall byte (powers poly gen n).
Proof.
  unfold powers. apply Forall_forall. intros x Hx.
  apply in_map_iff in Hx. destruct Hx as [k [<- _]]. apply byte_power.
Qed.

(** The loop of [isGenerator] answers whether the values still to come are
    new and pairwise distinct. *)
Lemma isGenerator_loop_spec (n : nat) (seen : list Z) (x : Z) :
  byte x -> NoDup seen -> (length seen + n = 255)%nat ->
  exists b : bool,
    GF256.isGenerator_loop n seen x poly gen = Ret b /\
    (b = true <-> NoDup (iterates poly gen n x ++ seen)).
Proof.
  revert seen x. induction n as [|n IH]; intros seen x Hx ND Hlen.
  - exists true. split.
    + simpl. unfold set_size, GF256.fieldSize.
      replace (length seen) with 255%nat by lia. reflexivity.
    + simpl. tauto.
  - cbn [GF256.isGenerator_loop iterates].
    destruct (set_has seen x) eqn:Hhas.
    + exists false. split; [reflexivity|]. split; [discriminate|].
      intros H. exfalso. apply set_has_In in Hhas.
      simpl in H. inversion H as [|y l Hnin _]; subst.
      apply Hnin, in_or_app. right. exact Hhas.
    + unfold set_add. rewrite Hhas.
      rewrite (mulByte_ok poly x gen Hx gen_range poly_range). cbn [bind].
      apply set_has_false in Hhas.
      destruct (IH (x :: seen) (nx x)) as [b [Eb Hb]].
      * apply byte_next.
      * constructor; assumption.
      * simpl. lia.
      * exists b. split; [exact Eb|]. rewrite Hb. simpl.
        split; apply Permutation_NoDup;
          [symmetry|]; apply Permutation_middle.
Qed.

(** [isGenerator] returns, and returns [true] exactly when the 255 powers
    are pairwise distinct. *)
Lemma isGenerator_spec :
  exists b : bool,
    GF256.isGenerator poly gen = Ret b /\
    (b = true <-> NoDup (powers poly gen 255)).
Proof.
  unfold GF256.isGenerator.
  rewrite (validateUInt16_ok poly poly_range), (validateByte_ok gen gen_range).
  cbn [bind]. change (Z.to_nat GF256.fieldSize) with 255%nat.
  destruct (isGenerator_loop_spec 255 [] 1) as [b [Eb Hb]].
  - unfold byte. lia.
  - constructor.
  - reflexivity.
  - exists b. split; [exact Eb|].
    rewrite app_nil_r, iterates_powers in Hb. exact Hb.
Qed.

End Orbit.

(** A list of 255 distinct bytes misses exactly one byte. *)
Lemma one_byte_missing (l : list Z) (u v : Z) :
  NoDup l -> Forall byte l -> length l = 255%nat ->
  byte u -> byte v -> ~ In u l -> ~ In v l -> u = v.
Proof.
  intros ND Hb Hlen Hu Hv Nu Nv.
  destruct (Z.eq_dec u v) as [E|Ne]; [exact E|exfalso].
  assert (ND' : NoDup (u :: v :: l)).
  { constructor; [|constructor; assumption].
    simpl. intros [E|H]; [congruence|contradiction]. }
  assert (Hincl : incl (u :: v :: l) (map Z.of_nat (seq 0 256))).
  { intros z Hz.
    assert (Bz : byte z).
    { destruct Hz as [<-|[<-|Hz]]; try assumption.
      revert z Hz. apply Forall_forall, Hb. }
    apply in_map_iff. exists (Z.to_nat z). unfold byte in Bz.
    split; [lia|]. apply in_seq. lia. }
  pose proof (NoDup_incl_length ND' Hincl) as Hle.
  rewrite length_map, length_seq in Hle. simpl in Hle. lia.
Qed.

Arguments power : simpl never.
Arguments next : simpl never.

(** * What a valid generator gives *)

Section Generator.

Variables poly gen : Z.
Hypothesis distinct_powers : NoDup (powers poly gen 255).

Local Abbreviation nx := (next poly gen).
Local Abbreviation pw := (power poly gen).

Lemma power_inj (i j : nat) :
  (i < 255)%nat -> (j < 255)%nat -> pw i = pw j -> i = j.
Proof. apply (proj1 (NoDup_map_seq pw 255) distinct_powers). Qed.

Lemma In_powers (v : Z) :
  In v (powers poly gen 255) <-> exists k : nat, (k < 255)%nat /\ pw k = v.
Proof.
  unfold powers. rewrite in_map_iff. split.
  - intros [k [E Hk]]. exists k. apply in_seq in Hk. split; [lia|exact E].
  - intros [k [Hk E]]. exists k. split; [exact E|]. apply in_seq. lia.
Qed.

Lemma next_lxor (a b : Z) : nx (Z.lxor a b) = Z.lxor (nx a) (nx b).
Proof. apply mulByte_val_lxor_l. Qed.

Lemma next_0 : nx 0 = 0.
Proof. apply mulByte_val_0_l. Qed.

Lemma lxor_same_l (a b : Z) : Z.lxor a b = a -> b = 0.
Proof.
  intros H. apply (lxor_cancel_l a). rewrite Z.lxor_0_r. exact H.
Qed.

Lemma lxor_same_r (a b : Z) : Z.lxor a b = b -> a = 0.
Proof. rewrite Z.lxor_comm. apply lxor_same_l. Qed.

(** No power of the generator is zero. *)
Lemma power_nonzero (k : nat) : (k < 255)%nat -> pw k <> 0.
Proof.
  intros Hk E.
  assert (k = 254%nat) as ->.
  { destruct (Nat.eq_dec k 254) as [->|Ne]; [reflexivity|exfalso].
    assert (E' : pw (S k) = pw k).
    { rewrite power_S, E. apply next_0. }
    apply power_inj in E'; lia. }
  assert (Hker : nx (pw 253) = 0) by (rewrite <- power_S; exact E).
  assert (Hk0 : pw 253 <> 0).
  { intros E'. rewrite <- E in E'. apply power_inj in E'; lia. }
  assert (Hout : forall i : nat, (i < 253)%nat ->
            ~ In (Z.lxor (pw i) (pw 253)) (powers poly gen 255)).
  { intros i Hi Hin. apply In_powers in Hin. destruct Hin as [j [Hj Ej]].
    destruct (Nat.eq_dec j 254) as [->|Ne].
    - rewrite E in Ej. symmetry in Ej. apply lxor_eq_0 in Ej.
      apply power_inj in Ej; lia.
    - assert (E' : pw (S j) = pw (S i)).
      { rewrite !power_S, Ej, next_lxor, Hker, Z.lxor_0_r. reflexivity. }
      apply power_inj in E'; try lia.
      assert (j = i) by lia. subst j.
      symmetry in Ej. apply lxor_same_l in Ej. contradiction. }
  assert (Eq : Z.lxor (pw 0) (pw 253) = Z.lxor (pw 1) (pw 253)).
  { apply (one_byte_missing (powers poly gen 255)).
    - exact distinct_powers.
    - apply Forall_byte_powers.
    - unfold powers. rewrite length_map, length_seq. reflexivity.
    - apply byte_lxor; apply byte_power.
    - apply byte_lxor; apply byte_power.
    - apply Hout. lia.
    - apply Hout. lia. }
  rewrite (Z.lxor_comm (pw 0)), (Z.lxor_comm (pw 1)) in Eq.
  apply lxor_cancel_l in Eq. apply power_inj in Eq; lia.
Qed.

(** Every nonzero byte is a power of the generator. *)
Lemma power_onto (v : Z) :
  byte v -> v <> 0 -> exists k : nat, (k < 255)%nat /\ pw k = v.
Proof.
  intros Hv Nz. apply In_powers.
  destruct (in_dec Z.eq_dec v (powers poly gen 255)) as [Hin|Hout];
    [exact Hin|exfalso].
  apply Nz. symmetry.
  apply (one_byte_missing (powers poly gen 255)); try assumption.
  - apply Forall_byte_powers.
  - unfold powers. rewrite length_map, length_seq. reflexivity.
  - unfold byte. lia.
  - intros Hin. apply In_powers in Hin. destruct Hin as [k [Hk E]].
    exact (power_nonzero k Hk E).
Qed.

(** Multiplying by the generator sends only zero to zero. *)
Lemma next_kernel (c : Z) : byte c -> nx c = 0 -> c = 0.
Proof.
  intros Hc Hker.
  destruct (Z.eq_dec c 0) as [E|Ne]; [exact E|exfalso].
  destruct (power_onto c Hc Ne) as [k [Hk <-]].
  assert (k = 254%nat) as ->.
  { destruct (Nat.eq_dec k 254) as [->|Nk]; [reflexivity|exfalso].
    apply (power_nonzero (S k)); [lia|]. rewrite power_S. exact Hker. }
  set (y := Z.lxor (pw 0) (pw 254)).
  assert (Hy : byte y) by (apply byte_lxor; apply byte_power).
  assert (Ny : y <> 0).
  { intros E. apply lxor_eq_0 in E. apply power_inj in E; lia. }
  destruct (power_onto y Hy Ny) as [j [Hj Ej]].
  destruct (Nat.eq_dec j 254) as [->|Nj].
  - unfold y in Ej. symmetry in Ej. apply lxor_same_r in Ej.
    apply (power_nonzero 0); [lia|exact Ej].
  - assert (E' : pw (S j) = pw 1).
    { rewrite !power_S, Ej. unfold y.
      rewrite next_lxor, Hker, Z.lxor_0_r. reflexivity. }
    apply power_inj in E'; try lia.
    assert (j = 0%nat) by lia. subst j.
    unfold y in Ej. symmetry in Ej. apply lxor_same_l in Ej.
    apply (power_nonzero 254); [lia|exact Ej].
Qed.

(** The generator has order 255. *)
Lemma power_255 : pw 255 = 1.
Proof.
  assert (Nz : pw 255 <> 0).
  { rewrite power_S. intros E. apply next_kernel in E; [|apply byte_power].
    apply (power_nonzero 254); [lia|exact E]. }
  destruct (power_onto (pw 255) (byte_power poly gen 255) Nz) as [j [Hj Ej]].
  destruct j as [|j]; [rewrite <- Ej; reflexivity|exfalso].
  assert (E : nx (Z.lxor (pw 254) (pw j)) = 0).
  { rewrite next_lxor, <- !power_S, Ej. apply Z.lxor_nilpotent. }
  apply next_kernel in E; [|apply byte_lxor; apply byte_power].
  apply lxor_eq_0 in E. apply power_inj in E; lia.
Qed.

Lemma power_period (n : nat) : pw (n + 255) = pw n.
Proof.
  induction n as [|n IH]; [apply power_255|].
  change (S n + 255)%nat with (S (n + 255)).
  rewrite !power_S, IH. reflexivity.
Qed.

Lemma power_mod (n : nat) : pw n = pw (n mod 255).
Proof.
  induction n as [n IH] using lt_wf_ind.
  destruct (Nat.lt_ge_cases n 255) as [Hlt|Hge].
  - rewrite Nat.mod_small by exact Hlt. reflexivity.
  - replace n with ((n - 255) + 255)%nat at 1 by lia.
    rewrite power_period, IH by lia.
    replace n with ((n - 255) + 1 * 255)%nat at 2 by lia.
    rewrite Nat.Div0.mod_add. reflexivity.
Qed.

End Generator.

(** * Typed-array facts *)

Lemma length_list_set (l : list Z) (i : nat) (v : Z) :
  length (list_set l i v) = length l.
Proof.
  revert i. induction l as [|h t IH]; intros [|i]; simpl; auto.
Qed.

Lemma nth_error_list_set_eq (l : list Z) (i : nat) (v : Z) :
  (i < length l)%nat -> nth_error (list_set l i v) i = Some v.
Proof.
  revert i. induction l as [|h t IH]; intros [|i] H; simpl in *;
    try lia; [reflexivity|].
  apply IH. lia.
Qed.

Lemma nth_error_list_set_ne (l : list Z) (i j : nat) (v : Z) :
  i <> j -> nth_error (list_set l i v) j = nth_error l j.
Proof.
  revert i j. induction l as [|h t IH]; intros [|i] [|j] H; simpl;
    try reflexivity; try congruence.
  apply IH. congruence.
Qed.

Lemma length_u8_set (arr : list Z) (i v : Z) :
  length (u8_set arr i v) = length arr.
Proof.
  unfold u8_set. destruct (i <? 0); [reflexivity|apply length_list_set].
Qed.

Lemma u8_get_set_eq (arr : list Z) (i v : Z) :
  0 <= i < Z.of_nat (length arr) ->
  u8_get (u8_set arr i v) i = Some (v mod 256).
Proof.
  intros H. unfold u8_get, u8_set.
  destruct (Z.ltb_spec i 0); [lia|].
  apply nth_error_list_set_eq. lia.
Qed.

Lemma u8_get_set_ne (arr : list Z) (i j v : Z) :
  i <> j -> u8_get (u8_set arr i v) j = u8_get arr j.
Proof.
  intros H. unfold u8_get, u8_set.
  destruct (Z.ltb_spec j 0); [reflexivity|].
  destruct (Z.ltb_spec i 0); [reflexivity|].
  apply nth_error_list_set_ne. lia.
Qed.

Lemma u8_get_new (n : nat) (i : Z) :
  0 <= i < Z.of_nat n -> u8_get (u8_new n) i = Some 0.
Proof.
  intros H. unfold u8_get, u8_new.
  destruct (Z.ltb_spec i 0); [lia|].
  apply nth_error_repeat. lia.
Qed.

Lemma u8_get_Some_lt (arr : list Z) (i v : Z) :
  u8_get arr i = Some v -> 0 <= i < Z.of_nat (length arr).
Proof.
  unfold u8_get. destruct (Z.ltb_spec i 0); [discriminate|].
  intros E.
  assert (nth_error arr (Z.to_nat i) <> None) as Hn by congruence.
  apply nth_error_Some in Hn. lia.
Qed.

Lemma u8_get_lt (arr : list Z) (i : Z) :
  0 <= i < Z.of_nat (length arr) -> exists v, u8_get arr i = Some v.
Proof.
  intros H. unfold u8_get. destruct (Z.ltb_spec i 0); [lia|].
  destruct (nth_error arr (Z.to_nat i)) eqn:E; [eauto|].
  apply nth_error_None in E. lia.
Qed.

Lemma byte_mod (v : Z) : byte v -> v mod 256 = v.
Proof. unfold byte. intros H. apply Z.mod_small. lia. Qed.

(** * The tables the constructor builds *)

Section Tables.

Variables poly gen : Z.
Hypothesis poly_range : 0 <= poly <= 65535.
Hypothesis gen_range : byte gen.

Local Abbreviation pw := (power poly gen).

(** The two arrays after the turns [i, i + k) of the first loop. *)
Fixpoint fill_exp (k i : nat) (e : list Z) : list Z :=
  match k with
  | O => e
  | S k' => fill_exp k' (S i) (u8_set e (Z.of_nat i) (pw i))
  end.

Fixpoint fill_log (k i : nat) (l : list Z) : list Z :=
  match k with
  | O => l
  | S k' => fill_log k' (S i) (u8_set l (pw i) (Z.of_nat i))
  end.

Lemma fill_loop_eq (k i : nat) (e l : list Z) :
  GF256.fill_loop k (Z.of_nat i) (pw i) e l poly gen =
  Ret (fill_exp k i e, fill_log k i l).
Proof.
  revert i e l. induction k as [|k IH]; intros i e l; [reflexivity|].
  cbn [GF256.fill_loop fill_exp fill_log].
  rewrite (mulByte_ok poly (pw i) gen (byte_power poly gen i)
             gen_range poly_range).
  cbn [bind]. replace (Z.of_nat i + 1) with (Z.of_nat (S i)) by lia.
  apply (IH (S i)).
Qed.

Lemma length_fill_exp (k i : nat) (e : list Z) :
  length (fill_exp k i e) = length e.
Proof.
  revert i e. induction k as [|k IH]; intros i e; [reflexivity|].
  cbn [fill_exp]. rewrite IH. apply length_u8_set.
Qed.

Lemma length_fill_log (k i : nat) (l : list Z) :
  length (fill_log k i l) = length l.
Proof.
  revert i l. induction k as [|k IH]; intros i l; [reflexivity|].
  cbn [fill_log]. rewrite IH. apply length_u8_set.
Qed.

Lemma fill_exp_in (k i : nat) (e : list Z) (j : nat) :
  (i + k <= length e)%nat -> (i <= j < i + k)%nat ->
  u8_get (fill_exp k i e) (Z.of_nat j) = Some (pw j).
Proof.
  revert i e. induction k as [|k IH]; intros i e Hlen Hj; [lia|].
  cbn [fill_exp].
  destruct (Nat.eq_dec j i) as [->|Ne].
  - clear IH.
    assert (G : forall k' i' e', (i < i')%nat ->
              u8_get (fill_exp k' i' e') (Z.of_nat i) = u8_get e' (Z.of_nat i)).
    { induction k' as [|k' IH']; intros i' e' Hi'; [reflexivity|].
      cbn [fill_exp]. rewrite IH' by lia. apply u8_get_set_ne. lia. }
    rewrite G by lia. rewrite u8_get_set_eq by lia.
    rewrite byte_mod by apply byte_power. reflexivity.
  - apply IH; [rewrite length_u8_set|]; lia.
Qed.

Lemma fill_exp_out (k i : nat) (e : list Z) (j : Z) :
  ~ (Z.of_nat i <= j < Z.of_nat (i + k)) ->
  u8_get (fill_exp k i e) j = u8_get e j.
Proof.
  revert i e. induction k as [|k IH]; intros i e Hj; [reflexivity|].
  cbn [fill_exp]. rewrite IH by lia. apply u8_get_set_ne. lia.
Qed.

(** Entries of the logarithm table never exceed 254. *)
Lemma fill_log_range (k i : nat) (l : list Z) :
  (i + k <= 255)%nat ->
  Forall (fun v => 0 <= v <= 254) l ->
  Forall (fun v => 0 <= v <= 254) (fill_log k i l).
Proof.
  revert i l. induction k as [|k IH]; intros i l Hk Hl; [exact Hl|].
  cbn [fill_log]. apply IH; [lia|].
  unfold u8_set. destruct (pw i <? 0); [exact Hl|].
  rewrite Z.mod_small by lia.
  clear IH. revert Hl. generalize (Z.to_nat (pw i)) as n.
  induction l as [|h t IHl]; intros n Hl; [destruct n; constructor|].
  inversion Hl; subst.
  destruct n as [|n]; simpl; constructor; auto. lia.
Qed.

Lemma fill_log_out (k i : nat) (l : list Z) (v : Z) :
  (forall j : nat, (i <= j < i + k)%nat -> pw j <> v) ->
  u8_get (fill_log k i l) v = u8_get l v.
Proof.
  revert i l. induction k as [|k IH]; intros i l Hv; [reflexivity|].
  cbn [fill_log]. rewrite IH.
  - apply u8_get_set_ne. apply Hv. lia.
  - intros j Hj. apply Hv. lia.
Qed.

Lemma fill_log_in (k i : nat) (l : list Z) (j : nat) :
  (i + k <= 255)%nat -> length l = 256%nat ->
  (forall a b : nat, (a < 255)%nat -> (b < 255)%nat -> pw a = pw b -> a = b) ->
  (i <= j < i + k)%nat ->
  u8_get (fill_log k i l) (pw j) = Some (Z.of_nat j).
Proof.
  intros Hk Hlen Hinj. revert i l Hk Hlen.
  induction k as [|k IH]; intros i l Hk Hlen Hj; [lia|].
  cbn [fill_log].
  destruct (Nat.eq_dec j i) as [->|Ne].
  - rewrite fill_log_out.
    + pose proof (byte_power poly gen i) as Hb. unfold byte in Hb.
      rewrite u8_get_set_eq by lia. rewrite Z.mod_small by lia. reflexivity.
    + intros j Hj' E. apply Hinj in E; lia.
  - apply IH; [lia|rewrite length_u8_set; exact Hlen|lia].
Qed.

End Tables.

Lemma validateUInt16_bad (n : Z) :
  ~ 0 <= n <= 65535 -> GF256.validateUInt16 n = Throw NotAUInt16.
Proof.
  unfold GF256.validateUInt16. intros H.
  destruct (n <? 0) eqn:E1; [reflexivity|].
  destruct (n >? 65535) eqn:E2; [reflexivity|].
  apply Z.ltb_ge in E1. rewrite Z.gtb_ltb in E2. apply Z.ltb_ge in E2. lia.
Qed.

Section Doubling.

Variables poly gen : Z.

Local Abbreviation pw := (power poly gen).

(** State of [exp] when the second loop reaches counter [i]. *)
Definition exp_upto (i : nat) (e : list Z) : Prop :=
  length e = 512%nat /\
  (forall j : nat, (j < 255 + i)%nat ->
     u8_get e (Z.of_nat j) = Some (pw (j mod 255))) /\
  (forall j : nat, (255 + i <= j < 512)%nat ->
     u8_get e (Z.of_nat j) = Some 0).

Lemma dup_loop_upto (k i : nat) (e : list Z) :
  (i + k = 256)%nat -> exp_upto i e ->
  exp_upto 256 (GF256.dup_loop k (Z.of_nat i) e).
Proof.
  revert i e. induction k as [|k IH]; intros i e Hik Hinv.
  - replace i with 256%nat in Hinv by lia. exact Hinv.
  - cbn [GF256.dup_loop].
    destruct Hinv as [Hlen [Hlow Hhigh]].
    rewrite (Hlow i) by lia.
    replace (Z.of_nat i + 1) with (Z.of_nat (S i)) by lia.
    apply IH; [lia|].
    split; [rewrite length_u8_set; exact Hlen|]. split.
    + intros j Hj. destruct (Nat.eq_dec j (i + 255)) as [->|Ne].
      * replace (Z.of_nat (i + 255)) with (Z.of_nat i + 255) by lia.
        rewrite u8_get_set_eq by lia.
        rewrite byte_mod by apply byte_power.
        replace (i + 255)%nat with (i + 1 * 255)%nat by lia.
        rewrite Nat.Div0.mod_add. reflexivity.
      * rewrite u8_get_set_ne by lia. apply Hlow. lia.
    + intros j Hj. rewrite u8_get_set_ne by lia. apply Hhigh. lia.
Qed.

Lemma fill_exp_upto :
  exp_upto 0 (fill_exp poly gen 255 0 (u8_new 512)).
Proof.
  split; [rewrite length_fill_exp; apply repeat_length|]. split.
  - intros j Hj. rewrite Nat.mod_small by lia.
    apply fill_exp_in; [unfold u8_new; rewrite repeat_length|]; lia.
  - intros j Hj. rewrite fill_exp_out by lia. apply u8_get_new. lia.
Qed.

End Doubling.

(** The tables of a field built from [poly] and [gen]. *)
Definition tables (poly gen : Z) : GF256.t :=
  GF256.mk (GF256.dup_loop 256 0 (fill_exp poly gen 255 0 (u8_new 512)))
           (fill_log poly gen 255 0 (u8_new 256))
           poly gen.

(** What a successful construction tells. *)
Lemma new_inv (poly gen : Z) (F : GF256.t) :
  GF256.new poly gen = Ret F ->
  0 <= poly <= 65535 /\ byte gen /\
  NoDup (powers poly gen 255) /\ F = tables poly gen.
Proof.
  unfold GF256.new. intros H.
  destruct (Z_le_dec 0 poly) as [Hp0|Hp0];
    [|rewrite validateUInt16_bad in H by lia; discriminate].
  destruct (Z_le_dec poly 65535) as [Hp1|Hp1];
    [|rewrite validateUInt16_bad in H by lia; discriminate].
  destruct (byte_dec gen) as [Hg|Hg];
    [|rewrite validateUInt16_ok, validateByte_bad in H by (assumption || lia);
      discriminate].
  rewrite validateUInt16_ok, validateByte_ok in H by (assumption || lia).
  cbn [bind] in H.
  destruct (isGenerator_spec poly gen (conj Hp0 Hp1) Hg) as [b [Eb Hb]].
  rewrite Eb in H. cbn [bind] in H.
  destruct b; [|discriminate]. cbn [negb] in H.
  change (GF256.fill_loop 255 0 1 (u8_new 512) (u8_new 256) poly gen)
    with (GF256.fill_loop 255 (Z.of_nat 0) (power poly gen 0)
            (u8_new 512) (u8_new 256) poly gen) in H.
  rewrite (fill_loop_eq poly gen (conj Hp0 Hp1) Hg) in H.
  cbn [bind fst snd] in H.
  split; [lia|]. split; [exact Hg|]. split.
  - apply (proj1 Hb). reflexivity.
  - unfold tables.
    exact (f_equal (fun o => match o with Ret f => f | _ => F end)
             (eq_sym H)).
Qed.

Lemma new_ok (poly gen : Z) :
  0 <= poly <= 65535 -> byte gen -> NoDup (powers poly gen 255) ->
  GF256.new poly gen = Ret (tables poly gen).
Proof.
  intros Hp Hg ND. unfold GF256.new.
  rewrite validateUInt16_ok, validateByte_ok by assumption.
  cbn [bind].
  destruct (isGenerator_spec poly gen Hp Hg) as [b [Eb Hb]].
  rewrite Eb. cbn [bind].
  replace b with true by (symmetry; apply Hb; exact ND). cbn [negb].
  change (GF256.fill_loop 255 0 1 (u8_new 512) (u8_new 256) poly gen)
    with (GF256.fill_loop 255 (Z.of_nat 0) (power poly gen 0)
            (u8_new 512) (u8_new 256) poly gen).
  rewrite (fill_loop_eq poly gen Hp Hg). reflexivity.
Qed.

Section TableFacts.

Variables poly gen : Z.

Local Abbreviation pw := (power poly gen).
Local Abbreviation F := (tables poly gen).

Lemma exp_upto_tables : exp_upto poly gen 256 (GF256.exp F).
Proof.
  unfold tables. cbn [GF256.exp].
  apply (dup_loop_upto poly gen 256 0); [reflexivity|apply fill_exp_upto].
Qed.

Lemma length_exp : length (GF256.exp F) = 512%nat.
Proof. apply exp_upto_tables. Qed.

Lemma length_log : length (GF256.log F) = 256%nat.
Proof.
  unfold tables. cbn [GF256.log]. rewrite length_fill_log.
  apply repeat_length.
Qed.

(** Below index 511 the table holds the powers, with period 255. *)
Lemma exp_get (j : Z) :
  0 <= j < 511 ->
  u8_get (GF256.exp F) j = Some (pw (Z.to_nat j mod 255)).
Proof.
  intros Hj. destruct exp_upto_tables as [_ [Hlow _]].
  rewrite <- (Z2Nat.id j) at 1 by lia. apply Hlow. lia.
Qed.

Lemma exp_get_511 : u8_get (GF256.exp F) 511 = Some 0.
Proof.
  destruct exp_upto_tables as [_ [_ Hhigh]].
  apply (Hhigh 511%nat). lia.
Qed.

Lemma log_range (v : Z) :
  byte v -> exists lv, u8_get (GF256.log F) v = Some lv /\ 0 <= lv <= 254.
Proof.
  intros Hv. unfold byte in Hv.
  destruct (u8_get_lt (GF256.log F) v) as [lv E];
    [rewrite length_log; lia|].
  exists lv. split; [exact E|].
  assert (Hall : Forall (fun v => 0 <= v <= 254) (GF256.log F)).
  { unfold tables. cbn [GF256.log]. apply fill_log_range; [lia|].
    unfold u8_new. apply Forall_forall. intros x Hx.
    apply repeat_spec in Hx. lia. }
  unfold u8_get in E. destruct (v <? 0); [discriminate|].
  apply nth_error_In in E. revert lv E. apply Forall_forall. exact Hall.
Qed.

Hypothesis distinct_powers : NoDup (powers poly gen 255).

Lemma log_power (j : nat) :
  (j < 255)%nat -> u8_get (GF256.log F) (pw j) = Some (Z.of_nat j).
Proof.
  intros Hj. unfold tables. cbn [GF256.log].
  apply fill_log_in; try lia.
  - apply repeat_length.
  - apply power_inj. exact distinct_powers.
Qed.

(** The logarithm of a nonzero byte. *)
Lemma log_get (v : Z) :
  byte v -> v <> 0 ->
  exists k : nat, (k < 255)%nat /\ pw k = v /\
                  u8_get (GF256.log F) v = Some (Z.of_nat k).
Proof.
  intros Hv Nz.
  destruct (power_onto poly gen distinct_powers v Hv Nz) as [k [Hk E]].
  exists k. split; [exact Hk|]. split; [exact E|].
  rewrite <- E. apply log_power. exact Hk.
Qed.

Lemma exp_power (j : nat) :
  (j < 511)%nat -> u8_get (GF256.exp F) (Z.of_nat j) = Some (pw j).
Proof.
  intros Hj. rewrite exp_get by lia. rewrite Nat2Z.id.
  rewrite <- (power_mod poly gen distinct_powers). reflexivity.
Qed.

End TableFacts.

(** * Operations of a constructed field *)

Lemma power_add (poly gen : Z) (i j : nat) :
  byte gen ->
  GF256.mulByte_val (power poly gen i) (power poly gen j) poly =
  power poly gen (i + j).
Proof.
  intros Hg. induction j as [|j IH].
  - rewrite Nat.add_0_r. apply mulByte_val_1_r, byte_power.
  - rewrite Nat.add_succ_r, !power_S. unfold next.
    rewrite <- mulByte_val_assoc by (try apply byte_power; exact Hg).
    rewrite IH. reflexivity.
Qed.

Lemma u8_read_Some (arr : list Z) (i v : Z) :
  u8_get arr i = Some v -> u8_read arr i = Ret v.
Proof. unfold u8_read. intros ->. reflexivity. Qed.

Section FieldOps.

Variables poly gen : Z.
Hypothesis gen_range : byte gen.
Hypothesis distinct_powers : NoDup (powers poly gen 255).

Local Abbreviation pw := (power poly gen).
Local Abbreviation F := (tables poly gen).

Lemma eqb_0_false (a : Z) : a <> 0 -> (a =? 0) = false.
Proof. apply Z.eqb_neq. Qed.

(** Product of two powers of the generator. *)
Lemma mul_powers (i j : nat) :
  (i < 255)%nat -> (j < 255)%nat ->
  GF256.mul F (pw i) (pw j) = Ret (pw (i + j)).
Proof.
  intros Hi Hj. unfold GF256.mul.
  rewrite !validateByte_ok by apply byte_power. cbn [bind].
  rewrite !eqb_0_false by (apply power_nonzero; assumption). cbn [orb].
  rewrite (u8_read_Some _ _ _ (log_power poly gen distinct_powers i Hi)).
  rewrite (u8_read_Some _ _ _ (log_power poly gen distinct_powers j Hj)).
  cbn [bind]. rewrite <- Nat2Z.inj_add.
  apply u8_read_Some, exp_power; [exact distinct_powers|lia].
Qed.

Lemma mul_0_l (b : Z) : byte b -> GF256.mul F 0 b = Ret 0.
Proof.
  intros Hb. unfold GF256.mul.
  rewrite validateByte_ok by (unfold byte; lia).
  rewrite validateByte_ok by exact Hb. reflexivity.
Qed.

Lemma mul_0_r (a : Z) : byte a -> GF256.mul F a 0 = Ret 0.
Proof.
  intros Ha. unfold GF256.mul.
  rewrite validateByte_ok by exact Ha.
  rewrite validateByte_ok by (unfold byte; lia).
  cbn [bind]. rewrite orb_true_r. reflexivity.
Qed.

(** The table product is the carry-less product. *)
Lemma mul_mulByte_val (a b : Z) :
  byte a -> byte b -> GF256.mul F a b = Ret (GF256.mulByte_val a b poly).
Proof.
  intros Ha Hb.
  destruct (Z.eq_dec a 0) as [->|Na];
    [rewrite mulByte_val_0_l; apply mul_0_l; exact Hb|].
  destruct (Z.eq_dec b 0) as [->|Nb];
    [rewrite mulByte_val_0_r; apply mul_0_r; exact Ha|].
  destruct (power_onto poly gen distinct_powers a Ha Na) as [i [Hi <-]].
  destruct (power_onto poly gen distinct_powers b Hb Nb) as [j [Hj <-]].
  rewrite mul_powers, power_add by assumption. reflexivity.
Qed.

Lemma inv_power (i : nat) :
  (i < 255)%nat -> GF256.inv F (pw i) = Ret (pw (255 - i)).
Proof.
  intros Hi. unfold GF256.inv.
  rewrite validateByte_ok by apply byte_power. cbn [bind].
  rewrite eqb_0_false by (apply power_nonzero; assumption).
  rewrite (u8_read_Some _ _ _ (log_power poly gen distinct_powers i Hi)).
  cbn [bind]. replace (255 - Z.of_nat i) with (Z.of_nat (255 - i)) by lia.
  apply u8_read_Some, exp_power; [exact distinct_powers|lia].
Qed.

Lemma div_powers (i j : nat) :
  (i < 255)%nat -> (j < 255)%nat ->
  GF256.div F (pw i) (pw j) = Ret (pw (i + (255 - j))).
Proof.
  intros Hi Hj. unfold GF256.div.
  rewrite !validateByte_ok by apply byte_power. cbn [bind].
  rewrite !eqb_0_false by (apply power_nonzero; assumption).
  rewrite (u8_read_Some _ _ _ (log_power poly gen distinct_powers i Hi)).
  rewrite (u8_read_Some _ _ _ (log_power poly gen distinct_powers j Hj)).
  cbn [bind].
  rewrite (power_mod poly gen distinct_powers (i + (255 - j))).
  destruct (Z.ltb_spec (Z.of_nat i - Z.of_nat j) 0) as [Hlt|Hge].
  - replace (Z.of_nat i - Z.of_nat j + 255)
      with (Z.of_nat (i + (255 - j))) by lia.
    rewrite Nat.mod_small by lia.
    apply u8_read_Some, exp_power; [exact distinct_powers|lia].
  - replace (Z.of_nat i - Z.of_nat j) with (Z.of_nat (i - j)) by lia.
    replace (i + (255 - j))%nat with ((i - j) + 1 * 255)%nat by lia.
    rewrite Nat.Div0.mod_add, Nat.mod_small by lia.
    apply u8_read_Some, exp_power; [exact distinct_powers|lia].
Qed.

End FieldOps.

Lemma firstn_map_seq (f : nat -> Z) (n : nat) (l : list Z) :
  (forall j : nat, (j < n)%nat -> nth_error l j = Some (f j)) ->
  firstn n l = map f (seq 0 n).
Proof.
  intros H. apply nth_error_ext. intros j.
  destruct (Nat.lt_ge_cases j n) as [Hlt|Hge].
  - rewrite nth_error_firstn.
    replace (j <? n)%nat with true by (symmetry; apply Nat.ltb_lt; exact Hlt).
    rewrite H by exact Hlt.
    rewrite nth_error_map, nth_error_seq.
    replace (j <? n)%nat with true by (symmetry; apply Nat.ltb_lt; exact Hlt).
    reflexivity.
  - rewrite nth_error_firstn.
    replace (j <? n)%nat with false by (symmetry; apply Nat.ltb_ge; exact Hge).
    symmetry. apply nth_error_None. rewrite length_map, length_seq. exact Hge.
Qed.

Lemma firstn_exp_powers (poly gen : Z) :
  firstn 255 (GF256.exp (tables poly gen)) = powers poly gen 255.
Proof.
  unfold powers. apply firstn_map_seq. intros j Hj.
  pose proof (exp_get poly gen (Z.of_nat j)) as E.
  unfold u8_get in E.
  replace (Z.of_nat j <? 0) with false in E by (symmetry; apply Z.ltb_ge; lia).
  rewrite Nat2Z.id, Nat.mod_small in E by lia. apply E. lia.
Qed.

(** * Polynomials and Lagrange interpolation over a field *)

Section Lagrange.

Variable K : Type.
Variables (k0 k1 : K) (kadd kmul ksub : K -> K -> K) (kopp : K -> K)
          (kdiv : K -> K -> K) (kinv : K -> K).
Hypothesis Kth : field_theory k0 k1 kadd kmul ksub kopp kdiv kinv eq.

Add Field Kfield : Kth.

Declare Scope K_scope.
Delimit Scope K_scope with K.
Local Notation "0" := k0 : K_scope.
Local Notation "1" := k1 : K_scope.
Local Infix "+" := kadd : K_scope.
Local Infix "*" := kmul : K_scope.
Local Infix "-" := ksub : K_scope.
Local Infix "/" := kdiv : K_scope.
Local Open Scope K_scope.

(** Value at [x] of the polynomial with coefficients [c], constant term
    first. *)
Definition peval (c : list K) (x : K) : K :=
  fold_right (fun a acc => a + x * acc) 0 c.

(** Horner's loop as [evaluate] runs it: [n] turns, from index [n - 1]
    down to 0. *)
Fixpoint horner (c : list K) (x : K) (n : nat) (r : K) : K :=
  match n with
  | O => r
  | S i => horner c x i (r * x + nth i c 0)
  end.

(** [x] to the power [i], and the sum of the terms [c_j * x^(i + j)]. *)
Fixpoint kpow (x : K) (i : nat) : K :=
  match i with
  | O => 1
  | S i' => kpow x i' * x
  end.

Fixpoint term_sum (c : list K) (x : K) (i : nat) : K :=
  match c with
  | [] => 0
  | a :: c' => a * kpow x i + term_sum c' x (S i)
  end.

(** The loops of [interpolate], on field elements. *)
Fixpoint lag_inner (x : K) (i : nat) (xi : K) (rest : list (K * K))
  (j : nat) (basis : K) : K :=
  match rest with
  | [] => basis
  | sj :: rest' =>
      if Nat.eqb i j then lag_inner x i xi rest' (S j) basis
      else lag_inner x i xi rest' (S j)
             (basis * ((x - fst sj) / (xi - fst sj)))
  end.

Fixpoint lag_outer (samples : list (K * K)) (x : K) (rest : list (K * K))
  (i : nat) (result : K) : K :=
  match rest with
  | [] => result
  | si :: rest' =>
      lag_outer samples x rest' (S i)
        (result + snd si * lag_inner x i (fst si) samples 0 1)
  end.

Definition lagrange (samples : list (K * K)) (x : K) : K :=
  lag_outer samples x samples 0 0.

(** ** Field facts *)

Lemma kmul_eq_0 (u v : K) : u <> 0 -> u * v = 0 -> v = 0.
Proof.
  intros Hu E.
  assert (E' : v = kinv u * (u * v)) by (field; exact Hu).
  rewrite E' , E. ring.
Qed.

Lemma ksub_eq_0 (u v : K) : u - v = 0 -> u = v.
Proof.
  intros E. assert (E' : u = (u - v) + v) by ring. rewrite E', E. ring.
Qed.

Lemma ksub_neq_0 (u v : K) : u <> v -> u - v <> 0.
Proof. intros Ne E. apply Ne, ksub_eq_0, E. Qed.

Lemma kdiv_self (u : K) : u <> 0 -> u / u = 1.
Proof. intros Hu. field. exact Hu. Qed.

Lemma kdiv_0_l (u : K) : 0 / u = 0.
Proof. rewrite (Fdiv_def Kth). ring. Qed.

(** ** Polynomial functions of bounded length *)

Definition polyfun (n : nat) (f : K -> K) : Prop :=
  exists c : list K, (length c <= n)%nat /\ forall x, f x = peval c x.

Fixpoint padd (c d : list K) : list K :=
  match c, d with
  | [], _ => d
  | _, [] => c
  | a :: c', b :: d' => (a + b) :: padd c' d'
  end.

Lemma length_padd (c d : list K) :
  length (padd c d) = Nat.max (length c) (length d).
Proof.
  revert d. induction c as [|a c IH]; intros [|b d]; simpl; auto.
Qed.

Lemma peval_cons (a : K) (c : list K) (x : K) :
  peval (a :: c) x = a + x * peval c x.
Proof. reflexivity. Qed.

Lemma peval_padd (c d : list K) (x : K) :
  peval (padd c d) x = peval c x + peval d x.
Proof.
  revert d. induction c as [|a c IH]; intros [|b d].
  - simpl. ring.
  - cbn [padd]. change (peval [] x) with 0. ring.
  - cbn [padd]. change (peval [] x) with 0. ring.
  - cbn [padd]. rewrite !peval_cons, IH. ring.
Qed.

Lemma peval_map_mul (a : K) (c : list K) (x : K) :
  peval (map (kmul a) c) x = a * peval c x.
Proof.
  induction c as [|b c IH].
  - change (peval (map (kmul a) []) x) with 0. change (peval [] x) with 0.
    ring.
  - cbn [map]. rewrite !peval_cons, IH. ring.
Qed.

Lemma polyfun_ext (n : nat) (f g : K -> K) :
  (forall x, f x = g x) -> polyfun n f -> polyfun n g.
Proof.
  intros E [c [Hc Hf]]. exists c. split; [exact Hc|].
  intros x. rewrite <- E. apply Hf.
Qed.

Lemma polyfun_le (n m : nat) (f : K -> K) :
  (n <= m)%nat -> polyfun n f -> polyfun m f.
Proof. intros Hle [c [Hc Hf]]. exists c. split; [lia|exact Hf]. Qed.

Lemma polyfun_const (a : K) : polyfun 1 (fun _ => a).
Proof.
  exists [a]. split; [simpl; lia|]. intros x. rewrite peval_cons.
  change (peval [] x) with 0. ring.
Qed.

Lemma polyfun_zero (n : nat) : polyfun n (fun _ => 0).
Proof. exists []. split; [simpl; lia|]. reflexivity. Qed.

Lemma polyfun_add (n : nat) (f g : K -> K) :
  polyfun n f -> polyfun n g -> polyfun n (fun x => f x + g x).
Proof.
  intros [c [Hc Hf]] [d [Hd Hg]]. exists (padd c d). split.
  - rewrite length_padd. lia.
  - intros x. rewrite peval_padd, Hf, Hg. reflexivity.
Qed.

Lemma polyfun_scale (n : nat) (a : K) (f : K -> K) :
  polyfun n f -> polyfun n (fun x => a * f x).
Proof.
  intros [c [Hc Hf]]. exists (map (kmul a) c). split.
  - rewrite length_map. exact Hc.
  - intros x. rewrite peval_map_mul, Hf. reflexivity.
Qed.

Lemma polyfun_mul_x (n : nat) (f : K -> K) :
  polyfun n f -> polyfun (S n) (fun x => x * f x).
Proof.
  intros [c [Hc Hf]]. exists (0 :: c). split; [simpl; lia|].
  intros x. rewrite peval_cons, Hf. ring.
Qed.

(** Multiplying by one Lagrange factor adds one to the length. *)
Lemma polyfun_factor (n : nat) (f : K -> K) (a d : K) :
  polyfun n f -> polyfun (S n) (fun x => f x * ((x - a) / d)).
Proof.
  intros Hf.
  apply (polyfun_ext (S n)
           (fun x => kinv d * (x * f x) + (kopp (a * kinv d)) * f x)).
  - intros x. rewrite (Fdiv_def Kth). ring.
  - apply polyfun_add.
    + apply polyfun_scale, polyfun_mul_x, Hf.
    + apply polyfun_scale, (polyfun_le n); [lia|exact Hf].
Qed.

(** ** Roots *)

Lemma peval_divide (c : list K) (a : K) :
  exists q : list K,
    length q = pred (length c) /\
    forall x, peval c x = (x - a) * peval q x + peval c a.
Proof.
  induction c as [|h t IH].
  - exists []. split; [reflexivity|]. intros x.
    change (peval [] x) with 0. change (peval [] a) with 0. ring.
  - destruct IH as [q [Hq Hdiv]]. destruct t as [|h' t'].
    + exists []. split; [reflexivity|]. intros x.
      rewrite !peval_cons. change (peval [] x) with 0.
      change (peval [] a) with 0. ring.
    + exists (peval (h' :: t') a :: q). split; [simpl in *; lia|].
      intros x. rewrite (peval_cons h), (peval_cons h _ a).
      rewrite (peval_cons _ q). rewrite (Hdiv x). ring.
Qed.

(** A polynomial with more distinct roots than coefficients vanishes
    everywhere. *)
Lemma peval_roots (n : nat) :
  forall (c : list K) (rs : list K),
    (length c <= n)%nat -> NoDup rs -> length rs = n ->
    (forall r, In r rs -> peval c r = 0) ->
    forall x, peval c x = 0.
Proof.
  induction n as [|n IH]; intros c rs Hc ND Hrs Hroot x.
  - destruct c; [reflexivity|simpl in Hc; lia].
  - destruct rs as [|r rs]; [discriminate|].
    inversion ND as [|r' rs' Hnin ND']; subst.
    destruct (peval_divide c r) as [q [Hq Hdiv]].
    assert (Hr : peval c r = 0) by (apply Hroot; left; reflexivity).
    assert (Hq0 : forall y, peval q y = 0).
    { apply (IH q rs); [lia|exact ND'|simpl in Hrs; lia|].
      intros s Hs.
      apply (kmul_eq_0 (s - r)).
      - apply ksub_neq_0. intros ->. contradiction.
      - pose proof (Hdiv s) as E. rewrite Hr in E.
        rewrite (Hroot s) in E by (right; exact Hs).
        rewrite E. ring. }
    rewrite (Hdiv x), Hr, Hq0. ring.
Qed.

Lemma polyfun_roots (n : nat) (f : K -> K) (rs : list K) :
  polyfun n f -> NoDup rs -> length rs = n ->
  (forall r, In r rs -> f r = 0) -> forall x, f x = 0.
Proof.
  intros [c [Hc Hf]] ND Hrs Hroot x. rewrite Hf.
  apply (peval_roots n c rs); try assumption.
  intros r Hr. rewrite <- Hf. apply Hroot, Hr.
Qed.

(** ** The interpolation loops *)

Lemma lag_inner_0 (x : K) (i : nat) (xi : K) (rest : list (K * K)) (j : nat) :
  lag_inner x i xi rest j 0 = 0.
Proof.
  revert j. induction rest as [|sj rest IH]; intros j; [reflexivity|].
  cbn [lag_inner]. destruct (Nat.eqb i j); [apply IH|].
  replace (0 * ((x - fst sj) / (xi - fst sj))) with 0 by ring. apply IH.
Qed.

Lemma lag_inner_polyfun_after (i : nat) (xi : K) (rest : list (K * K)) :
  forall (j n : nat) (f : K -> K),
    (i < j)%nat -> polyfun n f ->
    polyfun (n + length rest) (fun x => lag_inner x i xi rest j (f x)).
Proof.
  induction rest as [|sj rest IH]; intros j n f Hij Hf.
  - simpl. rewrite Nat.add_0_r. exact Hf.
  - cbn [lag_inner length].
    replace (Nat.eqb i j) with false by (symmetry; apply Nat.eqb_neq; lia).
    replace (n + S (length rest))%nat with (S n + length rest)%nat by lia.
    apply (IH (S j) (S n)
             (fun x => f x * ((x - fst sj) / (xi - fst sj)))); [lia|].
    apply polyfun_factor, Hf.
Qed.

Lemma lag_inner_polyfun (i : nat) (xi : K) (rest : list (K * K)) :
  forall (j n : nat) (f : K -> K),
    (j <= i < j + length rest)%nat -> polyfun n f ->
    polyfun (n + length rest - 1)
            (fun x => lag_inner x i xi rest j (f x)).
Proof.
  induction rest as [|sj rest IH]; intros j n f Hij Hf.
  - simpl in Hij. lia.
  - cbn [lag_inner length]. destruct (Nat.eqb_spec i j) as [->|Ne].
    + replace (n + S (length rest) - 1)%nat with (n + length rest)%nat by lia.
      apply lag_inner_polyfun_after; [lia|exact Hf].
    + replace (n + S (length rest) - 1)%nat
        with (S n + length rest - 1)%nat by lia.
      apply (IH (S j) (S n)
               (fun x => f x * ((x - fst sj) / (xi - fst sj)))).
      * simpl in Hij. lia.
      * apply polyfun_factor, Hf.
Qed.

Lemma lag_outer_polyfun (samples : list (K * K)) (rest : list (K * K)) :
  forall (i : nat) (f : K -> K),
    (i + length rest <= length samples)%nat ->
    polyfun (length samples) f ->
    polyfun (length samples) (fun x => lag_outer samples x rest i (f x)).
Proof.
  induction rest as [|si rest IH]; intros i f Hi Hf; [exact Hf|].
  cbn [lag_outer]. simpl in Hi.
  apply (IH (S i)
           (fun x => f x + snd si * lag_inner x i (fst si) samples 0 1));
    [lia|].
  apply polyfun_add; [exact Hf|]. apply polyfun_scale.
  apply (polyfun_le (1 + length samples - 1)); [lia|].
  apply (lag_inner_polyfun i (fst si) samples 0 1 (fun _ => 1));
    [lia|apply polyfun_const].
Qed.

Lemma lagrange_polyfun (samples : list (K * K)) :
  polyfun (length samples) (lagrange samples).
Proof.
  apply (lag_outer_polyfun samples samples 0 (fun _ => 0)); [simpl; lia|].
  apply polyfun_zero.
Qed.

(** A factor whose node is the evaluation point annihilates the basis. *)
Lemma lag_inner_node (x : K) (i : nat) (xi : K) (rest : list (K * K)) :
  forall (j m : nat) (s : K * K) (basis : K),
    nth_error rest m = Some s -> fst s = x -> (j + m)%nat <> i ->
    lag_inner x i xi rest j basis = 0.
Proof.
  induction rest as [|sj rest IH]; intros j m s basis Hm Hs Ne.
  - destruct m; discriminate.
  - cbn [lag_inner]. destruct m as [|m].
    + injection Hm as ->.
      replace (Nat.eqb i j) with false by (symmetry; apply Nat.eqb_neq; lia).
      rewrite Hs.
      replace (basis * ((x - x) / (xi - x))) with 0;
        [apply lag_inner_0|].
      replace (x - x) with 0 by ring. rewrite kdiv_0_l. ring.
    + simpl in Hm. destruct (Nat.eqb i j);
        apply (IH (S j) m s); try assumption; lia.
Qed.

(** At its own node a basis product is 1. *)
Lemma lag_inner_own (i : nat) (xi : K) (rest : list (K * K)) :
  forall j : nat,
    (forall m s, nth_error rest m = Some s -> (j + m)%nat <> i ->
                 fst s <> xi) ->
    lag_inner xi i xi rest j 1 = 1.
Proof.
  induction rest as [|sj rest IH]; intros j Hne; [reflexivity|].
  cbn [lag_inner].
  assert (Hrest : forall m s, nth_error rest m = Some s ->
                    (S j + m)%nat <> i -> fst s <> xi).
  { intros m s Hm Hi. apply (Hne (S m) s); [exact Hm|lia]. }
  destruct (Nat.eqb_spec i j) as [E|Ne]; [apply IH, Hrest|].
  rewrite kdiv_self.
  - replace (1 * 1) with 1 by ring. apply IH, Hrest.
  - apply ksub_neq_0. intros E. apply (Hne 0%nat sj); [reflexivity|lia|].
    symmetry. exact E.
Qed.

Section Nodes.

Variable samples : list (K * K).
Hypothesis distinct_x : NoDup (map fst samples).
Variables (k : nat) (xk yk : K).
Hypothesis sample_k : nth_error samples k = Some (xk, yk).

Lemma other_x (m : nat) (s : K * K) :
  nth_error samples m = Some s -> m <> k -> fst s <> xk.
Proof.
  intros Hm Ne E. apply Ne.
  apply (proj1 (NoDup_nth_error (map fst samples)) distinct_x).
  - rewrite length_map. apply nth_error_Some. congruence.
  - rewrite !nth_error_map, Hm, sample_k. simpl. f_equal. exact E.
Qed.

Lemma lag_outer_past (rest : list (K * K)) :
  forall (i : nat) (result : K),
    (k < i)%nat ->
    (forall m, nth_error rest m = nth_error samples (i + m)) ->
    lag_outer samples xk rest i result = result.
Proof.
  induction rest as [|si rest IH]; intros i result Hki Hsuf; [reflexivity|].
  cbn [lag_outer].
  rewrite (lag_inner_node xk i (fst si) samples 0 k (xk, yk) 1);
    [|exact sample_k|reflexivity|simpl; lia].
  replace (result + snd si * 0) with result by ring.
  apply IH; [lia|]. intros m.
  replace (S i + m)%nat with (i + S m)%nat by lia. apply (Hsuf (S m)).
Qed.

Lemma lag_outer_node (rest : list (K * K)) :
  forall (i : nat) (result : K),
    (i <= k < i + length rest)%nat ->
    (forall m, nth_error rest m = nth_error samples (i + m)) ->
    lag_outer samples xk rest i result = result + yk.
Proof.
  induction rest as [|si rest IH]; intros i result Hik Hsuf.
  - simpl in Hik. lia.
  - cbn [lag_outer].
    assert (Hsuf' : forall m, nth_error rest m = nth_error samples (S i + m)).
    { intros m. replace (S i + m)%nat with (i + S m)%nat by lia.
      apply (Hsuf (S m)). }
    destruct (Nat.eq_dec i k) as [->|Ne].
    + pose proof (Hsuf 0%nat) as E. rewrite Nat.add_0_r, sample_k in E.
      injection E as ->. cbn [fst snd].
      rewrite lag_inner_own.
      * rewrite lag_outer_past by (lia || exact Hsuf'). ring.
      * intros m s Hm Hne. apply (other_x m s Hm). simpl in Hne. lia.
    + rewrite (lag_inner_node xk i (fst si) samples 0 k (xk, yk) 1);
        [|exact sample_k|reflexivity|simpl; lia].
      replace (result + snd si * 0) with result by ring.
      apply IH; [simpl in Hik; lia|exact Hsuf'].
Qed.

Lemma lagrange_node : lagrange samples xk = yk.
Proof.
  unfold lagrange. rewrite lag_outer_node.
  - ring.
  - split; [lia|]. simpl. apply nth_error_Some. rewrite sample_k. discriminate.
  - intros m. reflexivity.
Qed.

End Nodes.

(** Interpolating samples of a polynomial gives back the polynomial. *)
Theorem lagrange_peval (samples : list (K * K)) (c : list K) :
  (length c <= length samples)%nat ->
  NoDup (map fst samples) ->
  (forall s, In s samples -> snd s = peval c (fst s)) ->
  forall x, lagrange samples x = peval c x.
Proof.
  intros Hc ND Hs x. apply ksub_eq_0.
  apply (polyfun_roots (length samples)
           (fun x => lagrange samples x - peval c x) (map fst samples)).
  - apply (polyfun_ext _ (fun x => lagrange samples x + kopp 1 * peval c x)).
    + intros y. ring.
    + apply polyfun_add; [apply lagrange_polyfun|].
      apply polyfun_scale. exists c. split; [exact Hc|reflexivity].
  - exact ND.
  - apply length_map.
  - intros r Hr. apply in_map_iff in Hr. destruct Hr as [[xr yr] [<- Hin]].
    destruct (In_nth_error _ _ Hin) as [k Hk].
    cbn [fst]. rewrite (lagrange_node samples ND k xr yr Hk).
    pose proof (Hs _ Hin) as E. cbn [fst snd] in E. rewrite E. ring.
Qed.

(** ** Horner's loop *)

Lemma horner_app (l1 l2 : list K) (x r : K) :
  horner (l1 ++ l2) x (length l1) r =
  fold_right (fun a acc => a + x * acc) r l1.
Proof.
  revert l2 r. induction l1 as [|a l1 IH] using rev_ind; intros l2 r;
    [reflexivity|].
  rewrite length_app, Nat.add_comm. cbn [length Nat.add horner].
  rewrite <- app_assoc. rewrite app_nth2 by lia.
  rewrite Nat.sub_diag. cbn [app nth].
  rewrite IH, fold_right_app. cbn [fold_right]. f_equal. ring.
Qed.

Lemma horner_fold_left (l1 l2 : list K) (x r : K) :
  horner (l1 ++ l2) x (length l1) r =
  fold_left (fun acc a => acc * x + a) (rev l1) r.
Proof.
  revert l2 r. induction l1 as [|a l1 IH] using rev_ind; intros l2 r;
    [reflexivity|].
  rewrite length_app, Nat.add_comm. cbn [length Nat.add horner].
  rewrite <- app_assoc. rewrite app_nth2 by lia.
  rewrite Nat.sub_diag. cbn [app nth].
  rewrite IH, rev_app_distr. reflexivity.
Qed.

(** Horner's loop started from the leading coefficient computes the
    polynomial's value. *)
Lemma horner_peval (c : list K) (a : K) (x : K) :
  horner (c ++ [a]) x (length c) a = peval (c ++ [a]) x.
Proof.
  rewrite horner_app. unfold peval. rewrite fold_right_app.
  cbn [fold_right]. f_equal. ring.
Qed.

Lemma term_sum_peval (c : list K) (x : K) (i : nat) :
  term_sum c x i = kpow x i * peval c x.
Proof.
  revert i. induction c as [|a c IH]; intros i.
  - change (peval [] x) with 0. simpl. ring.
  - cbn [term_sum]. rewrite IH, peval_cons. cbn [kpow]. ring.
Qed.

End Lagrange.

(** * The bytes as a field *)

Definition is_byte (z : Z) : bool := (0 <=? z) && (z <=? 255).

Lemma is_byte_true (z : Z) : is_byte z = true <-> byte z.
Proof.
  unfold is_byte, byte. rewrite andb_true_iff, !Z.leb_le. reflexivity.
Qed.

Lemma is_byte_mod (z : Z) : is_byte (z mod 256) = true.
Proof.
  apply is_byte_true. unfold byte.
  pose proof (Z.mod_pos_bound z 256). lia.
Qed.

(** Field elements: the integers that are bytes. *)
Definition el : Type := {z : Z | is_byte z = true}.

Definition val (a : el) : Z := proj1_sig a.

Definition to_el (z : Z) : el := exist _ (z mod 256) (is_byte_mod z).

Lemma byte_val (a : el) : byte (val a).
Proof. apply is_byte_true. exact (proj2_sig a). Qed.

Lemma val_to_el (z : Z) : byte z -> val (to_el z) = z.
Proof. intros H. unfold val, to_el. simpl. apply byte_mod, H. Qed.

Lemma el_eq (a b : el) : val a = val b -> a = b.
Proof.
  destruct a as [x Hx], b as [y Hy]. unfold val. simpl. intros E.
  subst y. f_equal. apply Eqdep_dec.UIP_dec, bool_dec.
Qed.

Lemma to_el_val (a : el) : to_el (val a) = a.
Proof. apply el_eq. apply val_to_el, byte_val. Qed.

Lemma map_val_to_el (l : list Z) :
  Forall byte l -> map val (map to_el l) = l.
Proof.
  induction 1 as [|z l Hz _ IH]; [reflexivity|].
  simpl. rewrite IH. f_equal. apply val_to_el, Hz.
Qed.

(** The value a call returned, 0 when it returned none. *)
Definition returned (o : outcome Z) : Z :=
  match o with
  | Ret v => v
  | _ => 0
  end.

Section ByteField.

Variables poly gen : Z.
Hypothesis gen_range : byte gen.
Hypothesis distinct_powers : NoDup (powers poly gen 255).

Local Abbreviation pw := (power poly gen).
Local Abbreviation F := (tables poly gen).

(** The operations of the field [F], on field elements. *)
Definition el_add (a b : el) : el :=
  to_el (returned (GF256.add F (val a) (val b))).
Definition el_mul (a b : el) : el :=
  to_el (returned (GF256.mul F (val a) (val b))).
Definition el_div (a b : el) : el :=
  to_el (returned (GF256.div F (val a) (val b))).
Definition el_inv (a : el) : el :=
  to_el (returned (GF256.inv F (val a))).
Definition el_opp (a : el) : el := a.

Lemma add_val (a b : el) :
  GF256.add F (val a) (val b) = Ret (Z.lxor (val a) (val b)).
Proof.
  unfold GF256.add. rewrite !validateByte_ok by apply byte_val. reflexivity.
Qed.

Lemma val_el_add (a b : el) : val (el_add a b) = Z.lxor (val a) (val b).
Proof.
  unfold el_add. rewrite add_val. cbn [returned].
  apply val_to_el, byte_lxor; apply byte_val.
Qed.

Lemma mul_val (a b : el) :
  GF256.mul F (val a) (val b) = Ret (GF256.mulByte_val (val a) (val b) poly).
Proof. apply mul_mulByte_val; (assumption || apply byte_val). Qed.

Lemma val_el_mul (a b : el) :
  val (el_mul a b) = GF256.mulByte_val (val a) (val b) poly.
Proof.
  unfold el_mul. rewrite mul_val. cbn [returned].
  apply val_to_el, byte_mulByte_val.
Qed.

Lemma el_nonzero (a : el) : a <> to_el 0 -> val a <> 0.
Proof. intros Ne E. apply Ne, el_eq. rewrite E. reflexivity. Qed.

Lemma val_el_inv_0 (a : el) : val a = 0 -> val (el_inv a) = 0.
Proof. intros E. unfold el_inv. rewrite E. reflexivity. Qed.

Lemma val_el_inv_power (a : el) (i : nat) :
  (i < 255)%nat -> val a = pw i -> val (el_inv a) = pw (255 - i).
Proof.
  intros Hi E. unfold el_inv.
  rewrite E, (inv_power poly gen distinct_powers i Hi). cbn [returned].
  apply val_to_el, byte_power.
Qed.

Lemma div_val (a b : el) :
  val b <> 0 -> GF256.div F (val a) (val b) = Ret (val (el_div a b)).
Proof.
  intros Nb. unfold el_div.
  destruct (Z.eq_dec (val a) 0) as [Ea|Na].
  - rewrite Ea. unfold GF256.div.
    rewrite !validateByte_ok by (apply byte_val || (unfold byte; lia)).
    cbn [bind]. rewrite eqb_0_false by exact Nb. reflexivity.
  - destruct (power_onto poly gen distinct_powers _ (byte_val a) Na)
      as [i [Hi Ei]].
    destruct (power_onto poly gen distinct_powers _ (byte_val b) Nb)
      as [j [Hj Ej]].
    rewrite <- Ei, <- Ej, div_powers by assumption. cbn [returned].
    rewrite val_to_el by apply byte_power. reflexivity.
Qed.

Lemma el_div_def (a b : el) : el_div a b = el_mul a (el_inv b).
Proof.
  apply el_eq. rewrite val_el_mul.
  destruct (Z.eq_dec (val b) 0) as [Eb|Nb].
  - rewrite (val_el_inv_0 b Eb), mulByte_val_0_r.
    unfold el_div. rewrite Eb. unfold GF256.div.
    rewrite !validateByte_ok by (apply byte_val || (unfold byte; lia)).
    reflexivity.
  - destruct (power_onto poly gen distinct_powers _ (byte_val b) Nb)
      as [j [Hj Ej]].
    rewrite (val_el_inv_power b j Hj (eq_sym Ej)).
    destruct (Z.eq_dec (val a) 0) as [Ea|Na].
    + rewrite Ea, mulByte_val_0_l. unfold el_div. rewrite Ea.
      unfold GF256.div.
      rewrite !validateByte_ok by (apply byte_val || (unfold byte; lia)).
      cbn [bind]. rewrite eqb_0_false by exact Nb. reflexivity.
    + destruct (power_onto poly gen distinct_powers _ (byte_val a) Na)
        as [i [Hi Ei]].
      unfold el_div.
      rewrite <- Ei, <- Ej, div_powers by assumption. cbn [returned].
      rewrite val_to_el by apply byte_power.
      rewrite power_add by exact gen_range. reflexivity.
Qed.

Lemma el_inv_l (a : el) : a <> to_el 0 -> el_mul (el_inv a) a = to_el 1.
Proof.
  intros Ne. apply el_nonzero in Ne. apply el_eq. rewrite val_el_mul.
  destruct (power_onto poly gen distinct_powers _ (byte_val a) Ne)
    as [i [Hi Ei]].
  rewrite (val_el_inv_power a i Hi (eq_sym Ei)), <- Ei.
  rewrite power_add by exact gen_range.
  replace (255 - i + i)%nat with 255%nat by lia.
  rewrite (power_255 poly gen distinct_powers). reflexivity.
Qed.

Lemma el_ring :
  ring_theory (to_el 0) (to_el 1) el_add el_mul el_add el_opp eq.
Proof.
  constructor; intros; apply el_eq;
    rewrite ?val_el_add, ?val_el_mul, ?val_el_add, ?val_el_mul.
  - apply Z.lxor_0_l.
  - apply Z.lxor_comm.
  - symmetry. apply Z.lxor_assoc.
  - rewrite mulByte_val_comm by (apply byte_val || (unfold byte; simpl; lia)).
    apply mulByte_val_1_r, byte_val.
  - apply mulByte_val_comm; apply byte_val.
  - symmetry. apply mulByte_val_assoc; apply byte_val.
  - apply mulByte_val_lxor_l.
  - reflexivity.
  - apply Z.lxor_nilpotent.
Qed.

Lemma el_field :
  field_theory (to_el 0) (to_el 1) el_add el_mul el_add el_opp
               el_div el_inv eq.
Proof.
  constructor.
  - exact el_ring.
  - intros E. apply (f_equal val) in E. discriminate.
  - exact el_div_def.
  - exact el_inv_l.
Qed.

End ByteField.


(** * The programs on field elements *)

(** The sum the specification gives for [evaluate]: each coefficient times
    the matching power of [x], the power being a repeated [mul] and the sum
    a repeated [add]. *)
Fixpoint field_pow (F : GF256.t) (x : Z) (i : nat) : outcome Z :=
  match i with
  | O => Ret 1
  | S i' => p <- field_pow F x i' ;; GF256.mul F p x
  end.

Fixpoint sum_of_terms (F : GF256.t) (coefficients : list Z) (x : Z) (i : nat)
  : outcome Z :=
  match coefficients with
  | [] => Ret 0
  | c :: rest =>
      p <- field_pow F x i ;;
      t <- GF256.mul F c p ;;
      s <- sum_of_terms F rest x (S i) ;;
      GF256.add F t s
  end.

(** Horner's method as the specification words it: start from the
    highest-degree coefficient and fold
    [accumulator = add(mul(accumulator, x), coefficient)] down to the
    constant term. *)
Definition horner_step (F : GF256.t) (x : Z) (acc : outcome Z) (c : Z)
  : outcome Z :=
  a <- acc ;; m <- GF256.mul F a x ;; GF256.add F m c.

Definition horner_fold (F : GF256.t) (coefficients : list Z) (x : Z)
  : outcome Z :=
  match rev coefficients with
  | [] => Throw EmptyPolynomial
  | top :: lower => fold_left (horner_step F x) lower (Ret top)
  end.

(** A sample point of field elements as the program sees it. *)
Definition pt (s : el * el) : Point := mkPoint (val (fst s)) (val (snd s)).

Section FieldPrograms.

Variables poly gen : Z.
Hypothesis gen_range : byte gen.
Hypothesis distinct_powers : NoDup (powers poly gen 255).

Local Abbreviation F := (tables poly gen).
Local Abbreviation e0 := (to_el 0).
Local Abbreviation e1 := (to_el 1).
Local Abbreviation eadd := (el_add poly gen).
Local Abbreviation emul := (el_mul poly gen).
Local Abbreviation ediv := (el_div poly gen).
Local Abbreviation Fth := (el_field poly gen gen_range distinct_powers).

Lemma add_el (a b : el) :
  GF256.add F (val a) (val b) = Ret (val (eadd a b)).
Proof. rewrite val_el_add. apply add_val. Qed.

Lemma mul_el (a b : el) :
  GF256.mul F (val a) (val b) = Ret (val (emul a b)).
Proof.
  rewrite (val_el_mul poly gen gen_range distinct_powers).
  apply mul_val; assumption.
Qed.

Lemma read_el (cs : list el) (i : nat) :
  (i < length cs)%nat ->
  u8_read (map val cs) (Z.of_nat i) = Ret (val (nth i cs e0)).
Proof.
  intros Hi. apply u8_read_Some. unfold u8_get.
  replace (Z.of_nat i <? 0) with false by (symmetry; apply Z.ltb_ge; lia).
  rewrite Nat2Z.id, nth_error_map, (nth_error_nth' cs e0 Hi). reflexivity.
Qed.

Lemma evaluate_loop_horner (cs : list el) (x : el) (n : nat) (r : el) :
  (n <= length cs)%nat ->
  GF256.evaluate_loop F (map val cs) (val x) n (val r) =
  Ret (val (horner el e0 eadd emul cs x n r)).
Proof.
  revert r. induction n as [|n IH]; intros r Hn; [reflexivity|].
  cbn [GF256.evaluate_loop horner].
  rewrite mul_el. cbn [bind]. rewrite read_el by lia. cbn [bind].
  rewrite add_el. cbn [bind]. apply IH. lia.
Qed.

Lemma evaluate_el (cs : list el) (x : el) :
  cs <> [] -> val x <> 0 ->
  GF256.evaluate F (map val cs) (val x) =
  Ret (val (peval el e0 eadd emul cs x)).
Proof.
  intros Hcs Hx.
  destruct (exists_last Hcs) as [c [a ->]].
  unfold GF256.evaluate. rewrite validateByte_ok by apply byte_val.
  cbn [bind]. rewrite length_map, length_app. cbn [length].
  replace (Z.of_nat (length c + 1) =? 0) with false
    by (symmetry; apply Z.eqb_neq; lia).
  rewrite eqb_0_false by exact Hx.
  replace (Z.of_nat (length c + 1) - 1) with (Z.of_nat (length c)) by lia.
  rewrite read_el by (rewrite length_app; simpl; lia). cbn [bind].
  rewrite app_nth2, Nat.sub_diag by lia. cbn [nth].
  rewrite Nat2Z.id.
  rewrite evaluate_loop_horner by (rewrite length_app; simpl; lia).
  rewrite (horner_peval el e0 e1 eadd emul eadd (fun a => a) ediv
             (el_inv poly gen) Fth).
  reflexivity.
Qed.

Lemma horner_fold_el (l : list el) (x r : el) :
  fold_left (horner_step F (val x)) (map val l) (Ret (val r)) =
  Ret (val (fold_left (fun acc a => eadd (emul acc x) a) l r)).
Proof.
  revert r. induction l as [|a l IH]; intros r; [reflexivity|].
  cbn [map fold_left]. unfold horner_step at 2. cbn [bind].
  rewrite mul_el. cbn [bind]. rewrite add_el. apply IH.
Qed.

Lemma evaluate_horner_fold (cs : list el) (x : el) :
  cs <> [] -> val x <> 0 ->
  GF256.evaluate F (map val cs) (val x) = horner_fold F (map val cs) (val x).
Proof.
  intros Hcs Hx.
  destruct (exists_last Hcs) as [c [a ->]].
  unfold GF256.evaluate. rewrite validateByte_ok by apply byte_val.
  cbn [bind]. rewrite length_map, length_app. cbn [length].
  replace (Z.of_nat (length c + 1) =? 0) with false
    by (symmetry; apply Z.eqb_neq; lia).
  rewrite eqb_0_false by exact Hx.
  replace (Z.of_nat (length c + 1) - 1) with (Z.of_nat (length c)) by lia.
  rewrite read_el by (rewrite length_app; simpl; lia). cbn [bind].
  rewrite app_nth2, Nat.sub_diag by lia. cbn [nth].
  rewrite Nat2Z.id.
  rewrite evaluate_loop_horner by (rewrite length_app; simpl; lia).
  rewrite (horner_fold_left el e0 eadd emul).
  unfold horner_fold. rewrite <- map_rev, rev_app_distr. cbn [rev app map].
  rewrite horner_fold_el. reflexivity.
Qed.

Lemma field_pow_el (x : el) (i : nat) :
  field_pow F (val x) i = Ret (val (kpow el e1 emul x i)).
Proof.
  induction i as [|i IH]; [reflexivity|].
  cbn [field_pow kpow]. rewrite IH. cbn [bind]. apply mul_el.
Qed.

Lemma sum_of_terms_el (cs : list el) (x : el) (i : nat) :
  sum_of_terms F (map val cs) (val x) i =
  Ret (val (term_sum el e0 e1 eadd emul cs x i)).
Proof.
  revert i. induction cs as [|c cs IH]; intros i; [reflexivity|].
  cbn [map sum_of_terms term_sum].
  rewrite field_pow_el. cbn [bind]. rewrite mul_el. cbn [bind].
  rewrite IH. cbn [bind]. apply add_el.
Qed.

(** ** [interpolate] *)

Lemma val_neq (a b : el) : a <> b -> Z.lxor (val a) (val b) <> 0.
Proof. intros Ne E. apply Ne, el_eq, lxor_eq_0, E. Qed.

Lemma interpolate_inner_el (x : el) (i : nat) (si : el * el)
  (rest : list (el * el)) :
  forall (j : nat) (b : el),
    (forall m s, nth_error rest m = Some s -> (j + m)%nat <> i ->
                 fst s <> fst si) ->
    GF256.interpolate_inner F (val x) i (pt si) (map pt rest) j (val b) =
    Ret (val (lag_inner el emul eadd ediv x i (fst si) rest j b)).
Proof.
  induction rest as [|sj rest IH]; intros j b Hne; [reflexivity|].
  assert (Hrest : forall m s, nth_error rest m = Some s ->
                    (S j + m)%nat <> i -> fst s <> fst si).
  { intros m s Hm Hi. apply (Hne (S m) s); [exact Hm|lia]. }
  cbn [map GF256.interpolate_inner lag_inner].
  destruct (Nat.eqb_spec i j) as [E|Ne]; [apply IH, Hrest|].
  unfold pt at 1 2 3. cbn [px].
  rewrite !add_el. cbn [bind].
  rewrite (div_val poly gen distinct_powers).
  - cbn [bind]. rewrite mul_el. cbn [bind]. apply IH, Hrest.
  - rewrite val_el_add. apply val_neq. intros E.
    apply (Hne 0%nat sj); [reflexivity|lia|]. symmetry. exact E.
Qed.

Section Samples.

Variable samples : list (el * el).
Hypothesis distinct_x : NoDup (map fst samples).

Lemma interpolate_outer_el (x : el) (rest : list (el * el)) :
  forall (i : nat) (r : el),
    (forall m, nth_error rest m = nth_error samples (i + m)) ->
    GF256.interpolate_outer F (map pt samples) (val x) (map pt rest) i (val r) =
    Ret (val (lag_outer el e1 eadd emul eadd ediv samples x rest i r)).
Proof.
  induction rest as [|si rest IH]; intros i r Hsuf; [reflexivity|].
  cbn [map GF256.interpolate_outer lag_outer].
  change (GF256.interpolate_inner F (val x) i (pt si) (map pt samples) 0 1)
    with (GF256.interpolate_inner F (val x) i (pt si) (map pt samples) 0
            (val e1)).
  rewrite (interpolate_inner_el x i si samples 0 e1).
  - cbn [bind]. unfold pt at 1. cbn [py].
    rewrite mul_el. cbn [bind]. rewrite add_el. cbn [bind].
    apply IH. intros m. replace (S i + m)%nat with (i + S m)%nat by lia.
    apply (Hsuf (S m)).
  - intros m s Hm Hi. destruct si as [xi yi]. cbn [fst].
    assert (Hk : nth_error samples i = Some (xi, yi)).
    { pose proof (Hsuf 0%nat) as E. rewrite Nat.add_0_r in E.
      symmetry. exact E. }
    apply (other_x el samples distinct_x i xi yi Hk m s Hm).
    simpl in Hi. lia.
Qed.

Lemma interpolate_el (x : el) :
  samples <> [] ->
  GF256.interpolate F (map pt samples) (val x) =
  Ret (val (lagrange el e0 e1 eadd emul eadd ediv samples x)).
Proof.
  intros Hs. unfold GF256.interpolate.
  rewrite validateByte_ok by apply byte_val. cbn [bind].
  replace (Z.of_nat (length (map pt samples)) =? 0) with false.
  - apply (interpolate_outer_el x samples 0 e0). intros m. reflexivity.
  - symmetry. apply Z.eqb_neq. rewrite length_map.
    destruct samples; [congruence|simpl; lia].
Qed.

End Samples.

End FieldPrograms.


(** ** From bytes to field elements and back *)

Section BytePrograms.

Variables poly gen : Z.
Hypothesis gen_range : byte gen.
Hypothesis distinct_powers : NoDup (powers poly gen 255).

Local Abbreviation F := (tables poly gen).
Local Abbreviation e0 := (to_el 0).
Local Abbreviation e1 := (to_el 1).
Local Abbreviation eadd := (el_add poly gen).
Local Abbreviation emul := (el_mul poly gen).
Local Abbreviation ediv := (el_div poly gen).
Local Abbreviation Fth := (el_field poly gen gen_range distinct_powers).

(** The value of the polynomial with byte coefficients [cs] at the byte
    [x]. *)
Definition poly_value (cs : list Z) (x : Z) : Z :=
  val (peval el e0 eadd emul (map to_el cs) (to_el x)).

Lemma map_to_el_nil (cs : list Z) : cs <> [] -> map to_el cs <> [].
Proof. destruct cs; [congruence|discriminate]. Qed.

Lemma evaluate_bytes (cs : list Z) (x : Z) :
  Forall byte cs -> cs <> [] -> byte x -> x <> 0 ->
  GF256.evaluate F cs x = Ret (poly_value cs x).
Proof.
  intros Hcs Hne Hx Nx. unfold poly_value.
  rewrite <- (evaluate_el poly gen gen_range distinct_powers).
  - rewrite map_val_to_el, val_to_el by assumption. reflexivity.
  - apply map_to_el_nil, Hne.
  - rewrite val_to_el by exact Hx. exact Nx.
Qed.

Lemma horner_fold_bytes (cs : list Z) (x : Z) :
  Forall byte cs -> cs <> [] -> byte x -> x <> 0 ->
  horner_fold F cs x = Ret (poly_value cs x).
Proof.
  intros Hcs Hne Hx Nx.
  rewrite <- (evaluate_bytes cs x Hcs Hne Hx Nx).
  rewrite <- (map_val_to_el cs Hcs), <- (val_to_el x Hx).
  symmetry. apply (evaluate_horner_fold poly gen gen_range distinct_powers).
  - apply map_to_el_nil, Hne.
  - rewrite val_to_el by exact Hx. exact Nx.
Qed.

Lemma sum_of_terms_bytes (cs : list Z) (x : Z) :
  Forall byte cs -> byte x ->
  sum_of_terms F cs x 0 = Ret (poly_value cs x).
Proof.
  intros Hcs Hx. unfold poly_value.
  rewrite <- (map_val_to_el cs Hcs) at 1. rewrite <- (val_to_el x Hx) at 1.
  rewrite (sum_of_terms_el poly gen gen_range distinct_powers).
  rewrite (term_sum_peval el e0 e1 eadd emul eadd (fun a => a) ediv
             (el_inv poly gen) Fth).
  cbn [kpow]. rewrite (Rmul_1_l (F_R Fth)). reflexivity.
Qed.

(** The samples as field elements. *)
Definition el_samples (samples : list Point) : list (el * el) :=
  map (fun s => (to_el (px s), to_el (py s))) samples.

Lemma pt_el_samples (samples : list Point) :
  Forall (fun s => byte (px s) /\ byte (py s)) samples ->
  map pt (el_samples samples) = samples.
Proof.
  induction 1 as [|[x y] l [Hx Hy] _ IH]; [reflexivity|].
  unfold el_samples in *. cbn [map]. rewrite IH. f_equal.
  unfold pt. cbn [fst snd px py] in *. rewrite !val_to_el by assumption.
  reflexivity.
Qed.

Lemma NoDup_el_samples (samples : list Point) :
  Forall (fun s => byte (px s)) samples ->
  NoDup (map px samples) -> NoDup (map fst (el_samples samples)).
Proof.
  intros Hb ND. apply (NoDup_map_inv val).
  unfold el_samples. rewrite !map_map. cbn [fst].
  replace (map (fun s => val (to_el (px s))) samples) with (map px samples);
    [exact ND|].
  apply map_ext_in. intros s Hs. symmetry. apply val_to_el.
  revert s Hs. apply Forall_forall, Hb.
Qed.

(** Interpolating samples of a polynomial evaluates the polynomial. *)
Lemma interpolate_bytes (cs : list Z) (samples : list Point) (x : Z) :
  Forall byte cs -> cs <> [] -> length cs = length samples ->
  Forall (fun s => byte (px s) /\ px s <> 0 /\
                   GF256.evaluate F cs (px s) = Ret (py s)) samples ->
  NoDup (map px samples) ->
  byte x ->
  GF256.interpolate F samples x = Ret (poly_value cs x).
Proof.
  intros Hcs Hne Hlen Hs ND Hx.
  assert (Hy : Forall (fun s => py s = poly_value cs (px s)) samples).
  { apply Forall_forall. intros s Hin.
    destruct (proj1 (Forall_forall _ _) Hs s Hin) as [Bx [Nx Ev]].
    rewrite (evaluate_bytes cs (px s) Hcs Hne Bx Nx) in Ev.
    injection Ev as <-. reflexivity. }
  assert (Hxy : Forall (fun s => byte (px s) /\ byte (py s)) samples).
  { apply Forall_forall. intros s Hin.
    destruct (proj1 (Forall_forall _ _) Hs s Hin) as [Bx _].
    split; [exact Bx|].
    rewrite (proj1 (Forall_forall _ _) Hy s Hin). apply byte_val. }
  rewrite <- (pt_el_samples samples Hxy) at 1.
  rewrite <- (val_to_el x Hx) at 1.
  rewrite (interpolate_el poly gen gen_range distinct_powers).
  - unfold poly_value. do 2 f_equal.
    apply (lagrange_peval el e0 e1 eadd emul eadd (fun a => a) ediv
             (el_inv poly gen) Fth).
    + unfold el_samples. rewrite !length_map. lia.
    + apply NoDup_el_samples; [|exact ND].
      apply Forall_forall. intros s Hin.
      exact (proj1 (proj1 (Forall_forall _ _) Hxy s Hin)).
    + intros s Hin. unfold el_samples in Hin. apply in_map_iff in Hin.
      destruct Hin as [s0 [<- Hin]]. cbn [fst snd].
      rewrite (proj1 (Forall_forall _ _) Hy s0 Hin).
      unfold poly_value. apply to_el_val.
  - apply NoDup_el_samples; [|exact ND].
    apply Forall_forall. intros s Hin.
    exact (proj1 (proj1 (Forall_forall _ _) Hxy s Hin)).
  - unfold el_samples. destruct samples; [|discriminate].
    destruct cs; [congruence|discriminate].
Qed.

End BytePrograms.

(** * The stated properties *)

(** C1: in a constructed field, [exp] and [log] are mutual inverses on the
    255 nonzero bytes: [exp[log[v]] = v] for every nonzero byte [v],
    [log[exp[i]] = i] for every [i] in [0,255), and the first 255 entries of
    [exp] are exactly the 255 distinct nonzero bytes. *)
Theorem exp_log_inverse (poly gen : Z) (F : GF256.t) :
  GF256.new poly gen = Ret F ->
  (forall v, byte v -> v <> 0 ->
     exists l, u8_get (GF256.log F) v = Some l /\ 0 <= l < 255 /\
               u8_get (GF256.exp F) l = Some v) /\
  (forall i, 0 <= i < 255 ->
     exists x, u8_get (GF256.exp F) i = Some x /\ byte x /\ x <> 0 /\
               u8_get (GF256.log F) x = Some i) /\
  NoDup (firstn 255 (GF256.exp F)) /\
  (forall v, In v (firstn 255 (GF256.exp F)) <-> byte v /\ v <> 0).
Proof.
  intros H. apply new_inv in H. destruct H as [Hp [Hg [ND ->]]].
  split; [|split; [|split]].
  - intros v Hv Nz.
    destruct (log_get poly gen ND v Hv Nz) as [k [Hk [E El]]].
    exists (Z.of_nat k). split; [exact El|]. split; [lia|].
    rewrite exp_power by (assumption || lia). rewrite E. reflexivity.
  - intros i Hi. exists (power poly gen (Z.to_nat i)).
    split; [|split; [|split]].
    + rewrite <- (Z2Nat.id i) at 1 by lia.
      apply exp_power; [exact ND|lia].
    + apply byte_power.
    + apply power_nonzero; [exact ND|lia].
    + rewrite log_power by (assumption || lia). f_equal. lia.
  - rewrite firstn_exp_powers. exact ND.
  - intros v. rewrite firstn_exp_powers, (In_powers poly gen v). split.
    + intros [k [Hk <-]]. split; [apply byte_power|].
      apply power_nonzero; assumption.
    + intros [Hv Nz]. apply power_onto; assumption.
Qed.

Lemma exp_log_inverse_witness :
  (forall v, byte v -> v <> 0 ->
     exists l, u8_get (GF256.log aes_field) v = Some l /\ 0 <= l < 255 /\
               u8_get (GF256.exp aes_field) l = Some v) /\
  (forall i, 0 <= i < 255 ->
     exists x, u8_get (GF256.exp aes_field) i = Some x /\ byte x /\ x <> 0 /\
               u8_get (GF256.log aes_field) x = Some i) /\
  NoDup (firstn 255 (GF256.exp aes_field)) /\
  (forall v, In v (firstn 255 (GF256.exp aes_field)) <-> byte v /\ v <> 0).
Proof.
  apply (exp_log_inverse 283 3 aes_field). vm_compute. reflexivity.
Defined.

(** C2: in a constructed field the table-based [mul] returns, for all bytes
    [a] and [b], the byte that [mulByte(a, b, poly)] returns. *)
Theorem mul_refines_mulByte (poly gen : Z) (F : GF256.t) (a b : Z) :
  GF256.new poly gen = Ret F -> byte a -> byte b ->
  GF256.mul F a b = GF256.mulByte a b (GF256.poly F) /\
  exists v, GF256.mul F a b = Ret v /\ byte v.
Proof.
  intros H Ha Hb. apply new_inv in H. destruct H as [Hp [Hg [ND ->]]].
  unfold tables at 2. cbn [GF256.poly].
  rewrite (mulByte_ok poly a b Ha Hb Hp).
  rewrite (mul_mulByte_val poly gen Hg ND a b Ha Hb).
  split; [reflexivity|].
  exists (GF256.mulByte_val a b poly).
  split; [reflexivity|apply byte_mulByte_val].
Qed.

Lemma mul_refines_mulByte_witness :
  GF256.mul aes_field 87 131 = GF256.mulByte 87 131 (GF256.poly aes_field) /\
  exists v, GF256.mul aes_field 87 131 = Ret v /\ byte v.
Proof.
  apply (mul_refines_mulByte 283 3 aes_field 87 131).
  - vm_compute. reflexivity.
  - unfold byte. lia.
  - unfold byte. lia.
Defined.

(** C4: for byte operands, [div] throws "division by zero" exactly when
    [b = 0]; [div(0, b) = 0] for nonzero [b]; and for nonzero [a] and [b] it
    returns [exp[diff]], [diff] being [log[a] - log[b]] plus 255 when that
    difference is negative. *)
Theorem div_cases (poly gen : Z) (F : GF256.t) (a b : Z) :
  GF256.new poly gen = Ret F -> byte a -> byte b ->
  (GF256.div F a b = Throw DivisionByZero <-> b = 0) /\
  (b <> 0 -> GF256.div F 0 b = Ret 0) /\
  (a <> 0 -> b <> 0 ->
   exists la lb v,
     u8_get (GF256.log F) a = Some la /\
     u8_get (GF256.log F) b = Some lb /\
     u8_get (GF256.exp F)
       (if la - lb <? 0 then la - lb + 255 else la - lb) = Some v /\
     GF256.div F a b = Ret v).
Proof.
  intros H Ha Hb. apply new_inv in H. destruct H as [Hp [Hg [ND ->]]].
  assert (Hnz : a <> 0 -> b <> 0 ->
    exists la lb v,
     u8_get (GF256.log (tables poly gen)) a = Some la /\
     u8_get (GF256.log (tables poly gen)) b = Some lb /\
     u8_get (GF256.exp (tables poly gen))
       (if la - lb <? 0 then la - lb + 255 else la - lb) = Some v /\
     GF256.div (tables poly gen) a b = Ret v).
  { intros Na Nb.
    destruct (log_get poly gen ND a Ha Na) as [i [Hi [Ei Li]]].
    destruct (log_get poly gen ND b Hb Nb) as [j [Hj [Ej Lj]]].
    exists (Z.of_nat i), (Z.of_nat j), (power poly gen (i + (255 - j))).
    split; [exact Li|]. split; [exact Lj|].
    pose proof (div_powers poly gen ND i j Hi Hj) as D.
    rewrite Ei, Ej in D. split; [|exact D].
    unfold GF256.div in D.
    rewrite !validateByte_ok in D by assumption. cbn [bind] in D.
    rewrite !eqb_0_false in D by assumption.
    rewrite (u8_read_Some _ _ _ Li), (u8_read_Some _ _ _ Lj) in D.
    cbn [bind] in D. unfold u8_read in D.
    destruct (u8_get (GF256.exp (tables poly gen))
                (if Z.of_nat i - Z.of_nat j <? 0
                 then Z.of_nat i - Z.of_nat j + 255
                 else Z.of_nat i - Z.of_nat j)) as [w|];
      [|discriminate].
    injection D as ->. reflexivity. }
  split; [|split].
  - split.
    + intros E. destruct (Z.eq_dec b 0) as [Eb|Nb]; [exact Eb|exfalso].
      destruct (Z.eq_dec a 0) as [->|Na].
      * unfold GF256.div in E.
        rewrite !validateByte_ok in E by assumption. cbn [bind] in E.
        rewrite eqb_0_false in E by assumption. discriminate.
      * destruct (Hnz Na Nb) as [la [lb [v [_ [_ [_ D]]]]]].
        rewrite D in E. discriminate.
    + intros ->. unfold GF256.div.
      rewrite !validateByte_ok by assumption. reflexivity.
  - intros Nb. unfold GF256.div.
    rewrite !validateByte_ok by (assumption || (unfold byte; lia)).
    cbn [bind]. rewrite eqb_0_false by assumption. reflexivity.
  - exact Hnz.
Qed.

Lemma div_cases_witness :
  (GF256.div aes_field 5 3 = Throw DivisionByZero <-> 3 = 0) /\
  (3 <> 0 -> GF256.div aes_field 0 3 = Ret 0) /\
  (5 <> 0 -> 3 <> 0 ->
   exists la lb v,
     u8_get (GF256.log aes_field) 5 = Some la /\
     u8_get (GF256.log aes_field) 3 = Some lb /\
     u8_get (GF256.exp aes_field)
       (if la - lb <? 0 then la - lb + 255 else la - lb) = Some v /\
     GF256.div aes_field 5 3 = Ret v).
Proof.
  apply (div_cases 283 3 aes_field 5 3).
  - vm_compute. reflexivity.
  - unfold byte. lia.
  - unfold byte. lia.
Defined.

(** C5: for a 16-bit [poly] and a byte [c], [isGenerator(poly, c)] is [true]
    exactly when the 255 values 1, c, ..., c^254 obtained by repeated
    [mulByte] are pairwise distinct; [isGenerator(0x11B, 0x03)] is [true];
    [isGenerator(poly, 0)] and [isGenerator(poly, 1)] are [false]. *)
Theorem isGenerator_distinct_powers :
  (forall poly c, 0 <= poly <= 65535 -> byte c ->
     exists b, GF256.isGenerator poly c = Ret b /\
               (b = true <-> NoDup (powers poly c 255))) /\
  GF256.isGenerator 283 3 = Ret true /\
  (forall poly, 0 <= poly <= 65535 ->
     GF256.isGenerator poly 0 = Ret false /\
     GF256.isGenerator poly 1 = Ret false).
Proof.
  split; [exact isGenerator_spec|]. split; [vm_compute; reflexivity|].
  intros poly Hp.
  assert (Hno : forall c, byte c ->
            (exists i j : nat, (i < 255)%nat /\ (j < 255)%nat /\ i <> j /\
                               power poly c i = power poly c j) ->
            GF256.isGenerator poly c = Ret false).
  { intros c Hc [i [j [Hi [Hj [Ne E]]]]].
    destruct (isGenerator_spec poly c Hp Hc) as [b [Eb Hb]].
    destruct b; [exfalso|exact Eb].
    apply Ne. apply (power_inj poly c); try assumption.
    apply Hb. reflexivity. }
  split.
  - apply Hno; [unfold byte; lia|].
    exists 1%nat, 2%nat. repeat (split; [lia|]).
    rewrite (power_S poly 0 1). change (power poly 0 1) with (next poly 0 1).
    unfold next. rewrite !mulByte_val_0_r. reflexivity.
  - apply Hno; [unfold byte; lia|].
    exists 0%nat, 1%nat. repeat (split; [lia|]).
    change (power poly 1 1) with (next poly 1 1).
    unfold next. rewrite mulByte_val_1_r by (unfold byte; lia). reflexivity.
Qed.

Lemma isGenerator_distinct_powers_witness :
  (exists b, GF256.isGenerator 285 2 = Ret b /\
             (b = true <-> NoDup (powers 285 2 255))) /\
  GF256.isGenerator 283 0 = Ret false /\
  GF256.isGenerator 283 1 = Ret false.
Proof.
  split.
  - apply (proj1 isGenerator_distinct_powers 285 2);
      unfold byte; lia.
  - apply (proj2 (proj2 isGenerator_distinct_powers) 283). lia.
Defined.

(** C6, as the code has it: in a constructed field [exp[i]] is the generator
    to the power [i mod 255] for every index [i] in [0,511), so
    [exp[i + 255] = exp[i]] whenever [i + 255 < 511]; the last entry,
    [exp[511]], is never written and stays 0. *)
Theorem exp_period_255 (poly gen : Z) (F : GF256.t) :
  GF256.new poly gen = Ret F ->
  length (GF256.exp F) = 512%nat /\
  (forall i, 0 <= i < 511 ->
     u8_get (GF256.exp F) i = Some (power poly gen (Z.to_nat (i mod 255)))) /\
  (forall i, 0 <= i -> i + 255 < 511 ->
     u8_get (GF256.exp F) (i + 255) = u8_get (GF256.exp F) i) /\
  u8_get (GF256.exp F) 511 = Some 0.
Proof.
  intros H. apply new_inv in H. destruct H as [Hp [Hg [ND ->]]].
  assert (Hget : forall i, 0 <= i < 511 ->
    u8_get (GF256.exp (tables poly gen)) i =
    Some (power poly gen (Z.to_nat (i mod 255)))).
  { intros i Hi. rewrite exp_get by lia. do 2 f_equal.
    rewrite Z2Nat.inj_mod by lia. reflexivity. }
  split; [apply length_exp|]. split; [exact Hget|].
  split; [|apply exp_get_511].
  intros i Hi Hlt. rewrite !Hget by lia. do 3 f_equal.
  replace (i + 255) with (i + 1 * 255) by lia. apply Z.mod_add. lia.
Qed.

Lemma exp_period_255_witness :
  length (GF256.exp aes_field) = 512%nat /\
  (forall i, 0 <= i < 511 ->
     u8_get (GF256.exp aes_field) i =
     Some (power 283 3 (Z.to_nat (i mod 255)))) /\
  (forall i, 0 <= i -> i + 255 < 511 ->
     u8_get (GF256.exp aes_field) (i + 255) = u8_get (GF256.exp aes_field) i) /\
  u8_get (GF256.exp aes_field) 511 = Some 0.
Proof.
  apply (exp_period_255 283 3 aes_field). vm_compute. reflexivity.
Defined.

(** The statement of C6 over all of [0,512) fails at the last entry: in the
    AES field [exp[511] = 0] while the generator to the power [511 mod 255]
    is 3, and [exp[256 + 255]] differs from [exp[256]]. *)
Lemma exp_period_255_counterexample :
  ~ (forall poly gen F, GF256.new poly gen = Ret F ->
       forall i, 0 <= i < 512 ->
         u8_get (GF256.exp F) i =
         Some (power poly gen (Z.to_nat (i mod 255)))) /\
  ~ (forall poly gen F, GF256.new poly gen = Ret F ->
       forall i, 0 <= i -> i + 255 < 512 ->
         u8_get (GF256.exp F) (i + 255) = u8_get (GF256.exp F) i).
Proof.
  assert (Hnew : GF256.new 283 3 = Ret aes_field) by (vm_compute; reflexivity).
  split; intros H.
  - assert (E1 : u8_get (GF256.exp aes_field) 511 = Some 0)
      by (vm_compute; reflexivity).
    assert (E2 : power 283 3 (Z.to_nat (511 mod 255)) = 3)
      by (vm_compute; reflexivity).
    specialize (H 283 3 aes_field Hnew 511 ltac:(lia)).
    rewrite E1, E2 in H. discriminate.
  - assert (E1 : u8_get (GF256.exp aes_field) (256 + 255) = Some 0)
      by (vm_compute; reflexivity).
    assert (E2 : u8_get (GF256.exp aes_field) 256 = Some 3)
      by (vm_compute; reflexivity).
    specialize (H 283 3 aes_field Hnew 256 ltac:(lia) ltac:(lia)).
    rewrite E1, E2 in H. discriminate.
Qed.

(** C7: in a constructed field, for every nonzero byte [a],
    [inv(a) = exp[255 - log[a]]] and [mul(a, inv(a)) = 1]; [inv] throws
    "no inverse for 0" exactly when [a = 0]. *)
Theorem mul_inv_one (poly gen : Z) (F : GF256.t) (a : Z) :
  GF256.new poly gen = Ret F ->
  (byte a -> a <> 0 ->
   exists la ia,
     u8_get (GF256.log F) a = Some la /\
     u8_get (GF256.exp F) (255 - la) = Some ia /\
     GF256.inv F a = Ret ia /\
     GF256.mul F a ia = Ret 1) /\
  (GF256.inv F a = Throw NoInverseForZero <-> a = 0).
Proof.
  intros H. apply new_inv in H. destruct H as [Hp [Hg [ND ->]]].
  assert (Hnz : byte a -> a <> 0 ->
    exists la ia,
     u8_get (GF256.log (tables poly gen)) a = Some la /\
     u8_get (GF256.exp (tables poly gen)) (255 - la) = Some ia /\
     GF256.inv (tables poly gen) a = Ret ia /\
     GF256.mul (tables poly gen) a ia = Ret 1).
  { intros Ha Na.
    destruct (log_get poly gen ND a Ha Na) as [i [Hi [Ei Li]]].
    exists (Z.of_nat i), (power poly gen (255 - i)).
    split; [exact Li|]. split; [|split].
    - replace (255 - Z.of_nat i) with (Z.of_nat (255 - i)) by lia.
      apply exp_power; [exact ND|lia].
    - rewrite <- Ei. apply inv_power; assumption.
    - rewrite <- Ei. destruct i as [|i].
      + change (255 - 0)%nat with 255%nat.
        rewrite (power_255 poly gen ND).
        apply (mul_powers poly gen ND 0 0); lia.
      + rewrite mul_powers by (assumption || lia).
        replace (S i + (255 - S i))%nat with 255%nat by lia.
        rewrite (power_255 poly gen ND). reflexivity. }
  split; [exact Hnz|]. split.
  - intros E. destruct (Z.eq_dec a 0) as [Ea|Na]; [exact Ea|exfalso].
    destruct (byte_dec a) as [Ha|Ha].
    + destruct (Hnz Ha Na) as [la [ia [_ [_ [I _]]]]].
      rewrite I in E. discriminate.
    + unfold GF256.inv in E. rewrite validateByte_bad in E by exact Ha.
      discriminate.
  - intros ->. reflexivity.
Qed.

Lemma mul_inv_one_witness :
  (byte 83 -> 83 <> 0 ->
   exists la ia,
     u8_get (GF256.log aes_field) 83 = Some la /\
     u8_get (GF256.exp aes_field) (255 - la) = Some ia /\
     GF256.inv aes_field 83 = Ret ia /\
     GF256.mul aes_field 83 ia = Ret 1) /\
  (GF256.inv aes_field 83 = Throw NoInverseForZero <-> 83 = 0).
Proof.
  apply (mul_inv_one 283 3 aes_field 83). vm_compute. reflexivity.
Defined.

(** C9: the literal scenarios in the field of polynomial 0x11B and
    generator 0x03. *)
Theorem aes_scenarios :
  GF256.new 283 3 = Ret aes_field /\
  GF256.add aes_field 83 202 = Ret 153 /\
  GF256.mul aes_field 100 100 = Ret 215 /\
  GF256.mul aes_field 255 255 = Ret 19 /\
  GF256.evaluate aes_field [1; 2; 3] 1 = Ret 0 /\
  GF256.evaluate aes_field [1; 2; 3] 2 = Ret 9 /\
  (forall coeffs, exists e, GF256.evaluate aes_field coeffs 0 = Throw e) /\
  GF256.div aes_field 5 0 = Throw DivisionByZero /\
  GF256.inv aes_field 0 = Throw NoInverseForZero.
Proof.
  repeat (split; [vm_compute; reflexivity|]).
  split; [|split; vm_compute; reflexivity].
  intros coeffs. unfold GF256.evaluate. cbn [GF256.validateByte bind].
  change (GF256.validateByte 0) with (@Ret unit tt). cbn [bind].
  destruct (Z.of_nat (length coeffs) =? 0).
  - exists EmptyPolynomial. reflexivity.
  - exists EvaluateAtZero. reflexivity.
Qed.

(** C10: in a constructed field every table lookup of [mul], [div] and [inv]
    is within bounds: for bytes that pass validation the index
    [log[a] + log[b]] of [mul] lies in [0,508], the adjusted difference of
    [div] in [0,254] and the index [255 - log[a]] of [inv] in [1,255], all
    below the 512 entries of [exp]; so each operation returns a byte or
    throws its validation error, and never yields [undefined]. *)
Theorem lookups_in_bounds (poly gen : Z) (F : GF256.t) (a b : Z) :
  GF256.new poly gen = Ret F ->
  length (GF256.exp F) = 512%nat /\
  (byte a -> byte b -> a <> 0 -> b <> 0 ->
   exists la lb,
     u8_get (GF256.log F) a = Some la /\
     u8_get (GF256.log F) b = Some lb /\
     0 <= la + lb <= 508 /\
     (let d := if la - lb <? 0 then la - lb + 255 else la - lb in
      0 <= d <= 254) /\
     1 <= 255 - la <= 255) /\
  ((exists v, GF256.mul F a b = Ret v /\ byte v) \/
   GF256.mul F a b = Throw NotAByte) /\
  ((exists v, GF256.div F a b = Ret v /\ byte v) \/
   GF256.div F a b = Throw NotAByte \/
   GF256.div F a b = Throw DivisionByZero) /\
  ((exists v, GF256.inv F a = Ret v /\ byte v) \/
   GF256.inv F a = Throw NotAByte \/
   GF256.inv F a = Throw NoInverseForZero).
Proof.
  intros H. apply new_inv in H. destruct H as [Hp [Hg [ND ->]]].
  split; [apply length_exp|]. split; [|split; [|split]].
  - intros Ha Hb Na Nb.
    destruct (log_get poly gen ND a Ha Na) as [i [Hi [Ei Li]]].
    destruct (log_get poly gen ND b Hb Nb) as [j [Hj [Ej Lj]]].
    exists (Z.of_nat i), (Z.of_nat j).
    split; [exact Li|]. split; [exact Lj|]. split; [lia|]. split; [|lia].
    cbv zeta. destruct (Z.ltb_spec (Z.of_nat i - Z.of_nat j) 0); lia.
  - destruct (byte_dec a) as [Ha|Ha];
      [|right; unfold GF256.mul; rewrite validateByte_bad by exact Ha;
        reflexivity].
    destruct (byte_dec b) as [Hb|Hb];
      [|right; unfold GF256.mul;
        rewrite validateByte_ok, validateByte_bad by assumption;
        reflexivity].
    left. exists (GF256.mulByte_val a b poly).
    split; [apply mul_mulByte_val; assumption|apply byte_mulByte_val].
  - destruct (byte_dec a) as [Ha|Ha];
      [|right; left; unfold GF256.div; rewrite validateByte_bad by exact Ha;
        reflexivity].
    destruct (byte_dec b) as [Hb|Hb];
      [|right; left; unfold GF256.div;
        rewrite validateByte_ok, validateByte_bad by assumption;
        reflexivity].
    destruct (Z.eq_dec b 0) as [->|Nb].
    + right; right. unfold GF256.div.
      rewrite !validateByte_ok by assumption. reflexivity.
    + destruct (Z.eq_dec a 0) as [->|Na].
      * left. exists 0. split; [|unfold byte; lia]. unfold GF256.div.
        rewrite !validateByte_ok by assumption. cbn [bind].
        rewrite eqb_0_false by exact Nb. reflexivity.
      * destruct (power_onto poly gen ND a Ha Na) as [i [Hi <-]].
        destruct (power_onto poly gen ND b Hb Nb) as [j [Hj <-]].
        left. exists (power poly gen (i + (255 - j))).
        split; [apply div_powers; assumption|apply byte_power].
  - destruct (byte_dec a) as [Ha|Ha];
      [|right; left; unfold GF256.inv; rewrite validateByte_bad by exact Ha;
        reflexivity].
    destruct (Z.eq_dec a 0) as [->|Na]; [right; right; reflexivity|].
    destruct (power_onto poly gen ND a Ha Na) as [i [Hi <-]].
    left. exists (power poly gen (255 - i)).
    split; [apply inv_power; assumption|apply byte_power].
Qed.

Lemma lookups_in_bounds_witness :
  length (GF256.exp aes_field) = 512%nat /\
  (byte 200 -> byte 7 -> 200 <> 0 -> 7 <> 0 ->
   exists la lb,
     u8_get (GF256.log aes_field) 200 = Some la /\
     u8_get (GF256.log aes_field) 7 = Some lb /\
     0 <= la + lb <= 508 /\
     (let d := if la - lb <? 0 then la - lb + 255 else la - lb in
      0 <= d <= 254) /\
     1 <= 255 - la <= 255) /\
  ((exists v, GF256.mul aes_field 200 7 = Ret v /\ byte v) \/
   GF256.mul aes_field 200 7 = Throw NotAByte) /\
  ((exists v, GF256.div aes_field 200 7 = Ret v /\ byte v) \/
   GF256.div aes_field 200 7 = Throw NotAByte \/
   GF256.div aes_field 200 7 = Throw DivisionByZero) /\
  ((exists v, GF256.inv aes_field 200 = Ret v /\ byte v) \/
   GF256.inv aes_field 200 = Throw NotAByte \/
   GF256.inv aes_field 200 = Throw NoInverseForZero).
Proof.
  apply (lookups_in_bounds 283 3 aes_field 200 7). vm_compute. reflexivity.
Defined.

(** C8: [evaluate(coefficients, x)] fails when [coefficients] is empty and
    fails when [x = 0]; otherwise it returns the result of Horner's method
    (from the highest-degree coefficient, folding
    [accumulator = add(mul(accumulator, x), coefficient)] down to the
    constant term), which is the field sum over [i] of [coefficients[i]]
    times [x^i]. *)
Theorem evaluate_horner (poly gen : Z) (F : GF256.t)
  (coefficients : list Z) (x : Z) :
  GF256.new poly gen = Ret F -> Forall byte coefficients ->
  (coefficients = [] -> exists e, GF256.evaluate F coefficients x = Throw e) /\
  (x = 0 -> exists e, GF256.evaluate F coefficients x = Throw e) /\
  (coefficients <> [] -> byte x -> x <> 0 ->
   exists v,
     GF256.evaluate F coefficients x = Ret v /\ byte v /\
     horner_fold F coefficients x = Ret v /\
     sum_of_terms F coefficients x 0 = Ret v).
Proof.
  intros H Hcs. apply new_inv in H. destruct H as [Hp [Hg [ND ->]]].
  split; [|split].
  - intros ->. unfold GF256.evaluate.
    destruct (byte_dec x) as [Hx|Hx].
    + rewrite validateByte_ok by exact Hx. exists EmptyPolynomial. reflexivity.
    + rewrite validateByte_bad by exact Hx. exists NotAByte. reflexivity.
  - intros ->. unfold GF256.evaluate.
    rewrite validateByte_ok by (unfold byte; lia). cbn [bind].
    destruct (Z.of_nat (length coefficients) =? 0).
    + exists EmptyPolynomial. reflexivity.
    + exists EvaluateAtZero. reflexivity.
  - intros Hne Hx Nx. exists (poly_value poly gen coefficients x).
    split; [apply evaluate_bytes; assumption|].
    split; [apply byte_val|].
    split; [apply (horner_fold_bytes poly gen Hg ND); assumption|].
    apply (sum_of_terms_bytes poly gen Hg ND); assumption.
Qed.

Lemma evaluate_horner_witness :
  ([1; 2; 3] = [] -> exists e, GF256.evaluate aes_field [1; 2; 3] 2 = Throw e) /\
  (2 = 0 -> exists e, GF256.evaluate aes_field [1; 2; 3] 2 = Throw e) /\
  ([1; 2; 3] <> [] -> byte 2 -> 2 <> 0 ->
   exists v,
     GF256.evaluate aes_field [1; 2; 3] 2 = Ret v /\ byte v /\
     horner_fold aes_field [1; 2; 3] 2 = Ret v /\
     sum_of_terms aes_field [1; 2; 3] 2 0 = Ret v).
Proof.
  apply (evaluate_horner 283 3 aes_field [1; 2; 3] 2).
  - vm_compute. reflexivity.
  - repeat constructor; unfold byte; lia.
Defined.

(** C3: in a constructed field, for a coefficient array [p] of length
    [d + 1] and [d + 1] samples whose x-coordinates are pairwise distinct
    nonzero bytes and whose y is [evaluate(p, x)], [interpolate] returns the
    original y at each sample's x, and at every nonzero byte x outside the
    sample x-set it returns [evaluate(p, x)]. *)
Theorem interpolate_evaluate_roundtrip (poly gen : Z) (F : GF256.t)
  (p : list Z) (samples : list Point) :
  GF256.new poly gen = Ret F ->
  Forall byte p -> p <> [] -> length p = length samples ->
  Forall (fun s => byte (px s) /\ px s <> 0 /\
                   GF256.evaluate F p (px s) = Ret (py s)) samples ->
  NoDup (map px samples) ->
  (forall s, In s samples -> GF256.interpolate F samples (px s) = Ret (py s)) /\
  (forall x, byte x -> x <> 0 -> ~ In x (map px samples) ->
     GF256.interpolate F samples x = GF256.evaluate F p x /\
     exists v, GF256.evaluate F p x = Ret v).
Proof.
  intros H Hp Hne Hlen Hs ND. apply new_inv in H.
  destruct H as [Hpoly [Hg [NDp ->]]].
  split.
  - intros s Hin.
    destruct (proj1 (Forall_forall _ _) Hs s Hin) as [Bx [Nx Ev]].
    rewrite <- Ev.
    rewrite (interpolate_bytes poly gen Hg NDp p samples (px s));
      try assumption.
    symmetry. apply evaluate_bytes; assumption.
  - intros x Bx Nx _.
    rewrite (interpolate_bytes poly gen Hg NDp p samples x); try assumption.
    rewrite (evaluate_bytes poly gen Hg NDp p x) by assumption.
    split; [reflexivity|eexists; reflexivity].
Qed.

Lemma interpolate_evaluate_roundtrip_witness :
  (forall s, In s [mkPoint 1 0; mkPoint 2 9; mkPoint 3 8] ->
     GF256.interpolate aes_field [mkPoint 1 0; mkPoint 2 9; mkPoint 3 8] (px s)
     = Ret (py s)) /\
  (forall x, byte x -> x <> 0 ->
     ~ In x (map px [mkPoint 1 0; mkPoint 2 9; mkPoint 3 8]) ->
     GF256.interpolate aes_field [mkPoint 1 0; mkPoint 2 9; mkPoint 3 8] x =
     GF256.evaluate aes_field [1; 2; 3] x /\
     exists v, GF256.evaluate aes_field [1; 2; 3] x = Ret v).
Proof.
  apply (interpolate_evaluate_roundtrip 283 3 aes_field [1; 2; 3]
           [mkPoint 1 0; mkPoint 2 9; mkPoint 3 8]).
  - vm_compute. reflexivity.
  - repeat constructor; unfold byte; lia.
  - discriminate.
  - reflexivity.
  - repeat constructor; cbn [px py]; unfold byte; try lia;
      vm_compute; reflexivity.
  - repeat constructor; simpl; intuition lia.
Defined.

(** * Further properties of the code *)

(** ** [mulByte] for every polynomial *)

(** [mulByte] is commutative on bytes, whatever the 16-bit polynomial. *)
Theorem mulByte_commutative (poly a b : Z) :
  0 <= poly <= 65535 -> byte a -> byte b ->
  GF256.mulByte a b poly = GF256.mulByte b a poly /\
  exists v, GF256.mulByte a b poly = Ret v /\ byte v.
Proof.
  intros Hp Ha Hb. rewrite !mulByte_ok by assumption.
  rewrite (mulByte_val_comm poly a b Ha Hb). split; [reflexivity|].
  eexists. split; [reflexivity|apply byte_mulByte_val].
Qed.

Lemma mulByte_commutative_witness :
  GF256.mulByte 87 131 283 = GF256.mulByte 131 87 283 /\
  exists v, GF256.mulByte 87 131 283 = Ret v /\ byte v.
Proof.
  apply (mulByte_commutative 283 87 131); unfold byte; lia.
Defined.

(** [mulByte] is associative on bytes, whatever the 16-bit polynomial. *)
Theorem mulByte_associative (poly a b c : Z) :
  0 <= poly <= 65535 -> byte a -> byte b -> byte c ->
  (ab <- GF256.mulByte a b poly ;; GF256.mulByte ab c poly) =
  (bc <- GF256.mulByte b c poly ;; GF256.mulByte a bc poly).
Proof.
  intros Hp Ha Hb Hc.
  rewrite (mulByte_ok poly a b), (mulByte_ok poly b c) by assumption.
  cbn [bind].
  rewrite !mulByte_ok by (assumption || apply byte_mulByte_val).
  rewrite mulByte_val_assoc by assumption. reflexivity.
Qed.

Lemma mulByte_associative_witness :
  (ab <- GF256.mulByte 87 131 283 ;; GF256.mulByte ab 200 283) =
  (bc <- GF256.mulByte 131 200 283 ;; GF256.mulByte 87 bc 283).
Proof.
  apply (mulByte_associative 283 87 131 200); unfold byte; lia.
Defined.

(** [mulByte] distributes over exclusive or, has 1 as identity and sends 0
    to 0, whatever the 16-bit polynomial. *)
Theorem mulByte_distributive (poly a b c : Z) :
  0 <= poly <= 65535 -> byte a -> byte b -> byte c ->
  GF256.mulByte (Z.lxor a b) c poly =
    (x <- GF256.mulByte a c poly ;;
     y <- GF256.mulByte b c poly ;; Ret (Z.lxor x y)) /\
  GF256.mulByte a 1 poly = Ret a /\
  GF256.mulByte 1 a poly = Ret a /\
  GF256.mulByte a 0 poly = Ret 0 /\
  GF256.mulByte 0 a poly = Ret 0.
Proof.
  intros Hp Ha Hb Hc.
  assert (B0 : byte 0) by (unfold byte; lia).
  assert (B1 : byte 1) by (unfold byte; lia).
  rewrite !mulByte_ok by (assumption || apply byte_lxor; assumption).
  cbn [bind].
  rewrite mulByte_val_lxor_l, mulByte_val_0_l, mulByte_val_0_r.
  rewrite (mulByte_val_comm poly 1 a B1 Ha), mulByte_val_1_r by exact Ha.
  repeat split; reflexivity.
Qed.

Lemma mulByte_distributive_witness :
  GF256.mulByte (Z.lxor 87 131) 200 283 =
    (x <- GF256.mulByte 87 200 283 ;;
     y <- GF256.mulByte 131 200 283 ;; Ret (Z.lxor x y)) /\
  GF256.mulByte 87 1 283 = Ret 87 /\
  GF256.mulByte 1 87 283 = Ret 87 /\
  GF256.mulByte 87 0 283 = Ret 0 /\
  GF256.mulByte 0 87 283 = Ret 0.
Proof.
  apply (mulByte_distributive 283 87 131 200); unfold byte; lia.
Defined.

Lemma xtime_low_poly (poly a : Z) : xtime (Z.land poly 255) a = xtime poly a.
Proof.
  unfold xtime. rewrite <- Z.land_assoc, Z.land_diag. reflexivity.
Qed.

Lemma partial_low_poly (poly : Z) (n : nat) (a b : Z) :
  partial (Z.land poly 255) n a b = partial poly n a b.
Proof.
  revert a b. induction n as [|n IH]; intros a b; [reflexivity|].
  cbn [partial]. rewrite xtime_low_poly, IH. reflexivity.
Qed.

Lemma mulByte_val_low_poly (poly a b : Z) :
  GF256.mulByte_val a b (Z.land poly 255) = GF256.mulByte_val a b poly.
Proof. rewrite !mulByte_val_eq, partial_low_poly. reflexivity. Qed.

Lemma land_255_uint16 (poly : Z) : 0 <= Z.land poly 255 <= 65535.
Proof. pose proof (byte_land_255 poly) as H. unfold byte in H. lia. Qed.

Lemma isGenerator_loop_low_poly (poly gen : Z) (n : nat) :
  0 <= poly <= 65535 -> byte gen ->
  forall seen x, byte x ->
    GF256.isGenerator_loop n seen x (Z.land poly 255) gen =
    GF256.isGenerator_loop n seen x poly gen.
Proof.
  intros Hp Hg. induction n as [|n IH]; intros seen x Hx; [reflexivity|].
  cbn [GF256.isGenerator_loop].
  destruct (set_has seen x); [reflexivity|].
  rewrite !mulByte_ok by (assumption || apply land_255_uint16).
  cbn [bind]. rewrite mulByte_val_low_poly. apply IH, byte_mulByte_val.
Qed.

(** Only the low byte of the polynomial matters: [mulByte] and
    [isGenerator] answer for [poly] what they answer for [poly & 0xff]
    (0x11B and 0x1B define the same field). *)
Theorem poly_low_byte (poly a b : Z) :
  0 <= poly <= 65535 -> byte a -> byte b ->
  GF256.mulByte a b poly = GF256.mulByte a b (Z.land poly 255) /\
  GF256.isGenerator poly a = GF256.isGenerator (Z.land poly 255) a.
Proof.
  intros Hp Ha Hb. split.
  - rewrite !mulByte_ok by (assumption || apply land_255_uint16).
    rewrite mulByte_val_low_poly. reflexivity.
  - unfold GF256.isGenerator.
    rewrite !validateUInt16_ok by (assumption || apply land_255_uint16).
    rewrite validateByte_ok by exact Ha. cbn [bind].
    symmetry. apply isGenerator_loop_low_poly; try assumption.
    unfold byte. lia.
Qed.

Lemma poly_low_byte_witness :
  GF256.mulByte 87 131 283 = GF256.mulByte 87 131 (Z.land 283 255) /\
  GF256.isGenerator 283 87 = GF256.isGenerator (Z.land 283 255) 87.
Proof.
  apply (poly_low_byte 283 87 131); unfold byte; lia.
Defined.

(** [mulByte] checks [a], then [b], then [poly], and on valid arguments
    never leaves the range of 16-bit values, so the 32-bit bit operators of
    the source cannot wrap. *)
Theorem mulByte_validation (a b poly : Z) :
  (~ byte a -> GF256.mulByte a b poly = Throw NotAByte) /\
  (byte a -> ~ byte b -> GF256.mulByte a b poly = Throw NotAByte) /\
  (byte a -> byte b -> ~ 0 <= poly <= 65535 ->
   GF256.mulByte a b poly = Throw NotAUInt16) /\
  (byte a -> byte b -> 0 <= poly <= 65535 ->
   forall n : nat, (n <= 8)%nat ->
     let '(a', b', res') := GF256.mulByte_loop n poly (a, b, 0) in
     0 <= a' < 65536 /\ 0 <= b' < 256 /\ 0 <= res' < 65536).
Proof.
  unfold GF256.mulByte. repeat split.
  - intros Ha. rewrite validateByte_bad by exact Ha. reflexivity.
  - intros Ha Hb.
    rewrite (validateByte_ok a Ha), validateByte_bad by exact Hb.
    reflexivity.
  - intros Ha Hb Hp.
    rewrite (validateByte_ok a Ha), (validateByte_ok b Hb),
      validateUInt16_bad by exact Hp.
    reflexivity.
  - intros Ha Hb _ n Hn. apply mulByte_loop_small; assumption.
Qed.

Lemma mulByte_validation_witness :
  GF256.mulByte 300 7 283 = Throw NotAByte /\
  GF256.mulByte 7 300 283 = Throw NotAByte /\
  GF256.mulByte 7 9 70000 = Throw NotAUInt16 /\
  (let '(a', b', res') := GF256.mulByte_loop 8 283 (255, 255, 0) in
   0 <= a' < 65536 /\ 0 <= b' < 256 /\ 0 <= res' < 65536).
Proof.
  split; [|split; [|split]].
  - apply (proj1 (mulByte_validation 300 7 283)). unfold byte. lia.
  - apply (proj1 (proj2 (mulByte_validation 7 300 283))); unfold byte; lia.
  - apply (proj1 (proj2 (proj2 (mulByte_validation 7 9 70000))));
      unfold byte; lia.
  - apply (proj2 (proj2 (proj2 (mulByte_validation 255 255 283))));
      unfold byte; lia.
Defined.

(** ** The constructor *)

(** The constructor checks [poly], then [gen], then the generator test: it
    returns a field, recording [poly] and [gen], exactly when [poly] is a
    16-bit value, [gen] a byte and [isGenerator(poly, gen)] holds, and
    throws the matching error otherwise. *)
Theorem new_cases (poly gen : Z) :
  (~ 0 <= poly <= 65535 -> GF256.new poly gen = Throw NotAUInt16) /\
  (0 <= poly <= 65535 -> ~ byte gen -> GF256.new poly gen = Throw NotAByte) /\
  (0 <= poly <= 65535 -> byte gen ->
   GF256.isGenerator poly gen = Ret false ->
   GF256.new poly gen = Throw InvalidGenerator) /\
  (0 <= poly <= 65535 -> byte gen ->
   GF256.isGenerator poly gen = Ret true ->
   exists F, GF256.new poly gen = Ret F /\
             GF256.poly F = poly /\ GF256.gen F = gen /\
             length (GF256.exp F) = 512%nat /\
             length (GF256.log F) = 256%nat).
Proof.
  split; [|split; [|split]].
  - intros Hp. unfold GF256.new. rewrite validateUInt16_bad by exact Hp.
    reflexivity.
  - intros Hp Hg. unfold GF256.new.
    rewrite validateUInt16_ok, validateByte_bad by assumption. reflexivity.
  - intros Hp Hg E. unfold GF256.new.
    rewrite validateUInt16_ok, validateByte_ok by assumption.
    cbn [bind]. rewrite E. reflexivity.
  - intros Hp Hg E. exists (tables poly gen). split.
    + apply new_ok; try assumption.
      destruct (isGenerator_spec poly gen Hp Hg) as [b [Eb Hb]].
      rewrite E in Eb. injection Eb as <-. apply Hb. reflexivity.
    + split; [reflexivity|]. split; [reflexivity|].
      split; [apply length_exp|apply length_log].
Qed.

Lemma new_cases_witness :
  GF256.new 65536 3 = Throw NotAUInt16 /\
  GF256.new 283 256 = Throw NotAByte /\
  GF256.new 285 3 = Throw InvalidGenerator /\
  (exists F, GF256.new 285 2 = Ret F /\
             GF256.poly F = 285 /\ GF256.gen F = 2 /\
             length (GF256.exp F) = 512%nat /\
             length (GF256.log F) = 256%nat).
Proof.
  split; [|split; [|split]].
  - apply (proj1 (new_cases 65536 3)). lia.
  - apply (proj1 (proj2 (new_cases 283 256))); unfold byte; lia.
  - apply (proj1 (proj2 (proj2 (new_cases 285 3)))); unfold byte; try lia.
    vm_compute. reflexivity.
  - apply (proj2 (proj2 (proj2 (new_cases 285 2)))); unfold byte; try lia.
    vm_compute. reflexivity.
Defined.

(** The generator of a constructed field is at least 2, has order exactly
    255 ([gen^255 = 1] and no smaller positive power is 1), and the tables
    start [exp[0] = 1], [exp[1] = gen], [log[1] = 0], [log[gen] = 1]. *)
Theorem generator_order (poly gen : Z) (F : GF256.t) :
  GF256.new poly gen = Ret F ->
  2 <= gen <= 255 /\
  power poly gen 255 = 1 /\
  (forall k : nat, (0 < k < 255)%nat -> power poly gen k <> 1) /\
  u8_get (GF256.exp F) 0 = Some 1 /\
  u8_get (GF256.exp F) 1 = Some gen /\
  u8_get (GF256.log F) 1 = Some 0 /\
  u8_get (GF256.log F) gen = Some 1.
Proof.
  intros H.
  pose proof (new_inv poly gen F H) as [Hp [Hg [ND ->]]].
  assert (P1 : power poly gen 1 = gen).
  { change (power poly gen 1) with (next poly gen 1). unfold next.
    rewrite mulByte_val_comm by (assumption || (unfold byte; lia)).
    apply mulByte_val_1_r, Hg. }
  assert (N1 : forall k : nat, (0 < k < 255)%nat -> power poly gen k <> 1).
  { intros k Hk E. change 1 with (power poly gen 0) in E.
    apply (power_inj poly gen ND) in E; lia. }
  split; [|split; [|split; [|split; [|split; [|split]]]]].
  - pose proof (power_nonzero poly gen ND 1 ltac:(lia)) as N0.
    pose proof (N1 1%nat ltac:(lia)) as N1'.
    rewrite P1 in N0, N1'. unfold byte in Hg. lia.
  - apply power_255. exact ND.
  - exact N1.
  - apply (exp_power poly gen ND 0). lia.
  - pose proof (exp_power poly gen ND 1 ltac:(lia)) as E.
    rewrite P1 in E. exact E.
  - apply (log_power poly gen ND 0). lia.
  - pose proof (log_power poly gen ND 1 ltac:(lia)) as E.
    rewrite P1 in E. exact E.
Qed.

Lemma generator_order_witness :
  2 <= 3 <= 255 /\
  power 283 3 255 = 1 /\
  (forall k : nat, (0 < k < 255)%nat -> power 283 3 k <> 1) /\
  u8_get (GF256.exp aes_field) 0 = Some 1 /\
  u8_get (GF256.exp aes_field) 1 = Some 3 /\
  u8_get (GF256.log aes_field) 1 = Some 0 /\
  u8_get (GF256.log aes_field) 3 = Some 1.
Proof.
  apply (generator_order 283 3 aes_field). vm_compute. reflexivity.
Defined.

(** ** Addition and subtraction *)

(** In any field object, on bytes, [add] is exclusive or: commutative,
    associative, with 0 as identity and every byte its own opposite;
    [sub] is the same operation, so subtracting what was added gives the
    first operand back; an operand that is not a byte makes both throw. *)
Theorem add_sub_laws (F : GF256.t) (a b c : Z) :
  (byte a -> byte b -> byte c ->
   GF256.add F a b = GF256.add F b a /\
   (s <- GF256.add F a b ;; GF256.add F s c) =
   (s <- GF256.add F b c ;; GF256.add F a s) /\
   GF256.add F a 0 = Ret a /\
   GF256.add F a a = Ret 0 /\
   (exists v, GF256.add F a b = Ret v /\ byte v) /\
   (s <- GF256.add F a b ;; GF256.sub F s b) = Ret a) /\
  GF256.sub F a b = GF256.add F a b /\
  (~ byte a \/ ~ byte b -> GF256.add F a b = Throw NotAByte).
Proof.
  split; [|split].
  - intros Ha Hb Hc. assert (B0 : byte 0) by (unfold byte; lia).
    unfold GF256.add, GF256.sub.
    rewrite !validateByte_ok by assumption. cbn [bind].
    rewrite !validateByte_ok by (assumption || apply byte_lxor; assumption).
    cbn [bind].
    rewrite Z.lxor_0_r, Z.lxor_nilpotent, (Z.lxor_comm b a).
    repeat split.
    + rewrite Z.lxor_assoc. reflexivity.
    + eexists. split; [reflexivity|apply byte_lxor; assumption].
    + rewrite Z.lxor_assoc, Z.lxor_nilpotent, Z.lxor_0_r. reflexivity.
  - reflexivity.
  - unfold GF256.add. intros [Ha|Hb].
    + rewrite validateByte_bad by exact Ha. reflexivity.
    + destruct (byte_dec a) as [Ha|Ha].
      * rewrite (validateByte_ok a Ha), validateByte_bad by exact Hb.
        reflexivity.
      * rewrite validateByte_bad by exact Ha. reflexivity.
Qed.

Lemma add_sub_laws_witness :
  GF256.add aes_field 83 202 = GF256.add aes_field 202 83 /\
  (s <- GF256.add aes_field 83 202 ;; GF256.sub aes_field s 202) = Ret 83 /\
  GF256.add aes_field 256 0 = Throw NotAByte.
Proof.
  split; [|split].
  - apply (proj1 (add_sub_laws aes_field 83 202 7)); unfold byte; lia.
  - apply (proj1 (add_sub_laws aes_field 83 202 7)); unfold byte; lia.
  - apply (proj2 (proj2 (add_sub_laws aes_field 256 0 0))).
    left. unfold byte. lia.
Defined.

(** ** Multiplication, division and inverse in a constructed field *)

Section FieldLaws.

Variables poly gen : Z.
Hypothesis gen_range : byte gen.
Hypothesis distinct_powers : NoDup (powers poly gen 255).

Local Abbreviation F := (tables poly gen).
Local Abbreviation e0 := (to_el 0).
Local Abbreviation e1 := (to_el 1).
Local Abbreviation eadd := (el_add poly gen).
Local Abbreviation emul := (el_mul poly gen).
Local Abbreviation ediv := (el_div poly gen).
Local Abbreviation einv := (el_inv poly gen).

Add Field byte_field : (el_field poly gen gen_range distinct_powers).

Lemma el_zero (a : el) : val a = 0 -> a = e0.
Proof. intros E. apply el_eq. rewrite E. reflexivity. Qed.

Lemma inv_el (a : el) :
  val a <> 0 -> GF256.inv F (val a) = Ret (val (einv a)).
Proof.
  intros Na.
  destruct (power_onto poly gen distinct_powers _ (byte_val a) Na)
    as [i [Hi Ei]].
  rewrite (val_el_inv_power poly gen distinct_powers a i Hi (eq_sym Ei)).
  rewrite <- Ei. apply inv_power; assumption.
Qed.

Lemma el_mul_div (a b : el) : b <> e0 -> ediv (emul a b) b = a.
Proof.
  intros Nb. rewrite el_div_def by assumption.
  transitivity (emul a (emul (einv b) b)); [ring|].
  rewrite el_inv_l by assumption. ring.
Qed.

Lemma el_div_mul (a b : el) : b <> e0 -> emul (ediv a b) b = a.
Proof.
  intros Nb. rewrite el_div_def by assumption.
  transitivity (emul a (emul (einv b) b)); [ring|].
  rewrite el_inv_l by assumption. ring.
Qed.

Lemma el_div_self (a : el) : a <> e0 -> ediv a a = e1.
Proof.
  intros Na. rewrite el_div_def by assumption.
  transitivity (emul (einv a) a); [ring|]. apply el_inv_l; assumption.
Qed.

Lemma el_inv_nonzero (a : el) : a <> e0 -> einv a <> e0.
Proof.
  intros Na E.
  pose proof (el_inv_l poly gen gen_range distinct_powers a Na) as H.
  rewrite E in H. assert (H0 : emul e0 a = e0) by ring.
  rewrite H0 in H. apply (f_equal val) in H. discriminate.
Qed.

Lemma el_inv_inv (a : el) : a <> e0 -> einv (einv a) = a.
Proof.
  intros Na. pose proof (el_inv_nonzero a Na) as Ni.
  pose proof (el_inv_l poly gen gen_range distinct_powers _ Ni) as H1.
  pose proof (el_inv_l poly gen gen_range distinct_powers _ Na) as H2.
  transitivity (emul (einv (einv a)) (emul (einv a) a)).
  - rewrite H2. ring.
  - transitivity (emul (emul (einv (einv a)) (einv a)) a); [ring|].
    rewrite H1. ring.
Qed.

Lemma el_mul_zero (a b : el) : emul a b = e0 -> a = e0 \/ b = e0.
Proof.
  intros E.
  destruct (Z.eq_dec (val a) 0) as [Ea|Na]; [left; apply el_zero, Ea|].
  right.
  assert (Na' : a <> e0) by (intros ->; apply Na; reflexivity).
  pose proof (el_inv_l poly gen gen_range distinct_powers _ Na') as H.
  transitivity (emul (emul (einv a) a) b); [rewrite H; ring|].
  transitivity (emul (einv a) (emul a b)); [ring|]. rewrite E. ring.
Qed.

End FieldLaws.

(** In a constructed field [mul] has 1 as identity, sends 0 to 0, and is
    commutative and associative on bytes. *)
Theorem mul_laws (poly gen : Z) (F : GF256.t) (a b c : Z) :
  GF256.new poly gen = Ret F -> byte a -> byte b -> byte c ->
  GF256.mul F a 1 = Ret a /\
  GF256.mul F 1 a = Ret a /\
  GF256.mul F a 0 = Ret 0 /\
  GF256.mul F 0 a = Ret 0 /\
  GF256.mul F a b = GF256.mul F b a /\
  (m <- GF256.mul F a b ;; GF256.mul F m c) =
  (m <- GF256.mul F b c ;; GF256.mul F a m).
Proof.
  intros H Ha Hb Hc. apply new_inv in H. destruct H as [Hp [Hg [ND ->]]].
  assert (B0 : byte 0) by (unfold byte; lia).
  assert (B1 : byte 1) by (unfold byte; lia).
  rewrite !(mul_mulByte_val poly gen Hg ND) by assumption. cbn [bind].
  rewrite !(mul_mulByte_val poly gen Hg ND)
    by (assumption || apply byte_mulByte_val).
  rewrite mulByte_val_0_l, mulByte_val_0_r, mulByte_val_1_r by exact Ha.
  rewrite (mulByte_val_comm poly 1 a B1 Ha), mulByte_val_1_r by exact Ha.
  rewrite (mulByte_val_comm poly b a Hb Ha).
  rewrite mulByte_val_assoc by assumption.
  repeat split; reflexivity.
Qed.

Lemma mul_laws_witness :
  GF256.mul aes_field 87 1 = Ret 87 /\
  GF256.mul aes_field 1 87 = Ret 87 /\
  GF256.mul aes_field 87 0 = Ret 0 /\
  GF256.mul aes_field 0 87 = Ret 0 /\
  GF256.mul aes_field 87 131 = GF256.mul aes_field 131 87 /\
  (m <- GF256.mul aes_field 87 131 ;; GF256.mul aes_field m 200) =
  (m <- GF256.mul aes_field 131 200 ;; GF256.mul aes_field 87 m).
Proof.
  apply (mul_laws 283 3 aes_field 87 131 200);
    [vm_compute; reflexivity|unfold byte; lia..].
Defined.

(** In a constructed field [mul] distributes over [add]:
    [mul(add(a, b), c) = add(mul(a, c), mul(b, c))]. *)
Theorem mul_add_distributes (poly gen : Z) (F : GF256.t) (a b c : Z) :
  GF256.new poly gen = Ret F -> byte a -> byte b -> byte c ->
  (s <- GF256.add F a b ;; GF256.mul F s c) =
  (x <- GF256.mul F a c ;; y <- GF256.mul F b c ;; GF256.add F x y).
Proof.
  intros H Ha Hb Hc. apply new_inv in H. destruct H as [Hp [Hg [ND ->]]].
  unfold GF256.add at 1. rewrite !validateByte_ok by assumption. cbn [bind].
  rewrite !(mul_mulByte_val poly gen Hg ND)
    by (assumption || apply byte_lxor; assumption).
  cbn [bind]. unfold GF256.add.
  rewrite !validateByte_ok by apply byte_mulByte_val. cbn [bind].
  rewrite mulByte_val_lxor_l. reflexivity.
Qed.

Lemma mul_add_distributes_witness :
  (s <- GF256.add aes_field 87 131 ;; GF256.mul aes_field s 200) =
  (x <- GF256.mul aes_field 87 200 ;;
   y <- GF256.mul aes_field 131 200 ;; GF256.add aes_field x y).
Proof.
  apply (mul_add_distributes 283 3 aes_field 87 131 200);
    [vm_compute; reflexivity|unfold byte; lia..].
Defined.

(** A constructed field has no zero divisors: on bytes [mul(a, b)] is 0
    exactly when [a] or [b] is 0. *)
Theorem mul_zero_iff (poly gen : Z) (F : GF256.t) (a b : Z) :
  GF256.new poly gen = Ret F -> byte a -> byte b ->
  (GF256.mul F a b = Ret 0 <-> a = 0 \/ b = 0).
Proof.
  intros H Ha Hb. apply new_inv in H. destruct H as [Hp [Hg [ND ->]]].
  split.
  - intros E.
    rewrite <- (val_to_el a Ha), <- (val_to_el b Hb) in E.
    rewrite (mul_el poly gen Hg ND) in E.
    assert (E' : val (el_mul poly gen (to_el a) (to_el b)) = 0)
      by congruence.
    clear E. rename E' into E. apply el_zero in E.
    apply (el_mul_zero poly gen Hg ND) in E.
    destruct E as [E|E]; apply (f_equal val) in E;
      rewrite val_to_el in E by assumption; [left|right]; exact E.
  - intros [->| ->]; [apply mul_0_l|apply mul_0_r]; assumption.
Qed.

Lemma mul_zero_iff_witness :
  GF256.mul aes_field 87 131 = Ret 0 <-> 87 = 0 \/ 131 = 0.
Proof.
  apply (mul_zero_iff 283 3 aes_field 87 131);
    [vm_compute; reflexivity|unfold byte; lia..].
Defined.

(** In a constructed field division undoes multiplication and the other
    way round: for bytes [a] and [b] with [b] nonzero,
    [div(mul(a, b), b) = a], [mul(div(a, b), b) = a],
    [div(a, b) = mul(a, inv(b))] and [div(b, b) = 1]. *)
Theorem div_mul_roundtrip (poly gen : Z) (F : GF256.t) (a b : Z) :
  GF256.new poly gen = Ret F -> byte a -> byte b -> b <> 0 ->
  (m <- GF256.mul F a b ;; GF256.div F m b) = Ret a /\
  (q <- GF256.div F a b ;; GF256.mul F q b) = Ret a /\
  GF256.div F a b = (i <- GF256.inv F b ;; GF256.mul F a i) /\
  GF256.div F b b = Ret 1.
Proof.
  intros H Ha Hb Nb. apply new_inv in H. destruct H as [Hp [Hg [ND ->]]].
  rewrite <- (val_to_el a Ha). rewrite <- (val_to_el b Hb) in Nb |- *.
  assert (Nb' : to_el b <> to_el 0).
  { intros E. apply Nb. rewrite E. reflexivity. }
  rewrite (mul_el poly gen Hg ND). cbn [bind].
  rewrite !(div_val poly gen ND) by exact Nb. cbn [bind].
  rewrite (mul_el poly gen Hg ND).
  rewrite (inv_el poly gen ND) by exact Nb. cbn [bind].
  rewrite (mul_el poly gen Hg ND).
  rewrite (el_mul_div poly gen Hg ND), (el_div_mul poly gen Hg ND),
    (el_div_self poly gen Hg ND) by exact Nb'.
  rewrite (el_div_def poly gen Hg ND). repeat split; reflexivity.
Qed.

Lemma div_mul_roundtrip_witness :
  (m <- GF256.mul aes_field 87 131 ;; GF256.div aes_field m 131) = Ret 87 /\
  (q <- GF256.div aes_field 87 131 ;; GF256.mul aes_field q 131) = Ret 87 /\
  GF256.div aes_field 87 131 =
    (i <- GF256.inv aes_field 131 ;; GF256.mul aes_field 87 i) /\
  GF256.div aes_field 131 131 = Ret 1.
Proof.
  apply (div_mul_roundtrip 283 3 aes_field 87 131);
    [vm_compute; reflexivity|unfold byte; lia..].
Defined.

(** In a constructed field the inverse of a nonzero byte is a nonzero byte,
    inverting twice gives the byte back, and 1 is its own inverse. *)
Theorem inv_involution (poly gen : Z) (F : GF256.t) (a : Z) :
  GF256.new poly gen = Ret F -> byte a -> a <> 0 ->
  (exists i, GF256.inv F a = Ret i /\ byte i /\ i <> 0) /\
  (i <- GF256.inv F a ;; GF256.inv F i) = Ret a /\
  GF256.inv F 1 = Ret 1.
Proof.
  intros H Ha Na. apply new_inv in H. destruct H as [Hp [Hg [ND ->]]].
  assert (I1 : GF256.inv (tables poly gen) 1 = Ret 1).
  { change 1 with (power poly gen 0) at 1.
    rewrite (inv_power poly gen ND 0) by lia.
    change (255 - 0)%nat with 255%nat. rewrite (power_255 poly gen ND).
    reflexivity. }
  rewrite <- (val_to_el a Ha) in Na |- *.
  assert (Na' : to_el a <> to_el 0).
  { intros E. apply Na. rewrite E. reflexivity. }
  pose proof (el_inv_nonzero poly gen Hg ND _ Na') as Ni.
  assert (Ni' : val (el_inv poly gen (to_el a)) <> 0).
  { intros E. apply Ni, el_zero, E. }
  rewrite (inv_el poly gen ND) by exact Na. cbn [bind].
  rewrite (inv_el poly gen ND) by exact Ni'.
  rewrite (el_inv_inv poly gen Hg ND) by exact Na'.
  split; [|split; [reflexivity|exact I1]].
  eexists. split; [reflexivity|]. split; [apply byte_val|exact Ni'].
Qed.

Lemma inv_involution_witness :
  (exists i, GF256.inv aes_field 83 = Ret i /\ byte i /\ i <> 0) /\
  (i <- GF256.inv aes_field 83 ;; GF256.inv aes_field i) = Ret 83 /\
  GF256.inv aes_field 1 = Ret 1.
Proof.
  apply (inv_involution 283 3 aes_field 83);
    [vm_compute; reflexivity|unfold byte; lia..].
Defined.

(** ** Interpolation *)

Section InterpolateLaws.

Variables poly gen : Z.
Hypothesis gen_range : byte gen.
Hypothesis distinct_powers : NoDup (powers poly gen 255).

Local Abbreviation F := (tables poly gen).
Local Abbreviation e0 := (to_el 0).
Local Abbreviation e1 := (to_el 1).
Local Abbreviation eadd := (el_add poly gen).
Local Abbreviation emul := (el_mul poly gen).
Local Abbreviation ediv := (el_div poly gen).
Local Abbreviation einv := (el_inv poly gen).
Local Abbreviation Fth := (el_field poly gen gen_range distinct_powers).

Add Field byte_field' : (el_field poly gen gen_range distinct_powers).

Lemma poly_value_0 (c : Z) (cs : list Z) :
  byte c -> poly_value poly gen (c :: cs) 0 = c.
Proof.
  intros Hc. unfold poly_value. cbn [map]. rewrite peval_cons.
  replace (eadd (to_el c)
             (emul e0 (peval el e0 eadd emul (map to_el cs) e0)))
    with (to_el c) by ring.
  apply val_to_el, Hc.
Qed.

Lemma lagrange_single (s : el * el) (x : el) :
  lagrange el e0 e1 eadd emul eadd ediv [s] x = snd s.
Proof.
  unfold lagrange. cbn [lag_outer lag_inner Nat.eqb]. ring.
Qed.

(** Interpolation passes through every sample, whatever the y values. *)
Lemma interpolate_sample (samples : list Point) (s : Point) :
  Forall (fun s => byte (px s) /\ byte (py s)) samples ->
  NoDup (map px samples) -> In s samples ->
  GF256.interpolate F samples (px s) = Ret (py s).
Proof.
  intros Hxy ND Hin.
  destruct (proj1 (Forall_forall _ _) Hxy s Hin) as [Bx By].
  assert (NDe : NoDup (map fst (el_samples samples))).
  { apply NoDup_el_samples; [|exact ND].
    apply Forall_forall. intros t Ht.
    exact (proj1 (proj1 (Forall_forall _ _) Hxy t Ht)). }
  rewrite <- (pt_el_samples samples Hxy) at 1.
  rewrite <- (val_to_el (px s) Bx) at 1.
  rewrite (interpolate_el poly gen gen_range distinct_powers _ NDe).
  - assert (Hin' : In (to_el (px s), to_el (py s)) (el_samples samples)).
    { unfold el_samples. apply in_map_iff. exists s. split; auto. }
    destruct (In_nth_error _ _ Hin') as [k Hk].
    rewrite (lagrange_node el e0 e1 eadd emul eadd (fun a => a) ediv einv Fth
               (el_samples samples) NDe k _ _ Hk).
    rewrite val_to_el by exact By. reflexivity.
  - unfold el_samples. destruct samples; [contradiction|discriminate].
Qed.

Lemma interpolate_single (xi y x : Z) :
  byte xi -> byte y -> byte x ->
  GF256.interpolate F [mkPoint xi y] x = Ret y.
Proof.
  intros Bxi By Bx.
  assert (Hxy : Forall (fun s => byte (px s) /\ byte (py s))
                  [mkPoint xi y])
    by (constructor; [split; assumption|constructor]).
  rewrite <- (pt_el_samples _ Hxy) at 1.
  rewrite <- (val_to_el x Bx) at 1.
  rewrite (interpolate_el poly gen gen_range distinct_powers).
  - cbn [el_samples map px py]. rewrite lagrange_single. cbn [snd].
    rewrite val_to_el by exact By. reflexivity.
  - cbn. repeat constructor. intros [].
  - discriminate.
Qed.

End InterpolateLaws.

(** In a constructed field interpolation passes through its samples: for
    samples with byte coordinates and pairwise distinct x, whatever their y
    values, [interpolate] at a sample's x returns that sample's y (so for
    y = 1 at one sample and 0 at the others it returns 1 there and 0 at the
    other sample points). *)
Theorem interpolate_through_samples (poly gen : Z) (F : GF256.t)
  (samples : list Point) :
  GF256.new poly gen = Ret F ->
  Forall (fun s => byte (px s) /\ byte (py s)) samples ->
  NoDup (map px samples) ->
  forall s, In s samples -> GF256.interpolate F samples (px s) = Ret (py s).
Proof.
  intros H Hxy ND s Hin. apply new_inv in H.
  destruct H as [Hp [Hg [NDp ->]]].
  apply (interpolate_sample poly gen Hg NDp); assumption.
Qed.

Lemma interpolate_through_samples_witness :
  GF256.interpolate aes_field [mkPoint 0 1; mkPoint 7 0; mkPoint 200 0] 0
    = Ret 1 /\
  GF256.interpolate aes_field [mkPoint 0 1; mkPoint 7 0; mkPoint 200 0] 7
    = Ret 0.
Proof.
  assert (H : forall s, In s [mkPoint 0 1; mkPoint 7 0; mkPoint 200 0] ->
            GF256.interpolate aes_field
              [mkPoint 0 1; mkPoint 7 0; mkPoint 200 0] (px s) = Ret (py s)).
  { apply (interpolate_through_samples 283 3 aes_field
             [mkPoint 0 1; mkPoint 7 0; mkPoint 200 0]).
    - vm_compute. reflexivity.
    - repeat constructor; cbn [px py]; unfold byte; lia.
    - repeat constructor; simpl; intuition lia. }
  split.
  - apply (H (mkPoint 0 1)). simpl. auto.
  - apply (H (mkPoint 7 0)). simpl. auto.
Defined.

(** [interpolate] rejects an [x] that is not a byte, then an empty sample
    list; in a constructed field a single sample with byte coordinates
    answers its y at every byte [x]. *)
Theorem interpolate_edge_cases (poly gen : Z) (F : GF256.t)
  (samples : list Point) (xi y x : Z) :
  GF256.new poly gen = Ret F ->
  (~ byte x -> GF256.interpolate F samples x = Throw NotAByte) /\
  (byte x -> GF256.interpolate F [] x = Throw NoSamplePoint) /\
  (byte xi -> byte y -> byte x ->
   GF256.interpolate F [mkPoint xi y] x = Ret y).
Proof.
  intros H. apply new_inv in H. destruct H as [Hp [Hg [NDp ->]]].
  split; [|split].
  - intros Hx. unfold GF256.interpolate.
    rewrite validateByte_bad by exact Hx. reflexivity.
  - intros Hx. unfold GF256.interpolate.
    rewrite validateByte_ok by exact Hx. reflexivity.
  - apply (interpolate_single poly gen Hg NDp).
Qed.

Lemma interpolate_edge_cases_witness :
  GF256.interpolate aes_field [mkPoint 1 5] 256 = Throw NotAByte /\
  GF256.interpolate aes_field [] 2 = Throw NoSamplePoint /\
  GF256.interpolate aes_field [mkPoint 1 5] 2 = Ret 5.
Proof.
  assert (H : GF256.new 283 3 = Ret aes_field) by (vm_compute; reflexivity).
  split; [|split].
  - apply (proj1 (interpolate_edge_cases 283 3 aes_field [mkPoint 1 5]
                    1 5 256 H)).
    unfold byte. lia.
  - apply (proj1 (proj2 (interpolate_edge_cases 283 3 aes_field []
                           1 5 2 H))).
    unfold byte. lia.
  - apply (proj2 (proj2 (interpolate_edge_cases 283 3 aes_field []
                           1 5 2 H))); unfold byte; lia.
Defined.

Lemma interpolate_zero_constant (poly gen : Z) (c : Z) (rest : list Z)
  (samples : list Point) :
  byte gen -> NoDup (powers poly gen 255) ->
  Forall byte (c :: rest) -> length (c :: rest) = length samples ->
  Forall (fun s => byte (px s) /\ px s <> 0 /\
                   GF256.evaluate (tables poly gen) (c :: rest) (px s) =
                   Ret (py s)) samples ->
  NoDup (map px samples) ->
  GF256.interpolate (tables poly gen) samples 0 = Ret c.
Proof.
  intros Hg NDp Hp Hlen Hs ND.
  rewrite (interpolate_bytes poly gen Hg NDp (c :: rest) samples 0);
    try assumption.
  - rewrite (poly_value_0 poly gen Hg NDp); [reflexivity|].
    inversion Hp; assumption.
  - discriminate.
  - unfold byte. lia.
Qed.

(** Interpolating the samples of a polynomial at [x = 0] returns its
    constant term: with [d + 1] samples at pairwise distinct nonzero bytes
    of a polynomial [c :: rest] of length [d + 1],
    [interpolate(samples, 0) = c] (how a shared secret is recovered). *)
Theorem interpolate_at_zero (poly gen : Z) (F : GF256.t)
  (c : Z) (rest : list Z) (samples : list Point) :
  GF256.new poly gen = Ret F ->
  Forall byte (c :: rest) -> length (c :: rest) = length samples ->
  Forall (fun s => byte (px s) /\ px s <> 0 /\
                   GF256.evaluate F (c :: rest) (px s) = Ret (py s)) samples ->
  NoDup (map px samples) ->
  GF256.interpolate F samples 0 = Ret c.
Proof.
  intros H Hp Hlen Hs ND. apply new_inv in H.
  destruct H as [Hpoly [Hg [NDp ->]]].
  apply (interpolate_zero_constant poly gen c rest samples); assumption.
Qed.

Lemma interpolate_at_zero_witness :
  GF256.interpolate aes_field [mkPoint 1 0; mkPoint 2 9; mkPoint 3 8] 0
  = Ret 1.
Proof.
  apply (interpolate_at_zero 283 3 aes_field 1 [2; 3]
           [mkPoint 1 0; mkPoint 2 9; mkPoint 3 8]).
  - vm_compute. reflexivity.
  - repeat constructor; unfold byte; lia.
  - reflexivity.
  - repeat constructor; cbn [px py]; unfold byte; try lia;
      vm_compute; reflexivity.
  - repeat constructor; simpl; intuition lia.
Defined.

Section DuplicateSamples.

Variables poly gen : Z.
Hypothesis gen_range : byte gen.
Hypothesis distinct_powers : NoDup (powers poly gen 255).

Local Abbreviation F := (tables poly gen).
Local Abbreviation e0 := (to_el 0).
Local Abbreviation e1 := (to_el 1).
Local Abbreviation eadd := (el_add poly gen).
Local Abbreviation emul := (el_mul poly gen).
Local Abbreviation ediv := (el_div poly gen).

(** Some other sample has the x-coordinate of sample [i]. *)
Definition shares_x (i : nat) (xi : el) (rest : list (el * el)) (j : nat)
  : Prop :=
  exists m s, nth_error rest m = Some s /\ (j + m)%nat <> i /\ fst s = xi.

Lemma shares_x_dec (i : nat) (xi : el) (rest : list (el * el)) :
  forall j : nat,
    shares_x i xi rest j \/
    (forall m s, nth_error rest m = Some s -> (j + m)%nat <> i ->
                 fst s <> xi).
Proof.
  induction rest as [|sj rest IH]; intros j.
  - right. intros m s Hm. destruct m; discriminate.
  - destruct (IH (S j)) as [[m [s [Hm [Hne Hs]]]]|Hno].
    + left. exists (S m), s. split; [exact Hm|]. split; [lia|exact Hs].
    + destruct (Nat.eq_dec j i) as [Hji|Hji].
      * right. intros m s Hm Hne. destruct m as [|m]; [lia|].
        apply (Hno m s Hm). lia.
      * destruct (Z.eq_dec (val (fst sj)) (val xi)) as [E|Ne].
        -- left. exists 0%nat, sj. split; [reflexivity|].
           split; [lia|apply el_eq, E].
        -- right. intros m s Hm Hne. destruct m as [|m].
           ++ injection Hm as <-. intros E. apply Ne. rewrite E. reflexivity.
           ++ apply (Hno m s Hm). lia.
Qed.

Lemma interpolate_inner_shared (x : el) (i : nat) (si : el * el)
  (rest : list (el * el)) :
  forall (j : nat) (b : el),
    shares_x i (fst si) rest j ->
    GF256.interpolate_inner F (val x) i (pt si) (map pt rest) j (val b) =
    Throw DivisionByZero.
Proof.
  induction rest as [|sj rest IH]; intros j b [m [s [Hm [Hne Hs]]]].
  - destruct m; discriminate.
  - cbn [map GF256.interpolate_inner].
    destruct (Nat.eqb_spec i j) as [E|Ne].
    + destruct m as [|m]; [lia|].
      apply IH. exists m, s. split; [exact Hm|]. split; [lia|exact Hs].
    + unfold pt at 1 2 3. cbn [px].
      rewrite !(add_el poly gen). cbn [bind].
      destruct (Z.eq_dec (val (fst sj)) (val (fst si))) as [E|Nx].
      * rewrite (val_el_add poly gen (fst si)), E, Z.lxor_nilpotent.
        unfold GF256.div.
        rewrite !validateByte_ok by (apply byte_val || (unfold byte; lia)).
        reflexivity.
      * rewrite (div_val poly gen distinct_powers).
        -- cbn [bind].
           rewrite (mul_el poly gen gen_range distinct_powers). cbn [bind].
           destruct m as [|m].
           ++ injection Hm as <-. exfalso. apply Nx. rewrite Hs. reflexivity.
           ++ apply IH. exists m, s.
              split; [exact Hm|]. split; [lia|exact Hs].
        -- rewrite val_el_add. intros E. apply Nx. symmetry.
           apply lxor_eq_0, E.
Qed.

Lemma interpolate_outer_shared (samples : list (el * el)) (x : el)
  (rest : list (el * el)) :
  forall (i : nat) (r : el),
    (forall m, nth_error rest m = nth_error samples (i + m)) ->
    (exists k m sk sm,
       (i <= k)%nat /\ k <> m /\
       nth_error samples k = Some sk /\ nth_error samples m = Some sm /\
       fst sk = fst sm) ->
    GF256.interpolate_outer F (map pt samples) (val x) (map pt rest) i (val r)
    = Throw DivisionByZero.
Proof.
  induction rest as [|si rest IH];
    intros i r Hsuf [k [m [sk [sm [Hik [Hkm [Hk [Hm Hx]]]]]]]].
  - pose proof (Hsuf (k - i)%nat) as E.
    replace (i + (k - i))%nat with k in E by lia.
    rewrite Hk in E. destruct (k - i)%nat; discriminate.
  - cbn [map GF256.interpolate_outer].
    change (GF256.interpolate_inner F (val x) i (pt si) (map pt samples) 0 1)
      with (GF256.interpolate_inner F (val x) i (pt si) (map pt samples) 0
              (val e1)).
    assert (Hi : nth_error samples i = Some si).
    { pose proof (Hsuf 0%nat) as E. rewrite Nat.add_0_r in E.
      symmetry. exact E. }
    destruct (shares_x_dec i (fst si) samples 0) as [Hdup|Hno].
    + rewrite interpolate_inner_shared by exact Hdup. reflexivity.
    + rewrite (interpolate_inner_el poly gen gen_range distinct_powers)
        by exact Hno.
      cbn [bind]. unfold pt at 1. cbn [py].
      rewrite (mul_el poly gen gen_range distinct_powers). cbn [bind].
      rewrite (add_el poly gen). cbn [bind].
      apply IH.
      * intros n. replace (S i + n)%nat with (i + S n)%nat by lia.
        apply (Hsuf (S n)).
      * exists k, m, sk, sm. repeat split; try assumption.
        destruct (Nat.eq_dec k i) as [->|Nk]; [exfalso|lia].
        rewrite Hi in Hk. injection Hk as <-.
        apply (Hno m sm Hm); [simpl; lia|]. symmetry. exact Hx.
Qed.

End DuplicateSamples.

Lemma nth_error_el_samples (samples : list Point) (k : nat) (s : Point) :
  nth_error samples k = Some s ->
  nth_error (el_samples samples) k = Some (to_el (px s), to_el (py s)).
Proof.
  intros H. unfold el_samples. rewrite nth_error_map, H. reflexivity.
Qed.

(** In a constructed field, when two samples at different positions share
    an x-coordinate, [interpolate] throws "division by zero" at every byte
    [x] (coordinates being bytes). *)
Theorem interpolate_duplicate_x (poly gen : Z) (F : GF256.t)
  (samples : list Point) (x : Z) (k m : nat) (sk sm : Point) :
  GF256.new poly gen = Ret F ->
  Forall (fun s => byte (px s) /\ byte (py s)) samples -> byte x ->
  k <> m -> nth_error samples k = Some sk -> nth_error samples m = Some sm ->
  px sk = px sm ->
  GF256.interpolate F samples x = Throw DivisionByZero.
Proof.
  intros H Hxy Hx Hkm Hk Hm E. apply new_inv in H.
  destruct H as [Hp [Hg [NDp ->]]].
  unfold GF256.interpolate. rewrite validateByte_ok by exact Hx.
  cbn [bind].
  replace (Z.of_nat (length samples) =? 0) with false.
  - rewrite <- (pt_el_samples samples Hxy), <- (val_to_el x Hx).
    apply (interpolate_outer_shared poly gen Hg NDp (el_samples samples)
             (to_el x) (el_samples samples) 0 (to_el 0)).
    + intros n. reflexivity.
    + exists k, m, (to_el (px sk), to_el (py sk)),
        (to_el (px sm), to_el (py sm)).
      split; [lia|]. split; [exact Hkm|].
      split; [apply nth_error_el_samples, Hk|].
      split; [apply nth_error_el_samples, Hm|].
      cbn [fst]. rewrite E. reflexivity.
  - symmetry. apply Z.eqb_neq. destruct samples; [|simpl; lia].
    destruct k; discriminate.
Qed.

Lemma interpolate_duplicate_x_witness :
  GF256.interpolate aes_field [mkPoint 1 5; mkPoint 2 9; mkPoint 1 7] 4
  = Throw DivisionByZero.
Proof.
  apply (interpolate_duplicate_x 283 3 aes_field
           [mkPoint 1 5; mkPoint 2 9; mkPoint 1 7] 4 0 2
           (mkPoint 1 5) (mkPoint 1 7)).
  - vm_compute. reflexivity.
  - repeat constructor; cbn [px py]; unfold byte; lia.
  - unfold byte. lia.
  - lia.
  - reflexivity.
  - reflexivity.
  - reflexivity.
Defined.

(** ** Polynomial addition and multiplication *)

(** Coefficient-wise exclusive or, the longer list giving the length. *)
Fixpoint xor_lists (a b : list Z) : list Z :=
  match a, b with
  | [], _ => b
  | _, [] => a
  | x :: a', y :: b' => Z.lxor x y :: xor_lists a' b'
  end.

(** [l] written over the front of [r]. *)
Fixpoint overwrite (r l : list Z) {struct l} : list Z :=
  match l, r with
  | [], _ => r
  | x :: l', _ :: r' => x :: overwrite r' l'
  | _ :: _, [] => []
  end.

(** [l] combined by exclusive or into the front of [r]. *)
Fixpoint xor_into (r l : list Z) {struct l} : list Z :=
  match l, r with
  | [], _ => r
  | y :: l', x :: r' => Z.lxor x y :: xor_into r' l'
  | _ :: _, [] => []
  end.

Lemma u8_get_app (pre : list Z) (x : Z) (rest : list Z) :
  u8_get (pre ++ x :: rest) (Z.of_nat (length pre)) = Some x.
Proof.
  unfold u8_get.
  replace (Z.of_nat (length pre) <? 0) with false
    by (symmetry; apply Z.ltb_ge; lia).
  rewrite Nat2Z.id, nth_error_app2, Nat.sub_diag by lia. reflexivity.
Qed.

Lemma list_set_app (pre : list Z) (x v : Z) (rest : list Z) :
  list_set (pre ++ x :: rest) (length pre) v = pre ++ v :: rest.
Proof.
  induction pre as [|p pre IH]; [reflexivity|]. simpl. rewrite IH.
  reflexivity.
Qed.

Lemma u8_set_app (pre : list Z) (x v : Z) (rest : list Z) :
  byte v ->
  u8_set (pre ++ x :: rest) (Z.of_nat (length pre)) v = pre ++ v :: rest.
Proof.
  intros Hv. unfold u8_set.
  replace (Z.of_nat (length pre) <? 0) with false
    by (symmetry; apply Z.ltb_ge; lia).
  rewrite Nat2Z.id, byte_mod by exact Hv. apply list_set_app.
Qed.

Lemma u8_arg_app (pre : list Z) (x : Z) (rest : list Z) :
  GF256.u8_arg (pre ++ x :: rest) (Z.of_nat (length pre)) = Ret x.
Proof. unfold GF256.u8_arg. rewrite u8_get_app. reflexivity. Qed.

Lemma app_cons_assoc {A : Type} (pre : list A) (x : A) (rest : list A) :
  pre ++ x :: rest = (pre ++ [x]) ++ rest.
Proof. rewrite <- app_assoc. reflexivity. Qed.

Lemma length_snoc {A : Type} (pre : list A) (x : A) :
  Z.of_nat (length pre) + 1 = Z.of_nat (length (pre ++ [x])).
Proof. rewrite length_app. simpl. lia. Qed.

Lemma copy_loop_overwrite (a2 : list Z) :
  forall a1 pre rest,
    length pre = length a1 -> (length a2 <= length rest)%nat ->
    Forall byte a2 ->
    GF256.copy_loop (length a2) (Z.of_nat (length pre)) (a1 ++ a2)
      (pre ++ rest) = pre ++ overwrite rest a2.
Proof.
  induction a2 as [|x a2 IH]; intros a1 pre rest Hlen Hrest Hb;
    [reflexivity|].
  destruct rest as [|r rest]; [simpl in Hrest; lia|].
  inversion Hb as [|? ? Hx Hb']; subst.
  cbn [length GF256.copy_loop overwrite].
  assert (G : u8_get (a1 ++ x :: a2) (Z.of_nat (length pre)) = Some x)
    by (rewrite Hlen; apply u8_get_app).
  rewrite G. rewrite u8_set_app by exact Hx.
  rewrite length_snoc with (x := x).
  rewrite (app_cons_assoc pre x rest), (app_cons_assoc a1 x a2).
  rewrite IH.
  - rewrite <- app_assoc. reflexivity.
  - rewrite !length_app, Hlen. reflexivity.
  - simpl in Hrest. lia.
  - exact Hb'.
Qed.

Lemma addPolynomials_loop_xor (F : GF256.t) (b2 : list Z) :
  forall b1 pre rest,
    length pre = length b1 -> (length b2 <= length rest)%nat ->
    Forall byte b2 -> Forall byte rest ->
    GF256.addPolynomials_loop F (length b2) (Z.of_nat (length pre))
      (b1 ++ b2) (pre ++ rest) = Ret (pre ++ xor_into rest b2).
Proof.
  induction b2 as [|y b2 IH]; intros b1 pre rest Hlen Hrest Hb Hr;
    [reflexivity|].
  destruct rest as [|r rest]; [simpl in Hrest; lia|].
  inversion Hb as [|? ? Hy Hb']; subst.
  inversion Hr as [|? ? Hr0 Hr']; subst.
  cbn [length GF256.addPolynomials_loop xor_into].
  assert (G : GF256.u8_arg (b1 ++ y :: b2) (Z.of_nat (length pre)) = Ret y)
    by (rewrite Hlen; apply u8_arg_app).
  rewrite u8_get_app, G. cbn [bind].
  unfold GF256.add. rewrite !validateByte_ok by assumption. cbn [bind].
  rewrite u8_set_app by (apply byte_lxor; assumption).
  rewrite length_snoc with (x := Z.lxor r y).
  rewrite (app_cons_assoc pre _ rest), (app_cons_assoc b1 y b2).
  rewrite IH.
  - rewrite <- app_assoc. reflexivity.
  - rewrite !length_app, Hlen. reflexivity.
  - simpl in Hrest. lia.
  - exact Hb'.
  - exact Hr'.
Qed.

Lemma overwrite_zeros (a : list Z) (n : nat) :
  (length a <= n)%nat ->
  overwrite (repeat 0 n) a = a ++ repeat 0 (n - length a).
Proof.
  revert n. induction a as [|x a IH]; intros n Hn.
  - simpl. rewrite Nat.sub_0_r. destruct n; reflexivity.
  - destruct n as [|n]; [simpl in Hn; lia|].
    cbn [repeat overwrite length app Nat.sub]. rewrite IH by (simpl in Hn; lia).
    reflexivity.
Qed.

Lemma xor_into_padded (a b : list Z) :
  xor_into (a ++ repeat 0 (Nat.max (length a) (length b) - length a)) b =
  xor_lists a b.
Proof.
  revert b. induction a as [|x a IH]; intros b.
  - cbn [length app]. rewrite Nat.max_0_l, Nat.sub_0_r.
    induction b as [|y b IHb]; [reflexivity|].
    cbn [length repeat xor_into xor_lists]. rewrite Z.lxor_0_l.
    f_equal. exact IHb.
  - destruct b as [|y b].
    + cbn [length]. rewrite Nat.max_0_r, Nat.sub_diag. simpl.
      rewrite app_nil_r. reflexivity.
    + cbn [length app xor_into xor_lists].
      rewrite <- Nat.succ_max_distr. cbn [Nat.sub]. rewrite IH. reflexivity.
Qed.

Lemma Forall_byte_xor_lists (a b : list Z) :
  Forall byte a -> Forall byte b -> Forall byte (xor_lists a b).
Proof.
  intros Ha. revert b. induction Ha as [|x a Hx Ha IH]; intros b Hb;
    [exact Hb|].
  destruct Hb as [|y b Hy Hb]; [constructor; assumption|].
  cbn [xor_lists]. constructor; [apply byte_lxor; assumption|apply IH, Hb].
Qed.

Lemma length_xor_lists (a b : list Z) :
  length (xor_lists a b) = Nat.max (length a) (length b).
Proof.
  revert b. induction a as [|x a IH]; intros [|y b]; simpl; auto.
Qed.

Lemma nth_xor_lists (a b : list Z) (i : nat) :
  nth i (xor_lists a b) 0 = Z.lxor (nth i a 0) (nth i b 0).
Proof.
  revert b i. induction a as [|x a IH]; intros [|y b] [|i];
    cbn [xor_lists nth]; rewrite ?Z.lxor_0_l, ?Z.lxor_0_r; auto.
Qed.

Lemma addPolynomials_xor_lists (F : GF256.t) (a b : list Z) :
  Forall byte a -> Forall byte b ->
  GF256.addPolynomials F a b = Ret (xor_lists a b).
Proof.
  intros Ha Hb. unfold GF256.addPolynomials, u8_new.
  pose proof (copy_loop_overwrite a [] []
                (repeat 0 (Nat.max (length a) (length b)))) as C.
  cbn [length app] in C. change (Z.of_nat 0) with 0 in C.
  rewrite C; [|reflexivity|rewrite repeat_length; lia|exact Ha].
  rewrite overwrite_zeros by (rewrite ?repeat_length; lia).
  pose proof (addPolynomials_loop_xor F b [] []
                (a ++ repeat 0 (Nat.max (length a) (length b) - length a)))
    as A.
  cbn [length app] in A. change (Z.of_nat 0) with 0 in A.
  rewrite A.
  - rewrite xor_into_padded. reflexivity.
  - reflexivity.
  - rewrite length_app, repeat_length. lia.
  - exact Hb.
  - apply Forall_app. split; [exact Ha|].
    apply Forall_forall. intros z Hz. apply repeat_spec in Hz. subst z.
    unfold byte. lia.
Qed.

(** [addPolynomials] returns, for byte coefficients and in any field
    object, a polynomial of length [max(len(a), len(b))] whose coefficient
    [i] is the exclusive or of those of [a] and [b], a missing one counting
    as 0; adding a polynomial to itself gives zeros only. *)
Theorem addPolynomials_coefficients (F : GF256.t) (a b : list Z) :
  Forall byte a -> Forall byte b ->
  exists r,
    GF256.addPolynomials F a b = Ret r /\
    length r = Nat.max (length a) (length b) /\
    Forall byte r /\
    (forall i : nat, nth i r 0 = Z.lxor (nth i a 0) (nth i b 0)) /\
    GF256.addPolynomials F b a = Ret r /\
    GF256.addPolynomials F a a = Ret (repeat 0 (length a)).
Proof.
  intros Ha Hb. exists (xor_lists a b).
  rewrite !addPolynomials_xor_lists by assumption.
  split; [reflexivity|]. split; [apply length_xor_lists|].
  split; [apply Forall_byte_xor_lists; assumption|].
  split; [apply nth_xor_lists|]. split; f_equal.
  - clear Ha Hb. revert b. induction a as [|x a IH]; intros [|y b];
      cbn [xor_lists]; try reflexivity.
    rewrite Z.lxor_comm, IH. reflexivity.
  - clear. induction a as [|x a IH]; [reflexivity|].
    cbn [xor_lists length repeat]. rewrite Z.lxor_nilpotent, IH. reflexivity.
Qed.

Lemma addPolynomials_coefficients_witness :
  exists r,
    GF256.addPolynomials aes_field [1; 2; 3] [7; 7] = Ret r /\
    length r = Nat.max (length [1; 2; 3]) (length [7; 7]) /\
    Forall byte r /\
    (forall i : nat, nth i r 0 = Z.lxor (nth i [1; 2; 3] 0) (nth i [7; 7] 0)) /\
    GF256.addPolynomials aes_field [7; 7] [1; 2; 3] = Ret r /\
    GF256.addPolynomials aes_field [1; 2; 3] [1; 2; 3] =
      Ret (repeat 0 (length [1; 2; 3])).
Proof.
  apply (addPolynomials_coefficients aes_field [1; 2; 3] [7; 7]);
    repeat constructor; unfold byte; lia.
Defined.

Section PolynomialSums.

Variable K : Type.
Variables (k0 k1 : K) (kadd kmul ksub : K -> K -> K) (kopp : K -> K)
          (kdiv : K -> K -> K) (kinv : K -> K).
Hypothesis Kth : field_theory k0 k1 kadd kmul ksub kopp kdiv kinv eq.

Add Field Kfield' : Kth.

Local Abbreviation pv := (peval K k0 kadd kmul).
Local Abbreviation pow := (kpow K k1 kmul).







End PolynomialSums.












Section PolynomialPrograms.

Variables poly gen : Z.
Hypothesis gen_range : byte gen.
Hypothesis distinct_powers : NoDup (powers poly gen 255).

Local Abbreviation F := (tables poly gen).
Local Abbreviation e0 := (to_el 0).
Local Abbreviation e1 := (to_el 1).
Local Abbreviation eadd := (el_add poly gen).
Local Abbreviation emul := (el_mul poly gen).
Local Abbreviation ediv := (el_div poly gen).
Local Abbreviation einv := (el_inv poly gen).
Local Abbreviation Fth := (el_field poly gen gen_range distinct_powers).
Local Abbreviation pv := (peval el e0 eadd emul).

Add Field byte_field'' : (el_field poly gen gen_range distinct_powers).

Lemma to_el_lxor (x y : Z) :
  byte x -> byte y -> to_el (Z.lxor x y) = eadd (to_el x) (to_el y).
Proof.
  intros Hx Hy. apply el_eq.
  rewrite val_el_add, !val_to_el by (assumption || apply byte_lxor; assumption).
  reflexivity.
Qed.


Lemma map_to_el_xor_lists (a b : list Z) :
  Forall byte a -> Forall byte b ->
  map to_el (xor_lists a b) = padd el eadd (map to_el a) (map to_el b).
Proof.
  intros Ha. revert b. induction Ha as [|x a Hx Ha IH]; intros b Hb.
  - destruct b; reflexivity.
  - destruct Hb as [|y b Hy Hb]; [reflexivity|].
    cbn [xor_lists map padd]. rewrite to_el_lxor, IH by assumption.
    reflexivity.
Qed.



Lemma poly_value_xor_lists (a b : list Z) (x : Z) :
  Forall byte a -> Forall byte b ->
  poly_value poly gen (xor_lists a b) x =
  Z.lxor (poly_value poly gen a x) (poly_value poly gen b x).
Proof.
  intros Ha Hb. unfold poly_value.
  rewrite map_to_el_xor_lists by assumption.
  rewrite (peval_padd el e0 e1 eadd emul eadd (fun a => a) ediv einv Fth).
  apply val_el_add.
Qed.







End PolynomialPrograms.

(** In a constructed field, evaluating a sum of polynomials gives the sum
    of their values: for nonempty byte polynomials [a], [b] and a nonzero
    byte [x], [evaluate(addPolynomials(a, b), x)] is
    [add(evaluate(a, x), evaluate(b, x))]. *)
Theorem addPolynomials_evaluate (poly gen : Z) (F : GF256.t)
  (a b : list Z) (x : Z) :
  GF256.new poly gen = Ret F ->
  Forall byte a -> Forall byte b -> a <> [] -> b <> [] ->
  byte x -> x <> 0 ->
  (r <- GF256.addPolynomials F a b ;; GF256.evaluate F r x) =
  (u <- GF256.evaluate F a x ;;
   v <- GF256.evaluate F b x ;; GF256.add F u v) /\
  exists s, (r <- GF256.addPolynomials F a b ;; GF256.evaluate F r x) = Ret s.
Proof.
  intros H Ha Hb Na Nb Hx Nx. apply new_inv in H.
  destruct H as [Hp [Hg [ND ->]]].
  rewrite addPolynomials_xor_lists by assumption. cbn [bind].
  rewrite !(evaluate_bytes poly gen Hg ND)
    by (assumption || (apply Forall_byte_xor_lists; assumption)
        || (destruct a, b; cbn [xor_lists]; congruence)).
  cbn [bind]. unfold GF256.add.
  rewrite !validateByte_ok by apply byte_val. cbn [bind].
  rewrite (poly_value_xor_lists poly gen Hg ND) by assumption.
  split; [reflexivity|eexists; reflexivity].
Qed.

Lemma addPolynomials_evaluate_witness :
  (r <- GF256.addPolynomials aes_field [1; 2; 3] [7; 7] ;;
   GF256.evaluate aes_field r 2) =
  (u <- GF256.evaluate aes_field [1; 2; 3] 2 ;;
   v <- GF256.evaluate aes_field [7; 7] 2 ;; GF256.add aes_field u v) /\
  exists s, (r <- GF256.addPolynomials aes_field [1; 2; 3] [7; 7] ;;
             GF256.evaluate aes_field r 2) = Ret s.
Proof.
  apply (addPolynomials_evaluate 283 3 aes_field [1; 2; 3] [7; 7] 2).
  - vm_compute. reflexivity.
  - repeat constructor; unfold byte; lia.
  - repeat constructor; unfold byte; lia.
  - discriminate.
  - discriminate.
  - unfold byte. lia.
  - lia.
Defined.



(** ** [findAllGenerators] *)

(** Whether [isGenerator(poly, g)] returned [true]. *)
Definition is_generator (poly g : Z) : bool :=
  match GF256.isGenerator poly g with
  | Ret true => true
  | _ => false
  end.

(** The candidates [i, i + 1, ..., i + k - 1]. *)
Fixpoint candidates (i : Z) (k : nat) : list Z :=
  match k with
  | O => []
  | S k' => i :: candidates (i + 1) k'
  end.

Lemma In_candidates (i : Z) (k : nat) (g : Z) :
  In g (candidates i k) <-> i <= g < i + Z.of_nat k.
Proof.
  revert i. induction k as [|k IH]; intros i.
  - simpl. lia.
  - cbn [candidates In]. rewrite IH. lia.
Qed.

Lemma StronglySorted_candidates (i : Z) (k : nat) :
  StronglySorted Z.lt (candidates i k).
Proof.
  revert i. induction k as [|k IH]; intros i; [constructor|].
  cbn [candidates]. constructor; [apply IH|].
  apply Forall_forall. intros g Hg. apply In_candidates in Hg. lia.
Qed.

Lemma StronglySorted_filter (f : Z -> bool) (l : list Z) :
  StronglySorted Z.lt l -> StronglySorted Z.lt (filter f l).
Proof.
  induction 1 as [|x l Hs IH Hx]; [constructor|].
  cbn [filter]. destruct (f x); [|exact IH].
  constructor; [exact IH|].
  apply Forall_forall. intros y Hy. apply filter_In in Hy.
  revert y Hy. intros y [Hy _]. revert y Hy. apply Forall_forall, Hx.
Qed.

Lemma findAllGenerators_loop_filter (poly : Z) (k : nat) :
  0 <= poly <= 65535 ->
  forall (i : Z) (acc : list Z),
    0 <= i -> i + Z.of_nat k <= 256 ->
    GF256.findAllGenerators_loop k i poly acc =
    Ret (acc ++ filter (is_generator poly) (candidates i k)).
Proof.
  intros Hp. induction k as [|k IH]; intros i acc Hi Hk.
  - simpl. rewrite app_nil_r. reflexivity.
  - cbn [GF256.findAllGenerators_loop candidates filter].
    unfold is_generator at 1.
    destruct (isGenerator_spec poly i Hp) as [b [Eb _]];
      [unfold byte; lia|].
    rewrite Eb. cbn [bind]. rewrite IH by lia.
    destruct b; [|reflexivity]. rewrite <- app_assoc. reflexivity.
Qed.

(** [findAllGenerators] rejects a polynomial that is not a 16-bit value;
    otherwise it returns, in strictly ascending order, exactly the
    candidates in [2,254] that [isGenerator] accepts.  The byte 255 is never
    in the result, though it can be a generator: it is one for 0x11B. *)
Theorem findAllGenerators_range (poly : Z) :
  (~ 0 <= poly <= 65535 ->
   GF256.findAllGenerators poly = Throw NotAUInt16) /\
  (0 <= poly <= 65535 ->
   exists l,
     GF256.findAllGenerators poly = Ret l /\
     (forall g, In g l <->
                2 <= g <= 254 /\ GF256.isGenerator poly g = Ret true) /\
     StronglySorted Z.lt l /\
     ~ In 255 l) /\
  GF256.isGenerator 283 255 = Ret true.
Proof.
  split; [|split].
  - intros Hp. unfold GF256.findAllGenerators.
    rewrite validateUInt16_bad by exact Hp. reflexivity.
  - intros Hp. exists (filter (is_generator poly) (candidates 2 253)).
    assert (Hin : forall g,
              In g (filter (is_generator poly) (candidates 2 253)) <->
              2 <= g <= 254 /\ GF256.isGenerator poly g = Ret true).
    { intros g. rewrite filter_In, In_candidates. unfold is_generator.
      split.
      - intros [Hg E]. split; [lia|].
        destruct (GF256.isGenerator poly g) as [[|]| |];
          try discriminate; reflexivity.
      - intros [Hg E]. split; [lia|]. rewrite E. reflexivity. }
    split; [|split; [exact Hin|split]].
    + unfold GF256.findAllGenerators.
      rewrite validateUInt16_ok by exact Hp. cbn [bind].
      rewrite (findAllGenerators_loop_filter poly 253 Hp 2 []) by lia.
      reflexivity.
    + apply StronglySorted_filter, StronglySorted_candidates.
    + intros H. apply Hin in H. lia.
  - vm_compute. reflexivity.
Qed.

Lemma findAllGenerators_range_witness :
  GF256.findAllGenerators 65536 = Throw NotAUInt16 /\
  (exists l,
     GF256.findAllGenerators 283 = Ret l /\
     (forall g, In g l <->
                2 <= g <= 254 /\ GF256.isGenerator 283 g = Ret true) /\
     StronglySorted Z.lt l /\
     ~ In 255 l).
Proof.
  split.
  - apply (proj1 (findAllGenerators_range 65536)). lia.
  - apply (proj1 (proj2 (findAllGenerators_range 283))). lia.
Defined.

(** ** [makePolynomial] *)

Lemma makePolynomial_loop_overwrite (r2 : list Z) :
  forall r1 pre rest,
    length pre = S (length r1) -> (length r2 <= length rest)%nat ->
    Forall byte r2 ->
    GF256.makePolynomial_loop (length r2) (Z.of_nat (length r1)) (r1 ++ r2)
      (pre ++ rest) = pre ++ overwrite rest r2.
Proof.
  induction r2 as [|x r2 IH]; intros r1 pre rest Hlen Hrest Hb;
    [reflexivity|].
  destruct rest as [|r rest]; [simpl in Hrest; lia|].
  inversion Hb as [|? ? Hx Hb']; subst.
  cbn [length GF256.makePolynomial_loop overwrite].
  rewrite u8_get_app.
  replace (Z.of_nat (length r1) + 1) with (Z.of_nat (length pre)) by lia.
  rewrite u8_set_app by exact Hx.
  replace (Z.of_nat (length pre)) with (Z.of_nat (length (r1 ++ [x])))
    by (rewrite length_app; simpl; lia).
  rewrite (app_cons_assoc pre x rest), (app_cons_assoc r1 x r2).
  rewrite IH.
  - rewrite <- app_assoc. reflexivity.
  - rewrite !length_app, Hlen. simpl. lia.
  - simpl in Hrest. lia.
  - exact Hb'.
Qed.

Lemma makePolynomial_made (randomBytes : Z -> list Z)
  (intercept degree : Z) :
  byte intercept -> 0 <= degree ->
  length (randomBytes degree) = Z.to_nat degree ->
  Forall byte (randomBytes degree) ->
  GF256.makePolynomial randomBytes intercept degree =
  GF256.Made (intercept :: randomBytes degree).
Proof.
  intros Hi Hd Hlen Hb. unfold GF256.makePolynomial.
  rewrite validateByte_ok by exact Hi.
  replace (degree <? 0) with false by (symmetry; apply Z.ltb_ge; exact Hd).
  f_equal. replace (Z.to_nat (degree + 1)) with (S (Z.to_nat degree)) by lia.
  unfold u8_new. cbn [repeat].
  change (u8_set (0 :: repeat 0 (Z.to_nat degree)) 0 intercept)
    with (intercept mod 256 :: repeat 0 (Z.to_nat degree)).
  rewrite byte_mod by exact Hi. rewrite <- Hlen.
  pose proof (makePolynomial_loop_overwrite (randomBytes degree) []
                [intercept] (repeat 0 (length (randomBytes degree)))) as L.
  cbn [length app] in L. change (Z.of_nat 0) with 0 in L.
  rewrite L; [|reflexivity|rewrite repeat_length; lia|exact Hb].
  rewrite overwrite_zeros by lia. rewrite Nat.sub_diag. cbn [repeat].
  rewrite app_nil_r. reflexivity.
Qed.

(** [makePolynomial] checks the intercept, then the degree; for a byte
    intercept and a degree [d >= 0], when the random source hands back [d]
    bytes, the result is the intercept followed by those bytes:
    [d + 1] coefficients with coefficient 0 the intercept. *)
Theorem makePolynomial_shape (randomBytes : Z -> list Z)
  (intercept degree : Z) :
  (~ byte intercept ->
   GF256.makePolynomial randomBytes intercept degree =
   GF256.MadeThrow NotAByte) /\
  (byte intercept -> degree < 0 ->
   GF256.makePolynomial randomBytes intercept degree =
   GF256.MadeThrowNegativeDegree) /\
  (byte intercept -> 0 <= degree ->
   length (randomBytes degree) = Z.to_nat degree ->
   Forall byte (randomBytes degree) ->
   GF256.makePolynomial randomBytes intercept degree =
   GF256.Made (intercept :: randomBytes degree) /\
   Z.of_nat (length (intercept :: randomBytes degree)) = degree + 1).
Proof.
  split; [|split].
  - intros Hi. unfold GF256.makePolynomial.
    rewrite validateByte_bad by exact Hi. reflexivity.
  - intros Hi Hd. unfold GF256.makePolynomial.
    rewrite validateByte_ok by exact Hi.
    replace (degree <? 0) with true by (symmetry; apply Z.ltb_lt; exact Hd).
    reflexivity.
  - intros Hi Hd Hlen Hb.
    split; [apply makePolynomial_made; assumption|].
    cbn [length]. rewrite Hlen. lia.
Qed.

Lemma makePolynomial_shape_witness :
  GF256.makePolynomial (fun n => repeat 9 (Z.to_nat n)) 256 3 =
    GF256.MadeThrow NotAByte /\
  GF256.makePolynomial (fun n => repeat 9 (Z.to_nat n)) 42 (-1) =
    GF256.MadeThrowNegativeDegree /\
  GF256.makePolynomial (fun n => repeat 9 (Z.to_nat n)) 42 3 =
    GF256.Made (42 :: repeat 9 (Z.to_nat 3)) /\
  Z.of_nat (length (42 :: repeat 9 (Z.to_nat 3))) = 3 + 1.
Proof.
  split; [|split].
  - apply (proj1 (makePolynomial_shape (fun n => repeat 9 (Z.to_nat n))
                    256 3)).
    unfold byte. lia.
  - apply (proj1 (proj2 (makePolynomial_shape
                           (fun n => repeat 9 (Z.to_nat n)) 42 (-1))));
      unfold byte; lia.
  - apply (proj2 (proj2 (makePolynomial_shape
                           (fun n => repeat 9 (Z.to_nat n)) 42 3))).
    + unfold byte. lia.
    + lia.
    + reflexivity.
    + repeat constructor; unfold byte; lia.
Defined.

(** A secret shared with [makePolynomial] is recovered by [interpolate]:
    for a byte [secret], a degree [d >= 0] and a random source handing back
    [d] bytes, from [d + 1] samples of the polynomial at pairwise distinct
    nonzero bytes, [interpolate(samples, 0)] is [secret]. *)
Theorem shared_secret_recovered (poly gen : Z) (F : GF256.t)
  (randomBytes : Z -> list Z) (secret degree : Z)
  (coefficients : list Z) (samples : list Point) :
  GF256.new poly gen = Ret F ->
  byte secret -> 0 <= degree ->
  length (randomBytes degree) = Z.to_nat degree ->
  Forall byte (randomBytes degree) ->
  GF256.makePolynomial randomBytes secret degree = GF256.Made coefficients ->
  Z.of_nat (length samples) = degree + 1 ->
  Forall (fun s => byte (px s) /\ px s <> 0 /\
                   GF256.evaluate F coefficients (px s) = Ret (py s))
         samples ->
  NoDup (map px samples) ->
  GF256.interpolate F samples 0 = Ret secret.
Proof.
  intros H Hs Hd Hlen Hb Hmk Hn Hsam ND.
  rewrite (makePolynomial_made randomBytes secret degree Hs Hd Hlen Hb)
    in Hmk.
  injection Hmk as <-.
  apply new_inv in H. destruct H as [Hpoly [Hg [NDp ->]]].
  apply (interpolate_zero_constant poly gen secret (randomBytes degree)
           samples); try assumption.
  - constructor; assumption.
  - apply Nat2Z.inj. cbn [length]. rewrite Hn, Nat2Z.inj_succ, Hlen. lia.
Qed.

Lemma shared_secret_recovered_witness :
  GF256.interpolate aes_field [mkPoint 1 0; mkPoint 2 9; mkPoint 3 8] 0
  = Ret 1.
Proof.
  apply (shared_secret_recovered 283 3 aes_field (fun _ => [2; 3]) 1 2
           [1; 2; 3] [mkPoint 1 0; mkPoint 2 9; mkPoint 3 8]).
  - vm_compute. reflexivity.
  - unfold byte. lia.
  - lia.
  - reflexivity.
  - repeat constructor; unfold byte; lia.
  - reflexivity.
  - reflexivity.
  - repeat constructor; cbn [px py]; unfold byte; try lia;
      vm_compute; reflexivity.
  - repeat constructor; simpl; intuition lia.
Defined.
